(** * youtube-transcript: a shallow embedding of [src/index.ts]

    The module retrieves the timed captions of a video.  Its entry point
    [fetchTranscript] tries an HTML-scrape strategy, falls back to the
    InnerTube API on one specific error, and both strategies share
    [processTranscriptFromCaptions].

    Data is modelled the way the TypeScript handles it at run time:
    - a JavaScript string is its sequence of UTF-16 code units ([list N]);
    - a Number is a double, written as the decimal that it is exactly;
    - the values read out of [JSON.parse] are untyped ([value]), and every
      property access, method call and operator keeps its dynamic failure
      (a [TypeError]);
    - [await fetch (...)] is a call to an oracle ([Transport]) that sees
      the requests issued so far; the requests are logged in the state;
    - an exception is an [Err] result that short-circuits the sequel. *)

From Stdlib Require Import List NArith ZArith Bool Lia Ascii String.
Import ListNotations.

Local Open Scope N_scope.
Local Open Scope list_scope.
Set Warnings "-register-all".

(** ** JavaScript strings *)

Definition jsstring := list N.

(** The code units of an ASCII literal. *)
Definition str (s : string) : jsstring :=
  map N_of_ascii (list_ascii_of_string s).

Definition dquote : N := 34.

(** Test data is written with apostrophes where the text has double
    quotes: [qstr "<a b='c'>"] is the text [<a b="c">]. *)
Definition qstr (s : string) : jsstring :=
  map (fun c => if c =? 39 then dquote else c) (str s).

Fixpoint jseqb (a b : jsstring) : bool :=
  match a, b with
  | [], [] => true
  | x :: a', y :: b' => (x =? y) && jseqb a' b'
  | _, _ => false
  end.

(** [s.startsWith(p)] *)
Fixpoint starts_with (p s : jsstring) : bool :=
  match p, s with
  | [], _ => true
  | x :: p', y :: s' => (x =? y) && starts_with p' s'
  | _ :: _, [] => false
  end.

(** [s.includes(p)] *)
Fixpoint includes (p s : jsstring) : bool :=
  starts_with p s ||
  match s with
  | [] => false
  | _ :: s' => includes p s'
  end.

(** [s.split(sep)] for a non-empty separator: the parts between the
    occurrences of [sep], found from the left and not overlapping.  [skip]
    counts the code units of a separator still to be passed over, [cur] is
    the part being read, reversed. *)
Fixpoint split_go (sep : jsstring) (skip : nat) (cur s : jsstring)
  : list jsstring :=
  match s with
  | [] => [rev cur]
  | c :: s' =>
      match skip with
      | S n => split_go sep n cur s'
      | O =>
          if starts_with sep s
          then rev cur :: split_go sep (List.length sep - 1) [] s'
          else split_go sep 0 (c :: cur) s'
      end
  end.

Definition split (sep s : jsstring) : list jsstring := split_go sep 0 [] s.

(** [s.replace(c, '')] for a one-unit string pattern [c]: a string pattern
    replaces its first occurrence only. *)
Fixpoint replace_first_char (c : N) (s : jsstring) : jsstring :=
  match s with
  | [] => []
  | x :: s' => if x =? c then s' else x :: replace_first_char c s'
  end.

(** [xs.join(sep)] on strings. *)
Fixpoint join (sep : jsstring) (xs : list jsstring) : jsstring :=
  match xs with
  | [] => []
  | [x] => x
  | x :: xs' => x ++ sep ++ join sep xs'
  end.

(** ** Character classes of ECMAScript *)

(** LineTerminator: LF, CR, LS, PS. *)
Definition is_line_terminator (c : N) : bool :=
  (c =? 10) || (c =? 13) || (c =? 8232) || (c =? 8233).

(** WhiteSpace and LineTerminator: the class [\s], and what [parseFloat]
    skips at the front. *)
Definition is_space (c : N) : bool :=
  ((9 <=? c) && (c <=? 13)) || (c =? 32) || (c =? 160) || (c =? 5760) ||
  ((8192 <=? c) && (c <=? 8202)) || (c =? 8232) || (c =? 8233) ||
  (c =? 8239) || (c =? 8287) || (c =? 12288) || (c =? 65279).

Definition is_digit (c : N) : bool := (48 <=? c) && (c <=? 57).

(** ASCII upper-casing; it decides case-insensitive matching against an
    ASCII pattern character (a code unit above 127 never canonicalizes
    to an ASCII one). *)
Definition ascii_upper (c : N) : N :=
  if (97 <=? c) && (c <=? 122) then c - 32 else c.

(** ** Numbers

    A Number is a double: NaN, an infinity, or a finite value, which is
    written as the decimal [(-1)^neg * m * 10^e] that it is exactly (every
    finite double is a finite decimal), with [m] no multiple of ten, and
    [e = 0] for a zero.  The same type holds the decimal read off a text
    before it is rounded to the nearest double. *)

Inductive number :=
| NaN
| Infinity (neg : bool)
| Dec (neg : bool) (m : N) (e : Z).

Fixpoint take_digits (s : jsstring) : jsstring * jsstring :=
  match s with
  | c :: s' =>
      if is_digit c
      then let (d, r) := take_digits s' in (c :: d, r)
      else ([], s)
  | [] => ([], [])
  end.

Definition digits_value (d : jsstring) : N :=
  fold_left (fun acc c => 10 * acc + (c - 48)) d 0.

(** An optional sign at the front: whether it is a minus, and the rest. *)
Definition strip_sign (s : jsstring) : bool * jsstring :=
  match s with
  | c :: r =>
      if c =? 45 then (true, r)
      else if c =? 43 then (false, r)
      else (false, s)
  | [] => (false, [])
  end.

(** An ExponentPart at the front of [s], if there is a complete one:
    [e] or [E], an optional sign, at least one digit.  Returns its value
    and what follows it. *)
Definition exponent_part (s : jsstring) : option (Z * jsstring) :=
  match s with
  | c :: s1 =>
      if (c =? 101) || (c =? 69) then
        let (neg, s2) := strip_sign s1 in
        match take_digits s2 with
        | ([], _) => None
        | (d, r) =>
            let v := Z.of_N (digits_value d) in
            Some (if neg then (- v)%Z else v, r)
        end
      else None
  | [] => None
  end.

Fixpoint drop_spaces (s : jsstring) : jsstring :=
  match s with
  | c :: s' => if is_space c then drop_spaces s' else s
  | [] => []
  end.

(** The digits after a point at the front of [s], and what follows. *)
Definition fraction_part (s : jsstring) : jsstring * jsstring :=
  match s with
  | c :: r => if c =? 46 then take_digits r else ([], s)
  | [] => ([], [])
  end.

(** The decimal denoted by the longest prefix of [s] that is a
    StrDecimalLiteral, after the leading white space; NaN when there is
    none. *)
Definition decimal_prefix (s : jsstring) : number :=
  let (neg, s1) := strip_sign (drop_spaces s) in
  if starts_with (str "Infinity") s1 then Infinity neg
  else
    let (int, s2) := take_digits s1 in
    let (frac, s3) := fraction_part s2 in
    match int ++ frac with
    | [] => NaN
    | ds =>
        let m := digits_value ds in
        let e0 := (- Z.of_nat (List.length frac))%Z in
        match exponent_part s3 with
        | Some (x, _) => Dec neg m (e0 + x)
        | None => Dec neg m e0
        end
    end.

Local Open Scope Z_scope.

(** The decimal [m * 10^e] as a fraction [p / q] of whole numbers. *)
Definition fraction (m : N) (e : Z) : Z * Z :=
  if 0 <=? e then (Z.of_N m * 10 ^ e, 1) else (Z.of_N m, 10 ^ (- e)).

(** The integer part of the binary logarithm of [P / q], for positive [P]
    and [q] (where it is negative, a negative number). *)
Definition ilog2 (P q : Z) : Z :=
  let l := Z.log2 P - Z.log2 q in
  if q * 2 ^ l <=? P then l else l - 1.

(** The integer nearest to [a / b]; of two nearest ones, the even one. *)
Definition round_half_even (a b : Z) : Z :=
  let n := a / b in
  match 2 * (a mod b) ?= b with
  | Lt => n
  | Gt => n + 1
  | Eq => if Z.even n then n else n + 1
  end.

(** Every finite double is a whole number of steps of [2^-1074], the
    least positive double: [p / q] is [in_steps p / q] steps. *)
Definition in_steps (p : Z) : Z := p * 2 ^ 1074.

(** The exponent [k] for which the doubles around [P / q] steps are the
    multiples of [2^k] steps: the one that gives them 53 bits, and 0
    below [2^53] steps, where the doubles are all the whole numbers. *)
Definition spacing (P q : Z) : Z := Z.max (ilog2 P q - 52) 0.

(** The number of such multiples in the nearest one. *)
Definition significand (p q : Z) : Z :=
  round_half_even (in_steps p) (q * 2 ^ spacing (in_steps p) q).

(** The double [n * 2^x] nearest to [p / q], for positive [p] and [q];
    none from [2^1024], which is [2^2098] steps, on. *)
Definition nearest_binary (p q : Z) : option (Z * Z) :=
  let k := spacing (in_steps p) q in
  let n := significand p q in
  if 2 ^ 2098 <=? n * 2 ^ k then None else Some (n, k - 1074).

(** The decimal [m * 10^e] without trailing zeros in [m]. *)
Fixpoint strip_zeros (fuel : nat) (m e : Z) : Z * Z :=
  match fuel with
  | O => (m, e)
  | S fuel' =>
      if m mod 10 =? 0 then strip_zeros fuel' (m / 10) (e + 1)
      else (m, e)
  end.

(** The decimal that [n * 2^x] is. *)
Definition decimal_of_binary (neg : bool) (n x : Z) : number :=
  if n =? 0 then Dec neg 0 0
  else
    let (m, e) :=
      if 0 <=? x then (n * 2 ^ x, 0) else (n * 5 ^ (- x), x) in
    let (m', e') := strip_zeros (Z.to_nat (Z.log2 m)) m e in
    Dec neg (Z.to_N m') e'.

(** The Number value of a decimal: the double nearest to it, the one
    with the even significand of two nearest ones, an infinity from
    [2^1024] on (IEEE 754 binary64, roundTiesToEven). *)
Definition to_double (d : number) : number :=
  match d with
  | NaN => NaN
  | Infinity neg => Infinity neg
  | Dec neg m e =>
      if (m =? 0)%N then Dec neg 0 0
      else
        let (p, q) := fraction m e in
        match nearest_binary p q with
        | Some (n, x) => decimal_of_binary neg n x
        | None => Infinity neg
        end
  end.

Local Close Scope Z_scope.

(** The global [parseFloat]: skip leading white space, read the longest
    prefix that is a StrDecimalLiteral, NaN when there is none; the
    result is the Number value of what was read. *)
Definition parseFloat (s : jsstring) : number :=
  to_double (decimal_prefix s).

(** A text that [parseFloat] cannot read: after the white space and the
    sign it starts neither with [Infinity], nor with a digit, nor with a
    point and a digit. *)
Definition non_numeric (s : jsstring) : bool :=
  let s1 := snd (strip_sign (drop_spaces s)) in
  negb (starts_with (str "Infinity") s1) &&
  match s1 with
  | c :: r =>
      negb (is_digit c) &&
      negb ((c =? 46) && match r with
                         | d :: _ => is_digit d
                         | [] => false
                         end)
  | [] => true
  end.

(** The double nearest to a positive decimal is 0 exactly when the
    decimal is at most [2^-1075], half the least subnormal; for a double
    this says that it is a zero. *)
Definition rounds_to_zero (m : N) (e : Z) : bool :=
  (m =? 0) ||
  ((e <? 0)%Z && (Z.of_N m * 2 ^ 1075 <=? 10 ^ (- e))%Z).

(** *** What the nearest double is

    The words of IEEE 754 for the statements about [to_double]. *)

Local Open Scope Z_scope.

(** A double, counted in steps of [2^-1074]. *)
Definition double_steps (V : Z) : Prop :=
  exists n k, V = n * 2 ^ k /\ 0 <= n < 2 ^ 53 /\ 0 <= k <= 2045.

(** The decimal [m * 10^e] is the binary [n * 2^x]. *)
Definition same_value (m : N) (e : Z) (n x : Z) : Prop :=
  if 0 <=? x then 0 <= e /\ Z.of_N m * 10 ^ e = n * 2 ^ x
  else x <= e /\ Z.of_N m * 10 ^ (e - x) = n * 5 ^ (- x).

(** The decimal has no trailing zero. *)
Definition canonical (m : N) (e : Z) : Prop :=
  (m = 0%N /\ e = 0) \/ Z.of_N m mod 10 <> 0.

(** [V] steps are as near to [p / q] as any double. *)
Definition nearest_steps (p q V : Z) : Prop :=
  forall V', double_steps V' ->
             Z.abs (V * q - in_steps p) <= Z.abs (V' * q - in_steps p).

(** [d] is the double nearest to the positive fraction [p / q], with the
    sign [neg]: an infinity from [2^1024 - 2^970] on, which is half way
    between the largest double and [2^1024]; else the decimal of a double
    [n * 2^x] that is as near as any, with an even [n] when another double
    is as near. *)
Definition nearest_double (neg : bool) (p q : Z) (d : number) : Prop :=
  match d with
  | NaN => False
  | Infinity neg' =>
      neg' = neg /\ (2 ^ 2098 - 2 ^ 2044) * q <= in_steps p
  | Dec neg' m e =>
      neg' = neg /\ in_steps p < (2 ^ 2098 - 2 ^ 2044) * q /\
      canonical m e /\
      exists n x,
        same_value m e n x /\
        0 <= n <= 2 ^ 53 /\ -1074 <= x /\ (x = -1074 \/ 2 ^ 52 <= n) /\
        double_steps (n * 2 ^ (x + 1074)) /\
        nearest_steps p q (n * 2 ^ (x + 1074)) /\
        (forall V',
            double_steps V' -> V' <> n * 2 ^ (x + 1074) ->
            Z.abs (V' * q - in_steps p)
            = Z.abs (n * 2 ^ (x + 1074) * q - in_steps p) ->
            Z.even n = true)
  end.

Local Close Scope Z_scope.

(** ** Regular expressions

    The two patterns of the module use literals, character classes,
    sequence, alternation, greedy repetition and capture groups.  The
    matcher is the backtracking matcher of the language definition in
    continuation style: [k] is what remains to be matched, and the first
    way to succeed wins. *)

Inductive regex :=
| Eps
| Chr (p : N -> bool)
| Seq (r1 r2 : regex)
| Alt (r1 r2 : regex)
| Star (r : regex)
| Group (i : nat) (r : regex).

Definition captures := list (nat * jsstring).

Fixpoint capture (i : nat) (c : captures) : option jsstring :=
  match c with
  | [] => None
  | (j, s) :: c' => if Nat.eqb i j then Some s else capture i c'
  end.

Definition orelse {A} (a b : option A) : option A :=
  match a with
  | Some x => Some x
  | None => b
  end.

Section Matcher.
Context {A : Type}.

Definition cont : Type := jsstring -> captures -> option A.

(** The iterations of a repetition whose body is matched by [step].  An
    iteration that matched the empty string is given up, so each one
    shortens the input and [length s] of them are all there can be
    ([rmatch_Star] below is the equation without the counter). *)
Fixpoint star_loop (step : jsstring -> captures -> cont -> option A)
         (k : cont) (n : nat) (s : jsstring) (c : captures) : option A :=
  match n with
  | O => k s c
  | S n' =>
      orelse
        (step s c
           (fun s' c' =>
              if (List.length s' <? List.length s)%nat
              then star_loop step k n' s' c' else None))
        (k s c)
  end.

Fixpoint rmatch (r : regex) (s : jsstring) (c : captures) (k : cont)
         {struct r} : option A :=
  match r with
  | Eps => k s c
  | Chr p =>
      match s with
      | x :: s' => if p x then k s' c else None
      | [] => None
      end
  | Seq r1 r2 => rmatch r1 s c (fun s' c' => rmatch r2 s' c' k)
  | Alt r1 r2 => orelse (rmatch r1 s c k) (rmatch r2 s c k)
  | Star r1 => star_loop (rmatch r1) k (List.length s) s c
  | Group i r1 =>
      rmatch r1 s c
        (fun s' c' =>
           k s' ((i, firstn (List.length s - List.length s') s) :: c'))
  end.
End Matcher.

(** One match attempt at the front of [s]: the captures and what is left
    of [s] after the match. *)
Definition exec_at (r : regex) (s : jsstring) : option (captures * jsstring) :=
  rmatch r s [] (fun s' c => Some (c, s')).

(** [s.match(r)] for a pattern without the [g] flag: the first position,
    from the left, with a match. *)
Fixpoint regex_match (r : regex) (s : jsstring) : option captures :=
  match exec_at r s with
  | Some (c, _) => Some c
  | None =>
      match s with
      | [] => None
      | _ :: s' => regex_match r s'
      end
  end.

(** [[...s.matchAll(r)]] for a pattern with the [g] flag: the matches from
    the left, each search starting where the previous match ended (one
    unit further after an empty match).  [skip] counts the units of the
    last match still to be passed over. *)
Fixpoint matchAll_go (r : regex) (skip : nat) (s : jsstring) : list captures :=
  match s with
  | [] =>
      match skip, exec_at r [] with
      | O, Some (c, _) => [c]
      | _, _ => []
      end
  | _ :: s' =>
      match skip with
      | S n => matchAll_go r n s'
      | O =>
          match exec_at r s with
          | Some (c, rest) =>
              c :: matchAll_go r (List.length s - List.length rest - 1) s'
          | None => matchAll_go r 0 s'
          end
      end
  end.

Definition matchAll (r : regex) (s : jsstring) : list captures :=
  matchAll_go r 0 s.

(** Pattern syntax. *)
Definition is_char (x : N) : N -> bool := fun c => c =? x.
Definition is_char_i (x : N) : N -> bool :=
  fun c => ascii_upper c =? ascii_upper x.
Definition any_but (xs : list N) : N -> bool :=
  fun c => negb (existsb (N.eqb c) xs).
Definition dot : N -> bool := fun c => negb (is_line_terminator c).

Fixpoint lit (w : jsstring) : regex :=
  match w with
  | [] => Eps
  | x :: w' => Seq (Chr (is_char x)) (lit w')
  end.

Fixpoint lit_i (w : jsstring) : regex :=
  match w with
  | [] => Eps
  | x :: w' => Seq (Chr (is_char_i x)) (lit_i w')
  end.

Definition Plus (r : regex) : regex := Seq r (Star r).
Definition Opt (r : regex) : regex := Alt r Eps.

Fixpoint Times (n : nat) (r : regex) : regex :=
  match n with
  | O => Eps
  | S n' => Seq r (Times n' r)
  end.

(** ** The patterns of the module *)

(** The class of an identifier character: anything but a double quote,
    [&], [?], [/] and white space. *)
Definition id_char (c : N) : bool :=
  negb ((c =? dquote) || (c =? 38) || (c =? 63) || (c =? 47) || is_space c).

(** The pattern
    [/(?:youtube\.com\/(?:[^\/]+\/.+\/|(?:v|e(?:mbed)?|shorts)\/|.*[?&]v=)|youtu\.be\/)(C{11})/i]
    where [C] is the class [id_char], in its parts. *)
Definition HOST_LONG : jsstring := str "youtube.com/".
Definition HOST_SHORT : jsstring := str "youtu.be/".

(** [[^\/]+\/.+\/] *)
Definition RE_NESTED : regex :=
  Seq (Plus (Chr (any_but [47])))
    (Seq (lit_i (str "/")) (Seq (Plus (Chr dot)) (lit_i (str "/")))).

(** [(?:v|e(?:mbed)?|shorts)\/] *)
Definition RE_KEYWORD : regex :=
  Seq
    (Alt (lit_i (str "v"))
       (Alt (Seq (lit_i (str "e")) (Opt (lit_i (str "mbed"))))
          (lit_i (str "shorts"))))
    (lit_i (str "/")).

Definition is_query_mark (c : N) : bool := (c =? 63) || (c =? 38).

(** [.*[?&]v=] *)
Definition RE_QUERY : regex :=
  Seq (Star (Chr dot)) (Seq (Chr is_query_mark) (lit_i (str "v="))).

Definition RE_PATH : regex := Alt RE_NESTED (Alt RE_KEYWORD RE_QUERY).

Definition RE_ID : regex := Group 1 (Times 11 (Chr id_char)).

Definition RE_YOUTUBE : regex :=
  Seq (Alt (Seq (lit_i HOST_LONG) RE_PATH) (lit_i HOST_SHORT)) RE_ID.

Definition USER_AGENT : jsstring :=
  str "Mozilla/5.0 (Macintosh; Intel Mac OS X 10_15_4) AppleWebKit/537.36 (KHTML, like Gecko) Chrome/85.0.4183.83 Safari/537.36,gzip(gfe)".

(** The pattern of a timed-text element, with flag [g]: the opening tag
    [text] with the attributes [start] and [dur], each value a group of
    any units but the double quote (groups 1 and 2); the inner text, a
    group of any units but [<] (group 3); the closing tag. *)
Definition XML_OPEN : jsstring := qstr "<text start='".
Definition XML_DUR : jsstring := qstr "' dur='".
Definition XML_GT : jsstring := qstr "'>".
Definition XML_END : jsstring := str "</text>".

Definition RE_XML_TRANSCRIPT : regex :=
  Seq (lit XML_OPEN)
    (Seq (Group 1 (Star (Chr (any_but [dquote]))))
       (Seq (lit XML_DUR)
          (Seq (Group 2 (Star (Chr (any_but [dquote]))))
             (Seq (lit XML_GT)
                (Seq (Group 3 (Star (Chr (any_but [60]))))
                   (lit XML_END)))))).

(** ** Run-time values

    What [JSON.parse] builds, and [undefined].  An object keeps its
    members in source order; a repeated key is resolved at lookup. *)

Inductive value :=
| JUndefined
| JNull
| JBool (b : bool)
| JNum (n : number)
| JStr (s : jsstring)
| JArr (l : list value)
| JObj (m : list (jsstring * value)).

(** The last member with key [k] wins, as in [JSON.parse]. *)
Fixpoint own_property (m : list (jsstring * value)) (k : jsstring)
  : option value :=
  match m with
  | [] => None
  | (k', v) :: m' =>
      match own_property m' k with
      | Some w => Some w
      | None => if jseqb k' k then Some v else None
      end
  end.

(** ToBoolean *)
Definition truthy (v : value) : bool :=
  match v with
  | JUndefined | JNull => false
  | JBool b => b
  | JNum NaN => false
  | JNum (Infinity _) => true
  | JNum (Dec _ m e) => negb (rounds_to_zero m e)
  | JStr s => negb (jseqb s [])
  | JArr _ | JObj _ => true
  end.

(** ** [JSON.parse]

    A lexer, then a stack machine over the tokens; both go through their
    input once. *)

Inductive token :=
| TLBrace | TRBrace | TLBracket | TRBracket | TColon | TComma
| TString (s : jsstring)
| TNumber (n : number)
| TTrue | TFalse | TNull.

Definition hex_value (c : N) : option N :=
  if is_digit c then Some (c - 48)
  else if (97 <=? c) && (c <=? 102) then Some (c - 87)
  else if (65 <=? c) && (c <=? 70) then Some (c - 55)
  else None.

Definition escape_value (c : N) : option N :=
  if c =? dquote then Some dquote
  else if c =? 92 then Some 92
  else if c =? 47 then Some 47
  else if c =? 98 then Some 8
  else if c =? 102 then Some 12
  else if c =? 110 then Some 10
  else if c =? 114 then Some 13
  else if c =? 116 then Some 9
  else None.

(** The string whose opening quote has just been read: its value and the
    number of units up to and including the closing quote. *)
Fixpoint scan_string (acc : jsstring) (n : nat) (s : jsstring)
  : option (jsstring * nat) :=
  match s with
  | [] => None
  | c :: s1 =>
      if c =? dquote then Some (rev acc, S n)
      else if c =? 92 then
        match s1 with
        | [] => None
        | e :: s2 =>
            if e =? 117 then
              match s2 with
              | a :: b :: x :: y :: s3 =>
                  match hex_value a, hex_value b, hex_value x, hex_value y with
                  | Some a', Some b', Some x', Some y' =>
                      scan_string (((a' * 16 + b') * 16 + x') * 16 + y' :: acc)
                        (6 + n) s3
                  | _, _, _, _ => None
                  end
              | _ => None
              end
            else
              match escape_value e with
              | Some v => scan_string (v :: acc) (2 + n) s2
              | None => None
              end
        end
      else if c <? 32 then None
      else scan_string (c :: acc) (S n) s1
  end.

(** A JSON number at the front of [s], as far as it goes: an optional
    minus; a zero, or digits that start with none; a fraction, if a digit
    follows the point; an exponent, if it is complete.  Returns its Number
    value and how many units it takes. *)
Definition scan_number (s : jsstring) : option (number * nat) :=
  let (neg, s1) :=
    match s with
    | c :: r => if c =? 45 then (true, r) else (false, s)
    | [] => (false, [])
    end in
  let (int, s2) :=
    match s1 with
    | c :: r => if c =? 48 then ([48], r) else take_digits s1
    | [] => ([], [])
    end in
  match int with
  | [] => None
  | _ =>
      let (frac, s3) :=
        match fraction_part s2 with
        | ([], _) => ([], s2)
        | (f, r) => (f, r)
        end in
      let m := digits_value (int ++ frac) in
      let e0 := (- Z.of_nat (List.length frac))%Z in
      let (e, s4) :=
        match exponent_part s3 with
        | Some (x, r) => ((e0 + x)%Z, r)
        | None => (e0, s3)
        end in
      Some (to_double (Dec neg m e), (List.length s - List.length s4)%nat)
  end.

Definition is_json_space (c : N) : bool :=
  (c =? 32) || (c =? 9) || (c =? 10) || (c =? 13).

Definition cons_token (t : token) (r : option (list token))
  : option (list token) :=
  match r with
  | Some ts => Some (t :: ts)
  | None => None
  end.

Fixpoint lex (skip : nat) (s : jsstring) : option (list token) :=
  match s with
  | [] => Some []
  | c :: s' =>
      match skip with
      | S n => lex n s'
      | O =>
          if is_json_space c then lex 0 s'
          else if c =? 123 then cons_token TLBrace (lex 0 s')
          else if c =? 125 then cons_token TRBrace (lex 0 s')
          else if c =? 91 then cons_token TLBracket (lex 0 s')
          else if c =? 93 then cons_token TRBracket (lex 0 s')
          else if c =? 58 then cons_token TColon (lex 0 s')
          else if c =? 44 then cons_token TComma (lex 0 s')
          else if c =? dquote then
            match scan_string [] 0 s' with
            | Some (v, n) => cons_token (TString v) (lex n s')
            | None => None
            end
          else if (c =? 45) || is_digit c then
            match scan_number s with
            | Some (v, n) => cons_token (TNumber v) (lex (n - 1) s')
            | None => None
            end
          else if starts_with (str "true") s then cons_token TTrue (lex 3 s')
          else if starts_with (str "false") s then cons_token TFalse (lex 4 s')
          else if starts_with (str "null") s then cons_token TNull (lex 3 s')
          else None
      end
  end.

(** A frame is a container waiting for the value being read. *)
Inductive frame :=
| FArr (elems : list value)
| FObj (members : list (jsstring * value)) (key : jsstring).

Inductive pstate :=
| PValue (stk : list frame)
| PArrStart (stk : list frame)
| PArrNext (elems : list value) (stk : list frame)
| PObjStart (stk : list frame)
| PObjKey (members : list (jsstring * value)) (stk : list frame)
| PColon (members : list (jsstring * value)) (key : jsstring) (stk : list frame)
| PObjNext (members : list (jsstring * value)) (stk : list frame)
| PEnd (v : value).

Definition complete (v : value) (stk : list frame) : pstate :=
  match stk with
  | [] => PEnd v
  | FArr es :: stk' => PArrNext (v :: es) stk'
  | FObj ms k :: stk' => PObjNext ((k, v) :: ms) stk'
  end.

Definition start_value (t : token) (stk : list frame) : option pstate :=
  match t with
  | TLBrace => Some (PObjStart stk)
  | TLBracket => Some (PArrStart stk)
  | TString s => Some (complete (JStr s) stk)
  | TNumber n => Some (complete (JNum n) stk)
  | TTrue => Some (complete (JBool true) stk)
  | TFalse => Some (complete (JBool false) stk)
  | TNull => Some (complete JNull stk)
  | TRBrace | TRBracket | TColon | TComma => None
  end.

Definition pstep (st : pstate) (t : token) : option pstate :=
  match st, t with
  | PValue stk, _ => start_value t stk
  | PArrStart stk, TRBracket => Some (complete (JArr []) stk)
  | PArrStart stk, _ => start_value t (FArr [] :: stk)
  | PArrNext es stk, TComma => Some (PValue (FArr es :: stk))
  | PArrNext es stk, TRBracket => Some (complete (JArr (rev es)) stk)
  | PObjStart stk, TRBrace => Some (complete (JObj []) stk)
  | PObjStart stk, TString k => Some (PColon [] k stk)
  | PObjKey ms stk, TString k => Some (PColon ms k stk)
  | PColon ms k stk, TColon => Some (PValue (FObj ms k :: stk))
  | PObjNext ms stk, TComma => Some (PObjKey ms stk)
  | PObjNext ms stk, TRBrace => Some (complete (JObj (rev ms)) stk)
  | _, _ => None
  end.

Fixpoint prun (st : pstate) (ts : list token) : option value :=
  match ts with
  | [] =>
      match st with
      | PEnd v => Some v
      | _ => None
      end
  | t :: ts' =>
      match pstep st t with
      | Some st' => prun st' ts'
      | None => None
      end
  end.

(** [None] is the SyntaxError that [JSON.parse] throws. *)
Definition JSON_parse (s : jsstring) : option value :=
  match lex 0 s with
  | Some ts => prun (PValue []) ts
  | None => None
  end.

(** ** Errors

    The classes of the module, and the errors of the run time that the
    module never catches by class. *)

Inductive JSError :=
| YoutubeTranscriptError (message : jsstring)
| YoutubeTranscriptTooManyRequestError
| YoutubeTranscriptVideoUnavailableError (videoId : jsstring)
| YoutubeTranscriptDisabledError (videoId : jsstring)
| YoutubeTranscriptNotAvailableError (videoId : jsstring)
| YoutubeTranscriptNotAvailableLanguageError
    (lang : jsstring) (availableLangs : list value) (videoId : jsstring)
| YoutubeTranscriptEmptyError (videoId : jsstring) (method : jsstring)
| TypeError
| SyntaxError
| FetchError.

(** [e instanceof YoutubeTranscriptEmptyError] *)
Definition is_empty_error (e : JSError) : bool :=
  match e with
  | YoutubeTranscriptEmptyError _ _ => true
  | _ => false
  end.

(** [e instanceof YoutubeTranscriptError] *)
Definition is_transcript_error (e : JSError) : bool :=
  match e with
  | TypeError | SyntaxError | FetchError => false
  | _ => true
  end.

Inductive Result (A : Type) :=
| Ok (a : A)
| Err (e : JSError).
Arguments Ok {A} a.
Arguments Err {A} e.

Definition rbind {A B} (r : Result A) (f : A -> Result B) : Result B :=
  match r with
  | Ok a => f a
  | Err e => Err e
  end.

Declare Scope js_scope.
Delimit Scope js_scope with js.
Notation "'let?' x ':=' r 'in' k" := (rbind r (fun x => k))
  (at level 10, x name, r at level 100, k at level 200) : js_scope.
Local Open Scope js_scope.

(** ** Messages

    Every class prefixes its message in the constructor of the base
    class.  [Number_toString] is the language's rendering of a Number,
    which the module relies on nowhere. *)

(** The results of a list of evaluations, or the first error. *)
Fixpoint sequence {A} (l : list (Result A)) : Result (list A) :=
  match l with
  | [] => Ok []
  | r :: l' =>
      let? x := r in
      let? xs := sequence l' in
      Ok (x :: xs)
  end.

(** Whether ToString throws on a parsed value.  An object is converted
    by its [toString] member, then by [valueOf].  No member of a parsed
    object is a function: an own member [toString] hides the one of
    [Object.prototype], and [valueOf], own or inherited, gives no
    primitive value, so the conversion throws a [TypeError].  An array is
    converted by joining its elements, skipping [undefined] and [null]. *)
Fixpoint ToString_throws (v : value) : bool :=
  match v with
  | JObj m =>
      match own_property m (str "toString") with
      | Some _ => true
      | None => false
      end
  | JArr l =>
      existsb (fun x => match x with
                        | JUndefined | JNull => false
                        | _ => ToString_throws x
                        end) l
  | JUndefined | JNull | JBool _ | JNum _ | JStr _ => false
  end.

(** Whether the conversion of an element of a join throws. *)
Definition join_element_throws (x : value) : bool :=
  match x with
  | JUndefined | JNull => false
  | _ => ToString_throws x
  end.

(** Whether [l.join(sep)] throws. *)
Definition Array_join_throws (l : list value) : bool :=
  existsb join_element_throws l.

Section Messages.
Variable Number_toString : number -> jsstring.

(** ToString *)
Fixpoint ToString (v : value) : Result jsstring :=
  match v with
  | JUndefined => Ok (str "undefined")
  | JNull => Ok (str "null")
  | JBool true => Ok (str "true")
  | JBool false => Ok (str "false")
  | JNum n => Ok (Number_toString n)
  | JStr s => Ok s
  | JArr l =>
      let? parts :=
        sequence
          (map (fun x => match x with
                         | JUndefined | JNull => Ok []
                         | _ => ToString x
                         end) l) in
      Ok (join (str ",") parts)
  | JObj m =>
      match own_property m (str "toString") with
      | Some _ => Err TypeError
      | None => Ok (str "[object Object]")
      end
  end.

(** An element of a join: undefined and null give the empty string. *)
Definition join_element (x : value) : Result jsstring :=
  match x with
  | JUndefined | JNull => Ok []
  | _ => ToString x
  end.

(** [l.join(sep)] *)
Definition Array_join (sep : jsstring) (l : list value) : Result jsstring :=
  let? parts := sequence (map join_element l) in
  Ok (join sep parts).

Definition base_message (m : jsstring) : jsstring :=
  str "[YoutubeTranscript] " ++ [55357; 57000] ++ str " " ++ m.

(** [e.message]; the messages of the run-time errors are not part of
    the module.  The language error exists only when the join of its
    language codes did not throw. *)
Definition message (e : JSError) : option jsstring :=
  match e with
  | YoutubeTranscriptError m => Some (base_message m)
  | YoutubeTranscriptTooManyRequestError =>
      Some (base_message (str "YouTube is receiving too many requests from this IP and now requires solving a captcha to continue"))
  | YoutubeTranscriptVideoUnavailableError videoId =>
      Some (base_message
              (str "The video is no longer available (" ++ videoId ++ str ")"))
  | YoutubeTranscriptDisabledError videoId =>
      Some (base_message
              (str "Transcript is disabled on this video (" ++ videoId ++ str ")"))
  | YoutubeTranscriptNotAvailableError videoId =>
      Some (base_message
              (str "No transcripts are available for this video (" ++ videoId
                 ++ str ")"))
  | YoutubeTranscriptNotAvailableLanguageError lang availableLangs videoId =>
      match Array_join (str ", ") availableLangs with
      | Ok langs =>
          Some (base_message
                  (str "No transcripts are available in " ++ lang
                     ++ str " this video (" ++ videoId
                     ++ str "). Available languages: " ++ langs))
      | Err _ => None
      end
  | YoutubeTranscriptEmptyError videoId method =>
      Some (base_message
              (str "The transcript file URL returns an empty response using "
                 ++ method ++ str " (" ++ videoId ++ str ")"))
  | TypeError | SyntaxError | FetchError => None
  end.
End Messages.

(** [new YoutubeTranscriptNotAvailableLanguageError(lang, availableLangs,
    videoId)] (lines 41 to 46): the constructor builds its message, with
    the join of the language codes, before the error exists; when the
    join throws, that [TypeError] is what the [new] expression throws. *)
Definition new_NotAvailableLanguageError
           (lang : jsstring) (availableLangs : list value) (videoId : jsstring)
  : JSError :=
  if Array_join_throws availableLangs then TypeError
  else YoutubeTranscriptNotAvailableLanguageError lang availableLangs videoId.

(** ** Dynamic operations on values *)

(** [v[k]] and [v.k] for a name [k] that no prototype, string or array
    defines; the names the module reads are of that kind. *)
Definition get (v : value) (k : jsstring) : Result value :=
  match v with
  | JUndefined | JNull => Err TypeError
  | JObj m =>
      Ok match own_property m k with
         | Some w => w
         | None => JUndefined
         end
  | JBool _ | JNum _ | JStr _ | JArr _ => Ok JUndefined
  end.

(** [v?.[k]] *)
Definition get_opt (v : value) (k : jsstring) : value :=
  match get v k with
  | Ok w => w
  | Err _ => JUndefined
  end.

(** [k in v], for the same names. *)
Definition has_property (k : jsstring) (v : value) : Result bool :=
  match v with
  | JObj m =>
      Ok match own_property m k with
         | Some _ => true
         | None => false
         end
  | JArr _ => Ok false
  | JUndefined | JNull | JBool _ | JNum _ | JStr _ => Err TypeError
  end.

(** [v[0]] *)
Definition index0 (v : value) : Result value :=
  match v with
  | JUndefined | JNull => Err TypeError
  | JArr l => Ok (hd JUndefined l)
  | JObj _ => get v (str "0")
  | JStr (c :: _) => Ok (JStr [c])
  | JStr [] | JBool _ | JNum _ => Ok JUndefined
  end.

(** The receiver of [some], [find] and [map]: parsed JSON holds no
    function, so only an array has these methods. *)
Definition as_array (v : value) : Result (list value) :=
  match v with
  | JArr l => Ok l
  | _ => Err TypeError
  end.

Fixpoint Array_some (f : value -> Result bool) (l : list value) : Result bool :=
  match l with
  | [] => Ok false
  | x :: l' =>
      let? b := f x in
      if b then Ok true else Array_some f l'
  end.

Fixpoint Array_find (f : value -> Result bool) (l : list value) : Result value :=
  match l with
  | [] => Ok JUndefined
  | x :: l' =>
      let? b := f x in
      if b then Ok x else Array_find f l'
  end.

Fixpoint Array_map {A B} (f : A -> Result B) (l : list A) : Result (list B) :=
  match l with
  | [] => Ok []
  | x :: l' =>
      let? y := f x in
      let? ys := Array_map f l' in
      Ok (y :: ys)
  end.

(** [v === s] for a string [s] *)
Definition strict_eq_string (v : value) (s : jsstring) : bool :=
  match v with
  | JStr s' => jseqb s' s
  | _ => false
  end.

(** ** The interfaces of the module *)

Record TranscriptConfig := { lang : option jsstring }.

(** [resp_lang] is the field [lang] of a segment; its value comes from
    the configuration or from the parsed captions, so it is a [value]. *)
Record TranscriptResponse := {
  text : jsstring;
  duration : number;
  offset : number;
  resp_lang : value
}.

(** [config?.lang] *)
Definition config_lang (config : option TranscriptConfig) : option jsstring :=
  match config with
  | Some c => lang c
  | None => None
  end.

(** [config?.lang] where the code tests it: the language when it is
    truthy, that is a string that is not empty. *)
Definition truthy_lang (config : option TranscriptConfig) : option jsstring :=
  match config_lang config with
  | Some [] => None
  | Some l => Some l
  | None => None
  end.

(** ** The transport

    [fetch] is outside the module.  A request is answered by an oracle
    that is given the requests made before it, the latest first. *)

Inductive Method := GET | POST.

Record Request := {
  req_method : Method;
  req_url : value;
  req_headers : list (jsstring * jsstring);
  req_body : option value
}.

Record Response := { ok : bool; body : jsstring }.

(** A rejected promise, from [fetch] or from reading the body, or a
    response. *)
Inductive FetchResult :=
| Rejected
| Responded (r : Response).

Definition Transport := list Request -> Request -> FetchResult.

Definition M (A : Type) : Type :=
  Transport -> list Request -> Result A * list Request.

Definition ret {A} (a : A) : M A := fun _ log => (Ok a, log).

Definition throw {A} (e : JSError) : M A := fun _ log => (Err e, log).

Definition bind {A B} (m : M A) (f : A -> M B) : M B :=
  fun t log =>
    match m t log with
    | (Ok a, log') => f a t log'
    | (Err e, log') => (Err e, log')
    end.

Definition lift {A} (r : Result A) : M A := fun _ log => (r, log).

Notation "x <- m ;; k" := (bind m (fun x => k))
  (at level 61, m at next level, right associativity) : js_scope.

(** [await fetch (...)], with the body read. *)
Definition fetch (r : Request) : M Response :=
  fun t log =>
    match t log r with
    | Rejected => (Err FetchError, r :: log)
    | Responded x => (Ok x, r :: log)
    end.

(** The spread [...(config?.lang && { 'Accept-Language': config.lang })]. *)
Definition accept_language (config : option TranscriptConfig)
  : list (jsstring * jsstring) :=
  match truthy_lang config with
  | Some l => [(str "Accept-Language", l)]
  | None => []
  end.

(** ** class YoutubeTranscript *)

(** A group of a match, [result[i]].  Every group of the two patterns
    lies on each path through its pattern, so it is never undefined. *)
Definition group (i : nat) (c : captures) : jsstring :=
  match capture i c with
  | Some s => s
  | None => []
  end.

Definition retrieveVideoId (videoId : jsstring) : Result jsstring :=
  if (List.length videoId =? 11)%nat then Ok videoId
  else
    match regex_match RE_YOUTUBE videoId with
    | Some matchId => Ok (group 1 matchId)
    | None =>
        Err (YoutubeTranscriptError
               (str "Impossible to retrieve Youtube video ID."))
    end.

Definition languageCode_is (l : jsstring) (track : value) : Result bool :=
  let? code := get track (str "languageCode") in
  Ok (strict_eq_string code l).

Definition captionTracks (captions : value) : Result value :=
  get captions (str "captionTracks").

(** The track whose [baseUrl] is fetched (lines 224 to 230). *)
Definition selectTrack (captions : value) (config : option TranscriptConfig)
  : Result value :=
  match truthy_lang config with
  | Some l =>
      let? tracks := captionTracks captions in
      let? arr := as_array tracks in
      Array_find (languageCode_is l) arr
  | None =>
      let? tracks := captionTracks captions in
      index0 tracks
  end.

(** [config?.lang ?? captions.captionTracks[0].languageCode] *)
Definition reported_lang (captions : value) (config : option TranscriptConfig)
  : Result value :=
  match config_lang config with
  | Some l => Ok (JStr l)
  | None =>
      let? tracks := captionTracks captions in
      let? first := index0 tracks in
      get first (str "languageCode")
  end.

(** The body of the timed-text resource, parsed (lines 242 to 248). *)
Definition parseTranscript (captions : value) (config : option TranscriptConfig)
           (transcriptBody : jsstring) : Result (list TranscriptResponse) :=
  let results := matchAll RE_XML_TRANSCRIPT transcriptBody in
  Array_map
    (fun result =>
       let? l := reported_lang captions config in
       Ok {| text := group 3 result;
             duration := parseFloat (group 2 result);
             offset := parseFloat (group 1 result);
             resp_lang := l |})
    results.

(** The request for the timed-text resource (lines 232 to 237). *)
Definition track_request (transcriptURL : value)
           (config : option TranscriptConfig) : Request :=
  {| req_method := GET;
     req_url := transcriptURL;
     req_headers := accept_language config ++ [(str "User-Agent", USER_AGENT)];
     req_body := None |}.

(** The check of the requested language (lines 211 to 222). *)
Definition check_language (captions : value) (videoId : jsstring)
           (config : option TranscriptConfig) : Result unit :=
  match truthy_lang config with
  | Some l =>
      let? tracks := captionTracks captions in
      let? arr := as_array tracks in
      let? found := Array_some (languageCode_is l) arr in
      if negb found then
        let? tracks := captionTracks captions in
        let? arr := as_array tracks in
        let? langs := Array_map (fun track => get track (str "languageCode")) arr in
        Err (new_NotAvailableLanguageError l langs videoId)
      else Ok tt
  | None => Ok tt
  end.

(** What comes before the request: the checks and the URL of the selected
    track (lines 203 to 230). *)
Definition transcriptURL (captions : value) (videoId : jsstring)
           (config : option TranscriptConfig) : Result value :=
  if negb (truthy captions) then Err (YoutubeTranscriptDisabledError videoId)
  else
    let? has := has_property (str "captionTracks") captions in
    if negb has then Err (YoutubeTranscriptNotAvailableError videoId)
    else
      let? _ := check_language captions videoId config in
      let? track := selectTrack captions config in
      get track (str "baseUrl").

Definition processTranscriptFromCaptions
           (captions : value) (videoId : jsstring)
           (config : option TranscriptConfig) : M (list TranscriptResponse) :=
  url <- lift (transcriptURL captions videoId config) ;;
  transcriptResponse <- fetch (track_request url config) ;;
  if negb (ok transcriptResponse)
  then throw (YoutubeTranscriptNotAvailableError videoId)
  else lift (parseTranscript captions config (body transcriptResponse)).

Definition watch_url (identifier : jsstring) : jsstring :=
  str "https://www.youtube.com/watch?v=" ++ identifier.

(** The request for the watch page (lines 96 to 104). *)
Definition watch_request (identifier : jsstring)
           (config : option TranscriptConfig) : Request :=
  {| req_method := GET;
     req_url := JStr (watch_url identifier);
     req_headers := accept_language config ++ [(str "User-Agent", USER_AGENT)];
     req_body := None |}.

Definition CAPTIONS_MARKER : jsstring := qstr "'captions':".
Definition RECAPTCHA_MARKER : jsstring := qstr "class='g-recaptcha'".
Definition PLAYABILITY_MARKER : jsstring := qstr "'playabilityStatus':".
Definition VIDEO_DETAILS_MARKER : jsstring := qstr ",'videoDetails".

(** The argument of [JSON.parse] (line 122). *)
Definition captions_fragment (splittedHTML : list jsstring) : jsstring :=
  replace_first_char 10
    (hd [] (split VIDEO_DETAILS_MARKER (nth 1 splittedHTML []))).

(** The captions read off the page (lines 119 to 127). *)
Definition scraped_captions (splittedHTML : list jsstring) : value :=
  get_opt
    match JSON_parse (captions_fragment splittedHTML) with
    | Some v => v
    | None => JUndefined
    end
    (str "playerCaptionsTracklistRenderer").

(** The failure thrown when the page has no captions marker
    (lines 110 to 116). *)
Definition classify_failure (videoPageBody videoId : jsstring) : JSError :=
  if includes RECAPTCHA_MARKER videoPageBody
  then YoutubeTranscriptTooManyRequestError
  else if negb (includes PLAYABILITY_MARKER videoPageBody)
  then YoutubeTranscriptVideoUnavailableError videoId
  else YoutubeTranscriptDisabledError videoId.

Definition fetchTranscriptWithHtmlScraping
           (videoId : jsstring) (config : option TranscriptConfig)
  : M (list TranscriptResponse) :=
  identifier <- lift (retrieveVideoId videoId) ;;
  videoPageResponse <- fetch (watch_request identifier config) ;;
  let videoPageBody := body videoPageResponse in
  let splittedHTML := split CAPTIONS_MARKER videoPageBody in
  if (List.length splittedHTML <=? 1)%nat
  then throw (classify_failure videoPageBody videoId)
  else
    let captions := scraped_captions splittedHTML in
    processedTranscript <- processTranscriptFromCaptions captions videoId config ;;
    if (List.length processedTranscript =? 0)%nat
    then throw (YoutubeTranscriptEmptyError videoId (str "HTML scraping"))
    else ret processedTranscript.

(** The object that [JSON.stringify] turns into the body of the POST. *)
Definition player_request_body (identifier : jsstring) : value :=
  JObj [(str "context",
         JObj [(str "client",
                JObj [(str "clientName", JStr (str "WEB"));
                      (str "clientVersion", JStr (str "2.20250312.04.00"));
                      (str "userAgent", JStr USER_AGENT)])]);
        (str "videoId", JStr identifier)].

(** The request to the player API (lines 152 to 175). *)
Definition player_request (identifier : jsstring)
           (config : option TranscriptConfig) : Request :=
  {| req_method := POST;
     req_url := JStr (str "https://www.youtube.com/youtubei/v1/player");
     req_headers :=
       accept_language config ++
       [(str "Content-Type", str "application/json");
        (str "Origin", str "https://www.youtube.com");
        (str "Referer", watch_url identifier)];
     req_body := Some (player_request_body identifier) |}.

Definition fetchTranscriptWithInnerTube
           (videoId : jsstring) (config : option TranscriptConfig)
  : M (list TranscriptResponse) :=
  identifier <- lift (retrieveVideoId videoId) ;;
  InnerTubeApiResponse <- fetch (player_request identifier config) ;;
  json <- match JSON_parse (body InnerTubeApiResponse) with
          | Some v => ret v
          | None => throw SyntaxError
          end ;;
  outer <- lift (get json (str "captions")) ;;
  captions <- lift (get outer (str "playerCaptionsTracklistRenderer")) ;;
  processedTranscript <- processTranscriptFromCaptions captions videoId config ;;
  if (List.length processedTranscript =? 0)%nat
  then throw (YoutubeTranscriptEmptyError videoId (str "InnerTube API"))
  else ret processedTranscript.

(** The [try] and its [catch] are the match on the outcome of the first
    strategy. *)
Definition fetchTranscript
           (videoId : jsstring) (config : option TranscriptConfig)
  : M (list TranscriptResponse) :=
  fun t log =>
    match fetchTranscriptWithHtmlScraping videoId config t log with
    | (Ok r, log') => (Ok r, log')
    | (Err e, log') =>
        if is_empty_error e
        then fetchTranscriptWithInnerTube videoId config t log'
        else (Err e, log')
    end.

(** The check that ends both strategies. *)
Definition checked (videoId method : jsstring)
           (out : Result (list TranscriptResponse) * list Request)
  : Result (list TranscriptResponse) * list Request :=
  match out with
  | (Ok r, log') =>
      if (List.length r =? 0)%nat
      then (Err (YoutubeTranscriptEmptyError videoId method), log')
      else (Ok r, log')
  | (Err e, log') => (Err e, log')
  end.

(** ** The requests of a call *)

(** Only the InnerTube strategy posts. *)
Definition is_player_request (r : Request) : bool :=
  match req_method r with
  | POST => true
  | GET => false
  end.

(** The InnerTube strategy has reached its request. *)
Definition InnerTube_attempted (log : list Request) : bool :=
  existsb is_player_request log.

(** ** Transports for examples *)

(** The n-th request of a call is answered by the n-th entry. *)
Definition scripted (answers : list FetchResult) : Transport :=
  fun log _ => nth (List.length log) answers Rejected.

Definition page (b : jsstring) : FetchResult :=
  Responded {| ok := true; body := b |}.

Definition sample_page : jsstring :=
  qstr "<html>'playabilityStatus':{},'captions':{'playerCaptionsTracklistRenderer':{'captionTracks':[{'baseUrl':'https://t/en','languageCode':'en'},{'baseUrl':'https://t/fr','languageCode':'fr'}]}},'videoDetails':{}</html>".

Definition sample_xml : jsstring :=
  qstr "<text start='1.5' dur='2.0'>Hello</text><text start='3.5' dur='1.0'>World</text>".

(** ** Timed-text documents

    The shape the pattern looks for, to state what parsing returns: an
    element with its two attribute values and its inner text, and a
    document of elements, each after a gap, with a tail. *)

Record element := {
  el_start : jsstring;
  el_dur : jsstring;
  el_text : jsstring
}.

Definition render (e : element) : jsstring :=
  XML_OPEN ++ el_start e ++ XML_DUR ++ el_dur e ++ XML_GT ++ el_text e ++ XML_END.

Definition no_quote (s : jsstring) : Prop :=
  Forall (fun x => any_but [dquote] x = true) s.

Definition no_lt (s : jsstring) : Prop :=
  Forall (fun x => any_but [60] x = true) s.

(** The attribute values hold no double quote and the text no [<]. *)
Definition element_ok (e : element) : Prop :=
  no_quote (el_start e) /\ no_quote (el_dur e) /\ no_lt (el_text e).

Fixpoint document (items : list (jsstring * element)) (tail : jsstring)
  : jsstring :=
  match items with
  | [] => tail
  | (gap, e) :: items' => gap ++ render e ++ document items' tail
  end.

Definition element_captures (e : element) : captures :=
  [(3%nat, el_text e); (2%nat, el_dur e); (1%nat, el_start e)].

Definition segment_of (l : value) (e : element) : TranscriptResponse :=
  {| text := el_text e;
     duration := parseFloat (el_dur e);
     offset := parseFloat (el_start e);
     resp_lang := l |}.

(** A well-formed element begins the text [s]. *)
Definition starts_element (s : jsstring) : Prop :=
  exists e rest, element_ok e /\ s = render e ++ rest.

(** Every element of the document is the first one to begin after the
    element before it: no well-formed element begins at a place in a gap
    or in the tail. *)
Fixpoint leftmost (items : list (jsstring * element)) (tail : jsstring)
  : Prop :=
  match items with
  | [] => forall u v, tail = u ++ v -> ~ starts_element v
  | (gap, e) :: items' =>
      (forall u v,
          gap = u ++ v -> v <> [] ->
          ~ starts_element (v ++ render e ++ document items' tail)) /\
      leftmost items' tail
  end.

(** The two elements of [sample_xml] as a timed-text resource has them,
    after the declaration and inside the enclosing element. *)
Definition wrapped_xml : jsstring :=
  qstr "<?xml version='1.0' encoding='utf-8' ?><transcript><text start='1.5' dur='2.0'>Hello</text><text start='3.5' dur='1.0'>World</text></transcript>".

(** Values that are not doubles as they are written: a decimal between
    two doubles, a whole number above [2^53] that is half way between two
    doubles, a number with white space before it and text after it, and
    one beyond the largest double. *)
Definition rounded_xml : jsstring :=
  qstr "<text start='0.1' dur='9007199254740993'>a</text>" ++ [10] ++
  qstr "<text start=' 12.5e1x' dur='1e400'>b</text>".

Definition rounded_segments (l : value) : list TranscriptResponse :=
  [ {| text := str "a"; duration := Dec false 9007199254740992 0;
       offset :=
         Dec false 1000000000000000055511151231257827021181583404541015625
           (-55);
       resp_lang := l |};
    {| text := str "b"; duration := Infinity false;
       offset := Dec false 125 0; resp_lang := l |} ].

(** The parsed response of the player API has no [captions] member, or
    is no object at all. *)
Definition lacks_captions (json : value) : Prop :=
  match json with
  | JObj m => own_property m (str "captions") = None
  | _ => True
  end.

(** The failures that the classification of a page without captions
    marker does not share with the processor. *)
Definition page_only_error (e : JSError) : bool :=
  match e with
  | YoutubeTranscriptTooManyRequestError
  | YoutubeTranscriptVideoUnavailableError _ => true
  | _ => false
  end.

Definition sample_id : jsstring := str "dQw4w9WgXcQ".

Definition captcha_page : jsstring :=
  qstr "<html><div class='g-recaptcha'></div></html>".

Definition sample_segments (l : value) : list TranscriptResponse :=
  [ {| text := str "Hello"; duration := Dec false 2 0;
       offset := Dec false 15 (-1); resp_lang := l |};
    {| text := str "World"; duration := Dec false 1 0;
       offset := Dec false 35 (-1); resp_lang := l |} ].

(** The page lists captions, the track is empty, and the player API
    answers with an object without captions. *)
Definition untyped_failure_transport : Transport :=
  scripted [page sample_page; page []; page (qstr "{'playabilityStatus':{}}")].

(** The segment made of a match (lines 243 to 248). *)
Definition segment_of_match (l : value) (result : captures) : TranscriptResponse :=
  {| text := group 3 result;
     duration := parseFloat (group 2 result);
     offset := parseFloat (group 1 result);
     resp_lang := l |}.

(** Captions with a single English track. *)
Definition one_track_captions : value :=
  JObj [(str "captionTracks",
         JArr [JObj [(str "baseUrl", JStr (str "https://t/en"));
                     (str "languageCode", JStr (str "en"))]])].

(** An element whose [start] is empty and whose [dur] is not a number. *)
Definition malformed_element : element :=
  {| el_start := []; el_dur := str "abc"; el_text := str "x" |}.

(** [a] occurs in [b]. *)
Definition is_infix (a b : jsstring) : Prop :=
  exists p s, b = p ++ a ++ s.

(** [track.languageCode] of a track that is an object. *)
Definition languageCode_of (track : value) : value :=
  get_opt track (str "languageCode").

(** The captions of [sample_page]: an English and a French track. *)
Definition sample_tracks : list value :=
  [JObj [(str "baseUrl", JStr (str "https://t/en"));
         (str "languageCode", JStr (str "en"))];
   JObj [(str "baseUrl", JStr (str "https://t/fr"));
         (str "languageCode", JStr (str "fr"))]].

Definition two_track_captions : value :=
  JObj [(str "captionTracks", JArr sample_tracks)].

(** The configuration [{ lang: '' }]. *)
Definition empty_lang_config : option TranscriptConfig :=
  Some {| lang := Some [] |}.

(** A track whose language code is an object with a member [toString],
    as [JSON.parse] can build it. *)
Definition toString_tracks : list value :=
  [JObj [(str "baseUrl", JStr (str "https://t/en"));
         (str "languageCode", JObj [(str "toString", JNull)])]].

Definition toString_captions : value :=
  JObj [(str "captionTracks", JArr toString_tracks)].

(** ** The fragment as the specification words it

    Following the specification: all newline characters of the fragment
    are stripped before it is parsed. *)
Definition strip_newlines (s : jsstring) : jsstring :=
  filter (fun c => negb (c =? 10)) s.

Definition captions_fragment_spec (splittedHTML : list jsstring) : jsstring :=
  strip_newlines (hd [] (split VIDEO_DETAILS_MARKER (nth 1 splittedHTML []))).

(** A page whose captions blob has two line feeds, the second one inside
    a string. *)
Definition newline_page : jsstring :=
  qstr "<html>'playabilityStatus':{},'captions':{'playerCaptionsTracklistRenderer':"
  ++ [10] ++
  qstr "{'captionTracks':[{'baseUrl':'https://t/en"
  ++ [10] ++
  qstr "','languageCode':'en'}]}},'videoDetails':{}</html>".

(** ** The URL shapes

    What precedes the identifier in the forms the pattern is written
    for: the watch page, the short host, the embedded player, shorts, the
    old [/v/] form, and [v] as a later query parameter. *)
Definition URL_SHAPES : list jsstring :=
  [ str "https://www.youtube.com/watch?v=";
    str "https://youtu.be/";
    str "https://www.youtube.com/embed/";
    str "https://www.youtube.com/shorts/";
    str "https://www.youtube.com/v/";
    str "https://www.youtube.com/watch?feature=share&v=" ].

(** Eleven identifier characters. *)
Definition id_ok (id : jsstring) : Prop :=
  List.length id = 11%nat /\ Forall (fun x => id_char x = true) id.

(** The host before the identifier, in any letter case: the long one,
    followed by a path, or the short one, followed by the identifier. *)
Definition host_shape (host mid : jsstring) : Prop :=
  map ascii_upper host = map ascii_upper HOST_LONG \/
  (map ascii_upper host = map ascii_upper HOST_SHORT /\ mid = []).

Definition resolution_error : JSError :=
  YoutubeTranscriptError (str "Impossible to retrieve Youtube video ID.").

(** ** The language of a pattern

    The texts that a pattern describes, whatever the order in which the
    matcher tries them. *)
Inductive denotes : regex -> jsstring -> Prop :=
| den_Eps : denotes Eps []
| den_Chr p x : p x = true -> denotes (Chr p) [x]
| den_Seq r1 r2 w1 w2 :
    denotes r1 w1 -> denotes r2 w2 -> denotes (Seq r1 r2) (w1 ++ w2)
| den_Alt_l r1 r2 w : denotes r1 w -> denotes (Alt r1 r2) w
| den_Alt_r r1 r2 w : denotes r2 w -> denotes (Alt r1 r2) w
| den_Star_nil r : denotes (Star r) []
| den_Star_cons r w1 w2 :
    denotes r w1 -> w1 <> [] -> denotes (Star r) w2 -> denotes (Star r) (w1 ++ w2)
| den_Group i r w : denotes r w -> denotes (Group i r) w.

(** ** The URL shapes in terms of the text

    What the identifier pattern looks for, said without the pattern:
    the texts that can stand before an identifier. *)

(** [a] is [b] up to the case of its ASCII letters. *)
Definition same_letters (a b : jsstring) : Prop :=
  map ascii_upper a = map ascii_upper b.

Definition no_slash (s : jsstring) : Prop :=
  Forall (fun x => any_but [47] x = true) s.

(** No line terminator. *)
Definition one_line (s : jsstring) : Prop :=
  Forall (fun x => dot x = true) s.

(** The words [v], [e], [embed] and [shorts], in any letter case. *)
Definition keyword (kw : jsstring) : Prop :=
  same_letters kw (str "v") \/ same_letters kw (str "e") \/
  same_letters kw (str "embed") \/ same_letters kw (str "shorts").

(** What stands between the long host and the identifier: a first path
    segment, a slash, more text on the line and a slash; or a keyword and
    a slash; or text on the line, a query mark and [v=]. *)
Inductive path_shape : jsstring -> Prop :=
| path_nested seg mid :
    seg <> [] -> no_slash seg -> mid <> [] -> one_line mid ->
    path_shape (seg ++ [47] ++ mid ++ [47])
| path_keyword kw :
    keyword kw -> path_shape (kw ++ [47])
| path_query pre mark v :
    one_line pre -> is_query_mark mark = true -> same_letters v (str "v=") ->
    path_shape (pre ++ mark :: v).

(** What stands before the identifier, from the host on. *)
Inductive url_shape : jsstring -> Prop :=
| url_short host : same_letters host HOST_SHORT -> url_shape host
| url_long host path :
    same_letters host HOST_LONG -> path_shape path -> url_shape (host ++ path).

(** A URL shape followed by an identifier begins the text [s]. *)
Definition begins_shape (s : jsstring) : Prop :=
  exists lead id post, s = lead ++ id ++ post /\ url_shape lead /\ id_ok id.

(** The identifier [id] follows a URL shape in [s], at the first place
    of [s] where a URL shape followed by an identifier begins. *)
Definition embedded (s id : jsstring) : Prop :=
  exists pre lead post,
    s = pre ++ lead ++ id ++ post /\ url_shape lead /\ id_ok id /\
    forall u v, pre = u ++ v -> v <> [] ->
                ~ begins_shape (v ++ lead ++ id ++ post).

(** The address of a channel: the long host and a path that is none of
    the shapes. *)
Definition channel_url : jsstring :=
  str "https://www.youtube.com/@SomeChannelName".

(** ** The requests and the errors of a call, for the statements below *)

(** No request, or one request for a timed-text resource. *)
Definition at_most_one_track (config : option TranscriptConfig)
           (l : list Request) : Prop :=
  l = [] \/ exists url, l = [track_request url config].

(** The value of a header of a request. *)
Fixpoint header (name : jsstring) (hs : list (jsstring * jsstring))
  : option jsstring :=
  match hs with
  | [] => None
  | (n, v) :: hs' => if jseqb n name then Some v else header name hs'
  end.

(** What an error of a strategy can be: the classes that take the video
    identifier carry the caller's input, the language error carries the
    requested language, the empty-transcript error names the strategy. *)
Definition error_of_strategy (videoId : jsstring)
           (config : option TranscriptConfig) (method : jsstring)
           (e : JSError) : Prop :=
  match e with
  | YoutubeTranscriptError _ => e = resolution_error
  | YoutubeTranscriptTooManyRequestError => True
  | YoutubeTranscriptVideoUnavailableError v
  | YoutubeTranscriptDisabledError v
  | YoutubeTranscriptNotAvailableError v => v = videoId
  | YoutubeTranscriptNotAvailableLanguageError l _ v =>
      v = videoId /\ truthy_lang config = Some l
  | YoutubeTranscriptEmptyError v m => v = videoId /\ m = method
  | TypeError | SyntaxError | FetchError => True
  end.

(** The transport [t] with another status on the answer to the request
    made after [n] earlier ones and on the answers to the POSTs. *)
Definition set_status (b : bool) (n : nat) (t : Transport) : Transport :=
  fun l r =>
    match t l r with
    | Rejected => Rejected
    | Responded x =>
        if (List.length l =? n)%nat || is_player_request r
        then Responded {| ok := b; body := body x |}
        else Responded x
    end.

(** The page lists captions and both timed-text answers are empty. *)
Definition both_empty_transport : Transport :=
  scripted [page sample_page; page [];
            page (qstr "{'captions':{'playerCaptionsTracklistRenderer':{'captionTracks':[{'baseUrl':'https://t/en','languageCode':'en'}]}}}");
            page []].

(** A fragment that gives no captions: it does not parse, or what it
    parses to has no truthy [playerCaptionsTracklistRenderer]. *)
Definition unusable_fragment (fragment : jsstring) : Prop :=
  match JSON_parse fragment with
  | None => True
  | Some v => truthy (get_opt v (str "playerCaptionsTracklistRenderer")) = false
  end.

(** [s] holds a query mark followed by [v=], in any letter case: a place
    where the query form of the pattern can resume. *)
Fixpoint has_v_param (s : jsstring) : bool :=
  match s with
  | [] => false
  | x :: s' =>
      (is_query_mark x &&
       match s' with
       | y :: z :: _ => is_char_i 118 y && is_char_i 61 z
       | _ => false
       end)
      || has_v_param s'
  end.

(** No letter y, in either case: the pattern cannot start there. *)
Definition no_y (s : jsstring) : Prop :=
  Forall (fun x => is_char_i 121 x = false) s.

(** * Facts about the strings *)

Lemma jseqb_refl (s : jsstring) : jseqb s s = true.
Proof.
  induction s as [|x s IH]; simpl; [reflexivity|].
  now rewrite N.eqb_refl.
Qed.

Lemma jseqb_eq (a b : jsstring) : jseqb a b = true <-> a = b.
Proof.
  split; [|intros ->; apply jseqb_refl].
  revert b; induction a as [|x a IH]; intros [|y b]; simpl; try discriminate;
    [reflexivity|].
  intros H; apply andb_true_iff in H; destruct H as [Hx Hr].
  apply N.eqb_eq in Hx; subst; f_equal; auto.
Qed.

Lemma starts_with_app (p s : jsstring) : starts_with p (p ++ s) = true.
Proof.
  induction p as [|x p IH]; simpl; [reflexivity|].
  now rewrite N.eqb_refl.
Qed.

Lemma split_go_nonempty (sep cur s : jsstring) (skip : nat) :
  split_go sep skip cur s <> [].
Proof.
  revert skip cur; induction s as [|c s IH]; intros skip cur; simpl.
  - discriminate.
  - destruct skip; [|apply IH].
    destruct (starts_with sep (c :: s)); [discriminate|apply IH].
Qed.

Lemma split_go_absent (sep cur s : jsstring) :
  includes sep s = false -> split_go sep 0 cur s = [rev cur ++ s].
Proof.
  revert cur; induction s as [|c s IH]; intros cur H.
  - simpl. now rewrite app_nil_r.
  - simpl in H. apply orb_false_iff in H; destruct H as [H1 H2].
    cbn [split_go]. rewrite H1, (IH (c :: cur) H2).
    simpl. now rewrite <- app_assoc.
Qed.

Lemma split_go_present (sep cur s : jsstring) :
  sep <> [] ->
  includes sep s = true -> (2 <= List.length (split_go sep 0 cur s))%nat.
Proof.
  intros Hsep; revert cur; induction s as [|c s IH]; intros cur H.
  - simpl in H. rewrite orb_false_r in H.
    destruct sep; [congruence|simpl in H; discriminate].
  - cbn [split_go]. destruct (starts_with sep (c :: s)) eqn:E.
    + pose proof (split_go_nonempty sep [] s (List.length sep - 1)) as Hn.
      destruct (split_go sep (List.length sep - 1) [] s); [congruence|].
      simpl; lia.
    + simpl in H. rewrite E in H. apply IH, H.
Qed.

(** The split has one part exactly when the separator does not occur. *)
Lemma split_one_part (sep s : jsstring) :
  sep <> [] ->
  (List.length (split sep s) <=? 1)%nat = negb (includes sep s).
Proof.
  intros Hsep. unfold split. destruct (includes sep s) eqn:E; simpl.
  - apply Nat.leb_gt. pose proof (split_go_present sep [] s Hsep E). lia.
  - now rewrite (split_go_absent sep [] s E).
Qed.

Lemma is_infix_app_l a b p : is_infix a b -> is_infix a (p ++ b).
Proof.
  intros (p0 & s0 & ->). exists (p ++ p0), s0. now rewrite <- app_assoc.
Qed.

Lemma is_infix_app_r a b s : is_infix a b -> is_infix a (b ++ s).
Proof.
  intros (p0 & s0 & ->). exists p0, (s0 ++ s). now rewrite <- !app_assoc.
Qed.

Lemma is_infix_refl a : is_infix a a.
Proof. exists [], []. simpl. now rewrite app_nil_r. Qed.

Lemma join_infix sep x xs : In x xs -> is_infix x (join sep xs).
Proof.
  induction xs as [|y xs IH]; intros Hin; [destruct Hin|].
  destruct xs as [|z xs].
  - destruct Hin as [->|[]]. apply is_infix_refl.
  - cbn [join]. destruct Hin as [->|Hin].
    + apply is_infix_app_r, is_infix_refl.
    + apply is_infix_app_l, is_infix_app_l, IH, Hin.
Qed.

(** * Facts about the numbers *)

Local Open Scope Z_scope.

Lemma pow2_pos k : 0 < 2 ^ k \/ (k < 0 /\ 2 ^ k = 0).
Proof.
  destruct (Z.le_gt_cases 0 k) as [H|H].
  - left. now apply Z.pow_pos_nonneg.
  - right. split; [exact H|]. now apply Z.pow_neg_r.
Qed.

Lemma pow2_le a b : 0 <= a <= b -> 2 ^ a <= 2 ^ b.
Proof. intros H. apply Z.pow_le_mono_r; lia. Qed.

Lemma ilog2_upper P q :
  0 < P -> 0 < q -> P < q * 2 ^ (spacing P q + 53).
Proof.
  intros HP Hq. unfold spacing, ilog2.
  pose proof (Z.log2_spec P HP) as [HP1 HP2].
  pose proof (Z.log2_spec q Hq) as [Hq1 Hq2].
  pose proof (Z.log2_nonneg P) as HlP. pose proof (Z.log2_nonneg q) as Hlq.
  set (lp := Z.log2 P) in *. set (lq := Z.log2 q) in *.
  destruct (q * 2 ^ (lp - lq) <=? P) eqn:T.
  - set (E := Z.max (lp - lq - 52) 0 + 53).
    assert (HE : lp + 1 <= lq + E) by (unfold E; lia).
    assert (H1 : 2 ^ (lp + 1) <= 2 ^ (lq + E)) by (apply pow2_le; lia).
    assert (H4 : 2 ^ (lq + E) = 2 ^ lq * 2 ^ E)
      by (apply Z.pow_add_r; unfold E; lia).
    assert (H2 : 0 < 2 ^ E) by (apply Z.pow_pos_nonneg; unfold E; lia).
    replace (Z.succ lp) with (lp + 1) in HP2 by lia.
    assert (H3 : 2 ^ lq * 2 ^ E <= q * 2 ^ E)
      by (apply Z.mul_le_mono_nonneg_r; lia).
    lia.
  - apply Z.leb_gt in T.
    destruct (pow2_pos (lp - lq)) as [H0|[H0 H1]]; [|rewrite H1 in T; lia].
    set (E := Z.max (lp - lq - 1 - 52) 0 + 53).
    assert (Hl : 0 <= lp - lq).
    { destruct (Z.le_gt_cases 0 (lp - lq)); [assumption|].
      rewrite Z.pow_neg_r in H0 by lia. lia. }
    assert (H2 : 2 ^ (lp - lq) <= 2 ^ E) by (apply pow2_le; unfold E; lia).
    assert (H3 : q * 2 ^ (lp - lq) <= q * 2 ^ E)
      by (apply Z.mul_le_mono_nonneg_l; lia).
    lia.
Qed.

Lemma ilog2_lower P q :
  0 < P -> 0 < q -> 0 < spacing P q -> q * 2 ^ (spacing P q + 52) <= P.
Proof.
  intros HP Hq. unfold spacing, ilog2.
  pose proof (Z.log2_spec P HP) as [HP1 HP2].
  pose proof (Z.log2_spec q Hq) as [Hq1 Hq2].
  pose proof (Z.log2_nonneg P) as HlP. pose proof (Z.log2_nonneg q) as Hlq.
  set (lp := Z.log2 P) in *. set (lq := Z.log2 q) in *.
  destruct (q * 2 ^ (lp - lq) <=? P) eqn:T; intros Hk.
  - apply Z.leb_le in T.
    replace (Z.max (lp - lq - 52) 0 + 52) with (lp - lq) by lia. exact T.
  - replace (Z.max (lp - lq - 1 - 52) 0 + 52) with (lp - lq - 1) by lia.
    replace (Z.succ lq) with (lq + 1) in Hq2 by lia.
    assert (H1 : 2 ^ (lq + 1) * 2 ^ (lp - lq - 1) = 2 ^ lp).
    { rewrite <- Z.pow_add_r by lia. f_equal. lia. }
    assert (H2 : 0 < 2 ^ (lp - lq - 1)) by (apply Z.pow_pos_nonneg; lia).
    assert (H3 : q * 2 ^ (lp - lq - 1) <= 2 ^ (lq + 1) * 2 ^ (lp - lq - 1))
      by (apply Z.mul_le_mono_nonneg_r; lia).
    lia.
Qed.

Lemma round_half_even_spec a b :
  0 < b ->
  let n := round_half_even a b in
  2 * Z.abs (a - n * b) <= b /\
  (2 * Z.abs (a - n * b) = b -> Z.even n = true) /\
  a / b <= n <= a / b + 1.
Proof.
  intros Hb. cbv zeta. unfold round_half_even.
  pose proof (Z.div_mod a b ltac:(lia)) as Hd.
  pose proof (Z.mod_pos_bound a b Hb) as Hm.
  set (d := a / b) in *. set (r := a mod b) in *.
  destruct (Z.compare_spec (2 * r) b) as [E|E|E].
  - destruct (Z.even d) eqn:Ev.
    + split; [lia|]. split; [auto|lia].
    + split; [lia|]. split; [|lia]. intros _.
      rewrite Z.even_add, Ev. reflexivity.
  - split; [lia|]. split; [lia|lia].
  - split; [lia|]. split; [lia|lia].
Qed.

Lemma nearest_integer a b n j :
  0 < b -> 2 * Z.abs (a - n * b) <= b ->
  Z.abs (a - n * b) <= Z.abs (a - j * b).
Proof.
  intros Hb Hn. destruct (Z.eq_dec j n) as [->|Hj]; [lia|].
  assert (H : b <= Z.abs (n * b - j * b)).
  { replace (n * b - j * b) with ((n - j) * b) by ring.
    rewrite Z.abs_mul. rewrite (Z.abs_eq b) by lia.
    assert (1 <= Z.abs (n - j)) by lia. nia. }
  lia.
Qed.

Section Nearest.
Variables (p q : Z).
Hypothesis Hp : 0 < p.
Hypothesis Hq : 0 < q.

Lemma steps_pos : 0 < in_steps p.
Proof.
  unfold in_steps. assert (0 < 2 ^ 1074) by now apply Z.pow_pos_nonneg. nia.
Qed.

Lemma spacing_nonneg P : 0 <= spacing P q.
Proof. unfold spacing. lia. Qed.

Lemma divisor_pos : 0 < q * 2 ^ spacing (in_steps p) q.
Proof.
  assert (0 < 2 ^ spacing (in_steps p) q)
    by (apply Z.pow_pos_nonneg; [lia|apply spacing_nonneg]).
  nia.
Qed.

Lemma below_53_bits : in_steps p < q * 2 ^ spacing (in_steps p) q * 2 ^ 53.
Proof.
  pose proof (ilog2_upper (in_steps p) q steps_pos Hq) as H.
  rewrite <- Z.mul_assoc, <- Z.pow_add_r;
    [exact H|apply spacing_nonneg|lia].
Qed.

Lemma normal_52_bits :
  0 < spacing (in_steps p) q ->
  q * 2 ^ spacing (in_steps p) q * 2 ^ 52 <= in_steps p.
Proof.
  intros Hk. pose proof (ilog2_lower (in_steps p) q steps_pos Hq Hk) as H.
  rewrite <- Z.mul_assoc, <- Z.pow_add_r; [exact H|lia|lia].
Qed.

Lemma significand_range :
  0 <= significand p q <= 2 ^ 53 /\
  (0 < spacing (in_steps p) q -> 2 ^ 52 <= significand p q).
Proof.
  pose proof divisor_pos as HB. pose proof steps_pos as HP.
  destruct (round_half_even_spec (in_steps p) _ HB) as (_ & _ & Hn).
  fold (significand p q) in Hn.
  pose proof below_53_bits as H53.
  set (B := q * 2 ^ spacing (in_steps p) q) in *.
  assert (H0 : 0 <= in_steps p / B) by (apply Z.div_pos; lia).
  assert (H1 : in_steps p / B < 2 ^ 53) by (apply Z.div_lt_upper_bound; lia).
  split; [lia|]. intros Hk. pose proof (normal_52_bits Hk) as H52.
  fold B in H52.
  assert (2 ^ 52 <= in_steps p / B) by (apply Z.div_le_lower_bound; lia). lia.
Qed.

Lemma nearest_error :
  2 * Z.abs (in_steps p - significand p q * (q * 2 ^ spacing (in_steps p) q))
  <= q * 2 ^ spacing (in_steps p) q.
Proof.
  now destruct (round_half_even_spec (in_steps p) _ divisor_pos) as (H & _ & _).
Qed.

(** A double that is no multiple of the spacing is below [2^52]
    multiples of it, which [P / q] is not. *)
Lemma finer_double_far n' k' :
  0 <= n' < 2 ^ 53 -> 0 <= k' < spacing (in_steps p) q ->
  n' * 2 ^ k' * q < 2 ^ 52 * (q * 2 ^ spacing (in_steps p) q) /\
  2 ^ 52 * (q * 2 ^ spacing (in_steps p) q) <= in_steps p.
Proof.
  intros Hn' Hk'. split; [|rewrite Z.mul_comm; apply normal_52_bits; lia].
  set (k := spacing (in_steps p) q) in *.
  assert (E : 2 ^ k = 2 ^ (k - k') * 2 ^ k').
  { rewrite <- Z.pow_add_r by lia. f_equal. lia. }
  assert (H2 : 2 <= 2 ^ (k - k')).
  { change 2 with (2 ^ 1) at 1. apply pow2_le. lia. }
  assert (H3 : 0 < 2 ^ k') by (apply Z.pow_pos_nonneg; lia).
  rewrite E. change (2 ^ 53) with (2 * 2 ^ 52) in Hn'.
  assert (H4 : 0 < 2 ^ k' * q) by nia.
  replace (n' * 2 ^ k' * q) with (n' * (2 ^ k' * q)) by ring.
  replace (2 ^ 52 * (q * (2 ^ (k - k') * 2 ^ k')))
    with ((2 ^ 52 * 2 ^ (k - k')) * (2 ^ k' * q)) by ring.
  apply Z.mul_lt_mono_pos_r; [exact H4|]. nia.
Qed.

Lemma coarser_double_multiple n' k' :
  spacing (in_steps p) q <= k' ->
  n' * 2 ^ k' * q
  = (n' * 2 ^ (k' - spacing (in_steps p) q)) * (q * 2 ^ spacing (in_steps p) q).
Proof.
  intros Hk. set (k := spacing (in_steps p) q) in *.
  assert (E : 2 ^ k' = 2 ^ (k' - k) * 2 ^ k).
  { rewrite <- Z.pow_add_r; [f_equal; lia|lia|apply spacing_nonneg]. }
  rewrite E. ring.
Qed.

Lemma nearest_of_doubles V' :
  double_steps V' ->
  Z.abs (significand p q * 2 ^ spacing (in_steps p) q * q - in_steps p)
  <= Z.abs (V' * q - in_steps p).
Proof.
  intros (n' & k' & -> & Hn' & Hk').
  pose proof nearest_error as He. pose proof divisor_pos as HB.
  pose proof (finer_double_far n' k' Hn') as Hfar.
  pose proof (coarser_double_multiple n' k') as Hco.
  set (n := significand p q) in *. set (k := spacing (in_steps p) q) in *.
  replace (n * 2 ^ k * q) with (n * (q * 2 ^ k)) by ring.
  set (B := q * 2 ^ k) in *.
  destruct (Z.le_gt_cases k k') as [Hle|Hgt].
  - rewrite (Hco Hle).
    pose proof (nearest_integer (in_steps p) B n (n' * 2 ^ (k' - k)) HB He). lia.
  - destruct Hfar as [H1 H2]; [lia|].
    pose proof (nearest_integer (in_steps p) B n (2 ^ 52) HB He). lia.
Qed.

Lemma ties_to_even V' :
  double_steps V' ->
  V' <> significand p q * 2 ^ spacing (in_steps p) q ->
  Z.abs (V' * q - in_steps p)
  = Z.abs (significand p q * 2 ^ spacing (in_steps p) q * q - in_steps p) ->
  Z.even (significand p q) = true.
Proof.
  intros (n' & k' & -> & Hn' & Hk') Hne.
  pose proof nearest_error as He. pose proof divisor_pos as HB.
  destruct (round_half_even_spec (in_steps p) _ HB) as (_ & Hev & _).
  fold (significand p q) in Hev.
  pose proof (finer_double_far n' k' Hn') as Hfar.
  pose proof (coarser_double_multiple n' k') as Hco.
  pose proof (spacing_nonneg (in_steps p)) as Hk0.
  set (n := significand p q) in *. set (k := spacing (in_steps p) q) in *.
  replace (n * 2 ^ k * q) with (n * (q * 2 ^ k)) by ring.
  set (B := q * 2 ^ k) in *.
  destruct (Z.le_gt_cases k k') as [Hle|Hgt].
  - rewrite (Hco Hle). intros E. apply Hev.
    remember (n' * 2 ^ (k' - k)) as j eqn:Ej.
    assert (Hj : j <> n).
    { intros Hjn. apply Hne. rewrite <- Hjn, Ej.
      assert (E2 : 2 ^ k' = 2 ^ (k' - k) * 2 ^ k).
      { rewrite <- Z.pow_add_r; [f_equal; lia|lia|lia]. }
      rewrite E2. ring. }
    assert (H : B <= Z.abs (n * B - j * B)).
    { replace (n * B - j * B) with ((n - j) * B) by ring.
      rewrite Z.abs_mul, (Z.abs_eq B) by lia.
      assert (1 <= Z.abs (n - j)) by lia. nia. }
    lia.
  - destruct Hfar as [H1 H2]; [lia|].
    pose proof (nearest_integer (in_steps p) B n (2 ^ 52) HB He). lia.
Qed.

Lemma result_is_double :
  significand p q * 2 ^ spacing (in_steps p) q < 2 ^ 2098 ->
  double_steps (significand p q * 2 ^ spacing (in_steps p) q).
Proof.
  intros Hlt. destruct significand_range as [Hn Hnorm].
  pose proof (spacing_nonneg (in_steps p)) as Hk.
  set (n := significand p q) in *. set (k := spacing (in_steps p) q) in *.
  assert (Hpk : 0 < 2 ^ k) by (apply Z.pow_pos_nonneg; lia).
  destruct (Z.eq_dec n (2 ^ 53)) as [E|E].
  - exists (2 ^ 52), (k + 1). rewrite E. split.
    + rewrite Z.pow_add_r by lia. change (2 ^ 53) with (2 ^ 52 * 2 ^ 1). ring.
    + split; [lia|]. split; [lia|].
      rewrite E in Hlt. change (2 ^ 2098) with (2 ^ 53 * 2 ^ 2045) in Hlt.
      assert (H : 2 ^ k < 2 ^ 2045) by nia.
      apply Z.pow_lt_mono_r_iff in H; lia.
  - exists n, k. split; [reflexivity|]. split; [lia|]. split; [lia|].
    destruct (Z.le_gt_cases k 2045) as [H|H]; [exact H|exfalso].
    assert (H52 : 2 ^ 52 <= n) by (apply Hnorm; lia).
    assert (H2 : 2 ^ 2046 <= 2 ^ k) by (apply pow2_le; lia).
    change (2 ^ 2098) with (2 ^ 52 * 2 ^ 2046) in Hlt. nia.
Qed.

(** The nearest multiple reaches [2^1024] exactly when [p / q] is at
    least half way between the largest double and [2^1024]. *)
Lemma overflow_threshold :
  2 ^ 2098 <= significand p q * 2 ^ spacing (in_steps p) q <->
  (2 ^ 2098 - 2 ^ 2044) * q <= in_steps p.
Proof.
  destruct significand_range as [Hn Hnorm].
  pose proof (spacing_nonneg (in_steps p)) as Hk. pose proof divisor_pos as HB.
  pose proof nearest_error as He. pose proof below_53_bits as H53.
  pose proof normal_52_bits as H52.
  destruct (round_half_even_spec (in_steps p) _ HB) as (_ & Hev & _).
  fold (significand p q) in Hev.
  set (n := significand p q) in *. set (k := spacing (in_steps p) q) in *.
  set (P := in_steps p) in *.
  assert (Hlow : k <= 2044 -> 2 ^ k <= 2 ^ 2044) by (intros; apply pow2_le; lia).
  assert (Hhigh : 2046 <= k -> 2 ^ 2046 <= 2 ^ k)
    by (intros; apply pow2_le; lia).
  assert (Hmid : k = 2045 -> 2 ^ k = 2 ^ 2045) by (now intros ->).
  assert (HK : 0 < 2 ^ k) by (apply Z.pow_pos_nonneg; lia).
  clearbody n P.
  change (2 ^ 2098) with (2 ^ 54 * 2 ^ 2044).
  change (2 ^ 2046) with (4 * 2 ^ 2044) in Hhigh.
  change (2 ^ 2045) with (2 * 2 ^ 2044) in Hmid.
  assert (HT : 0 < 2 ^ 2044) by reflexivity.
  set (T := 2 ^ 2044) in *. clearbody T.
  set (K := 2 ^ k) in *. clearbody K.
  assert (Hu : 0 < q * T) by nia.
  change (2 ^ 53) with 9007199254740992 in *.
  change (2 ^ 52) with 4503599627370496 in *.
  change (2 ^ 54) with 18014398509481984 in *.
  destruct (Z.le_gt_cases k 2044) as [C1|C1];
    [|destruct (Z.eq_dec k 2045) as [C2|C2]].
  - specialize (Hlow C1).
    assert (H1 : n * K <= 9007199254740992 * T)
      by (apply Z.mul_le_mono_nonneg; lia).
    assert (H2 : q * K * 9007199254740992 <= q * T * 9007199254740992).
    { apply Z.mul_le_mono_nonneg_r; [lia|].
      apply Z.mul_le_mono_nonneg_l; lia. }
    split; intros H; exfalso; nia.
  - specialize (Hmid C2). rewrite Hmid in *. split; intros H.
    + assert (En : n = 9007199254740992) by nia. subst n. nia.
    + assert (Hn1 : 9007199254740991 <= n) by nia.
      destruct (Z.eq_dec n 9007199254740991) as [En|En].
      * assert (Hodd : Z.even n = true) by (apply Hev; nia).
        rewrite En in Hodd. discriminate Hodd.
      * nia.
  - assert (C3 : 2046 <= k) by lia. specialize (Hhigh C3).
    specialize (Hnorm ltac:(lia)). specialize (H52 ltac:(lia)).
    split; intros H.
    + assert (H3 : q * (4 * T) * 4503599627370496 <= q * K * 4503599627370496).
      { apply Z.mul_le_mono_nonneg_r; [lia|].
        apply Z.mul_le_mono_nonneg_l; lia. }
      nia.
    + assert (H3 : 4503599627370496 * (4 * T) <= n * K)
        by (apply Z.mul_le_mono_nonneg; lia).
      lia.
Qed.
End Nearest.

Lemma strip_zeros_exact fuel : forall m e m' e',
  strip_zeros fuel m e = (m', e') -> e <= e' /\ m = m' * 10 ^ (e' - e).
Proof.
  induction fuel as [|fuel IH]; intros m e m' e'; cbn [strip_zeros].
  - intros H; inversion H; subst. split; [lia|].
    rewrite Z.sub_diag. change (10 ^ 0) with 1. lia.
  - destruct (m mod 10 =? 0) eqn:E.
    + intros H. apply IH in H. destruct H as [H1 H2]. split; [lia|].
      apply Z.eqb_eq in E.
      pose proof (Z.div_mod m 10 ltac:(lia)) as Hd. rewrite E in Hd.
      replace (e' - e) with (1 + (e' - (e + 1))) by lia.
      rewrite Z.pow_add_r by lia. change (10 ^ 1) with 10.
      rewrite Hd at 1. rewrite H2 at 1. ring.
    + intros H; inversion H; subst. split; [lia|].
      rewrite Z.sub_diag. change (10 ^ 0) with 1. lia.
Qed.

Lemma strip_zeros_canonical fuel : forall m e m' e',
  0 < m -> Z.log2 m <= Z.of_nat fuel ->
  strip_zeros fuel m e = (m', e') -> 0 < m' /\ m' mod 10 <> 0.
Proof.
  induction fuel as [|fuel IH]; intros m e m' e' Hm Hl; cbn [strip_zeros].
  - intros H; inversion H; subst. split; [exact Hm|].
    assert (m' = 1).
    { pose proof (Z.log2_nonneg m') as H0.
      assert (E : Z.log2 m' = 0) by lia.
      pose proof (Z.log2_spec m' Hm) as [_ H1]. rewrite E in H1.
      change (2 ^ Z.succ 0) with 2 in H1. lia. }
    subst. discriminate.
  - destruct (m mod 10 =? 0) eqn:E.
    + apply Z.eqb_eq in E.
      pose proof (Z.div_mod m 10 ltac:(lia)) as Hd. rewrite E in Hd.
      apply IH; [lia|].
      assert (H2 : m / 10 <= m / 2).
      { apply Z.div_le_lower_bound; [lia|]. lia. }
      assert (H3 : Z.log2 (m / 10) <= Z.log2 (m / 2))
        by (apply Z.log2_le_mono; exact H2).
      assert (H4 : Z.log2 (m / 2) = Z.log2 m - 1).
      { rewrite <- Z.div2_div, Z.div2_spec, Z.log2_shiftr by lia.
        assert (1 <= Z.log2 m).
        { apply Z.log2_le_pow2; [lia|]. change (2 ^ 1) with 2. lia. }
        lia. }
      lia.
    + intros H; inversion H; subst. apply Z.eqb_neq in E. auto.
Qed.

Lemma decimal_of_binary_exact neg n x :
  0 <= n ->
  exists m e,
    decimal_of_binary neg n x = Dec neg m e /\
    canonical m e /\ same_value m e n x.
Proof.
  intros Hn. unfold decimal_of_binary, same_value, canonical.
  destruct (n =? 0) eqn:E0.
  - apply Z.eqb_eq in E0. subst n. exists 0%N, 0. split; [reflexivity|].
    split; [now left|]. destruct (0 <=? x) eqn:Ex.
    + apply Z.leb_le in Ex. split; [lia|]. cbn. lia.
    + apply Z.leb_gt in Ex. split; [lia|]. cbn. lia.
  - apply Z.eqb_neq in E0. destruct (0 <=? x) eqn:Ex.
    + apply Z.leb_le in Ex.
      assert (Hm : 0 < n * 2 ^ x).
      { assert (0 < 2 ^ x) by (apply Z.pow_pos_nonneg; lia). nia. }
      assert (Hfuel : Z.log2 (n * 2 ^ x)
                      <= Z.of_nat (Z.to_nat (Z.log2 (n * 2 ^ x))))
        by (rewrite Z2Nat.id; [lia|apply Z.log2_nonneg]).
      destruct (strip_zeros _ (n * 2 ^ x) 0) as [m' e'] eqn:S.
      destruct (strip_zeros_exact _ _ _ _ _ S) as [H1 H2].
      destruct (strip_zeros_canonical _ _ _ _ _ Hm Hfuel S) as [H3 H4].
      exists (Z.to_N m'), e'. rewrite Z2N.id by lia.
      split; [reflexivity|]. split; [now right|].
      split; [lia|]. rewrite Z.sub_0_r in H2. lia.
    + apply Z.leb_gt in Ex.
      assert (Hm : 0 < n * 5 ^ (- x)).
      { assert (0 < 5 ^ (- x)) by (apply Z.pow_pos_nonneg; lia). nia. }
      assert (Hfuel : Z.log2 (n * 5 ^ (- x))
                      <= Z.of_nat (Z.to_nat (Z.log2 (n * 5 ^ (- x)))))
        by (rewrite Z2Nat.id; [lia|apply Z.log2_nonneg]).
      destruct (strip_zeros _ (n * 5 ^ (- x)) x) as [m' e'] eqn:S.
      destruct (strip_zeros_exact _ _ _ _ _ S) as [H1 H2].
      destruct (strip_zeros_canonical _ _ _ _ _ Hm Hfuel S) as [H3 H4].
      exists (Z.to_N m'), e'. rewrite Z2N.id by lia.
      split; [reflexivity|]. split; [now right|].
      split; [lia|]. lia.
Qed.

Lemma fraction_pos m e p q :
  m <> 0%N -> fraction m e = (p, q) -> 0 < p /\ 0 < q.
Proof.
  intros Hm. unfold fraction. destruct (0 <=? e) eqn:E.
  - apply Z.leb_le in E. intros H; inversion H; subst.
    assert (0 < 10 ^ e) by (apply Z.pow_pos_nonneg; lia). split; [nia|lia].
  - apply Z.leb_gt in E. intros H; inversion H; subst.
    assert (0 < 10 ^ (- e)) by (apply Z.pow_pos_nonneg; lia). split; lia.
Qed.

(** Rounding gives the nearest double. *)
Lemma to_double_nearest neg m e p q :
  m <> 0%N -> fraction m e = (p, q) ->
  nearest_double neg p q (to_double (Dec neg m e)).
Proof.
  intros Hm Hf. destruct (fraction_pos m e p q Hm Hf) as [Hp Hq].
  cbn [to_double]. apply N.eqb_neq in Hm. rewrite Hm, Hf.
  pose proof (overflow_threshold p q Hp Hq) as Hov.
  pose proof (significand_range p q Hp Hq) as [Hn Hnorm].
  pose proof (result_is_double p q Hp Hq) as Hdbl.
  pose proof (nearest_of_doubles p q Hp Hq) as Hnear.
  pose proof (ties_to_even p q Hp Hq) as Hties.
  pose proof (spacing_nonneg q (in_steps p)) as Hk0.
  unfold nearest_binary. cbv zeta.
  set (k := spacing (in_steps p) q) in *.
  set (n := significand p q) in *.
  destruct (2 ^ 2098 <=? n * 2 ^ k) eqn:O.
  - apply Z.leb_le in O. cbn [nearest_double]. split; [reflexivity|].
    now apply Hov.
  - apply Z.leb_gt in O.
    destruct (decimal_of_binary_exact neg n (k - 1074) ltac:(lia))
      as (m' & e' & -> & Hcan & Hsame).
    cbn [nearest_double]. split; [reflexivity|]. split.
    { destruct (Z.lt_ge_cases (in_steps p) ((2 ^ 2098 - 2 ^ 2044) * q))
        as [H|H]; [exact H|]. apply Hov in H. lia. }
    split; [exact Hcan|]. exists n, (k - 1074).
    replace (k - 1074 + 1074) with k by lia.
    split; [exact Hsame|]. split; [exact Hn|].
    split; [lia|]. split.
    { destruct (Z.eq_dec k 0) as [E|E]; [left; lia|right].
      apply Hnorm. lia. }
    split; [now apply Hdbl|]. split; [exact Hnear|exact Hties].
Qed.

Lemma round_half_even_zero a b :
  0 <= a -> 0 < b -> (round_half_even a b = 0 <-> 2 * a <= b).
Proof.
  intros Ha Hb. unfold round_half_even.
  pose proof (Z.div_mod a b ltac:(lia)) as Hd.
  pose proof (Z.mod_pos_bound a b Hb) as Hm.
  assert (H0 : 0 <= a / b) by (apply Z.div_pos; lia).
  destruct (Z.eq_dec (a / b) 0) as [E|E].
  - rewrite E in *. cbn [Z.even].
    destruct (Z.compare_spec (2 * (a mod b)) b); lia.
  - assert (H1 : 1 <= a / b) by lia.
    assert (H2 : b <= b * (a / b)) by nia.
    destruct (Z.compare_spec (2 * (a mod b)) b);
      try destruct (Z.even (a / b)); lia.
Qed.

Lemma decimal_of_binary_zero neg n x :
  0 <= n -> (decimal_of_binary neg n x = Dec neg 0 0 <-> n = 0).
Proof.
  intros Hn. split.
  - intros H. destruct (Z.eq_dec n 0) as [E|E]; [exact E|exfalso].
    unfold decimal_of_binary in H.
    assert (E0 : (n =? 0) = false) by now apply Z.eqb_neq. rewrite E0 in H.
    destruct (0 <=? x) eqn:Ex.
    + apply Z.leb_le in Ex.
      assert (Hm : 0 < n * 2 ^ x).
      { assert (0 < 2 ^ x) by (apply Z.pow_pos_nonneg; lia). nia. }
      assert (Hfuel : Z.log2 (n * 2 ^ x)
                      <= Z.of_nat (Z.to_nat (Z.log2 (n * 2 ^ x))))
        by (rewrite Z2Nat.id; [lia|apply Z.log2_nonneg]).
      destruct (strip_zeros _ (n * 2 ^ x) 0) as [m' e'] eqn:S.
      destruct (strip_zeros_canonical _ _ _ _ _ Hm Hfuel S) as [H3 _].
      inversion H. lia.
    + apply Z.leb_gt in Ex.
      assert (Hm : 0 < n * 5 ^ (- x)).
      { assert (0 < 5 ^ (- x)) by (apply Z.pow_pos_nonneg; lia). nia. }
      assert (Hfuel : Z.log2 (n * 5 ^ (- x))
                      <= Z.of_nat (Z.to_nat (Z.log2 (n * 5 ^ (- x)))))
        by (rewrite Z2Nat.id; [lia|apply Z.log2_nonneg]).
      destruct (strip_zeros _ (n * 5 ^ (- x)) x) as [m' e'] eqn:S.
      destruct (strip_zeros_canonical _ _ _ _ _ Hm Hfuel S) as [H3 _].
      inversion H. lia.
  - intros ->. reflexivity.
Qed.

(** The nearest double is a zero exactly when the decimal is at most
    half the least positive double. *)
Lemma to_double_zero neg m e :
  to_double (Dec neg m e) = Dec neg 0 0 <-> rounds_to_zero m e = true.
Proof.
  unfold rounds_to_zero. cbn [to_double].
  destruct (m =? 0)%N eqn:Em; [now split|]. cbn [orb].
  apply N.eqb_neq in Em.
  destruct (fraction m e) as [p q] eqn:Hf.
  destruct (fraction_pos m e p q Em Hf) as [Hp Hq].
  pose proof (significand_range p q Hp Hq) as [Hn Hnorm].
  pose proof (normal_52_bits p q Hp Hq) as H52.
  pose proof (steps_pos p Hp) as HP.
  pose proof (spacing_nonneg q (in_steps p)) as Hk.
  pose proof (divisor_pos p q Hp Hq) as HB.
  pose proof (round_half_even_zero (in_steps p) _ ltac:(lia) HB) as Hz.
  fold (significand p q) in Hz.
  assert (Hzero : significand p q = 0 <-> 2 * in_steps p <= q).
  { rewrite Hz. destruct (Z.eq_dec (spacing (in_steps p) q) 0) as [E|E].
    - rewrite E. change (2 ^ 0) with 1. rewrite Z.mul_1_r. reflexivity.
    - specialize (H52 ltac:(lia)). specialize (Hnorm ltac:(lia)).
      assert (HK : 0 < 2 ^ spacing (in_steps p) q)
        by (apply Z.pow_pos_nonneg; lia).
      change (2 ^ 52) with 4503599627370496 in *.
      split; intros H; exfalso.
      + rewrite <- Hz in H. lia.
      + set (K := 2 ^ spacing (in_steps p) q) in *.
        assert (q * 1 <= q * K) by (apply Z.mul_le_mono_nonneg_l; lia).
        nia. }
  assert (Hthr : 2 * in_steps p <= q <->
                 ((e <? 0) && (Z.of_N m * 2 ^ 1075 <=? 10 ^ (- e))) = true).
  { unfold in_steps. change (2 ^ 1075) with (2 * 2 ^ 1074).
    assert (HT : 0 < 2 ^ 1074) by reflexivity.
    unfold fraction in Hf. destruct (0 <=? e) eqn:Ee.
    - apply Z.leb_le in Ee. inversion Hf; subst.
      replace (e <? 0) with false by (symmetry; apply Z.ltb_ge; lia).
      cbn [andb]. split; [|discriminate]. intros H. exfalso.
      set (T := 2 ^ 1074) in *. nia.
    - apply Z.leb_gt in Ee. inversion Hf; subst.
      replace (e <? 0) with true by (symmetry; apply Z.ltb_lt; lia).
      cbn [andb]. rewrite Z.leb_le. set (T := 2 ^ 1074). lia. }
  rewrite <- Hthr, <- Hzero.
  unfold nearest_binary. cbv zeta.
  destruct (2 ^ 2098 <=? significand p q * 2 ^ spacing (in_steps p) q) eqn:O.
  - apply Z.leb_le in O. split; [discriminate|]. intros H. rewrite H in O.
    exfalso. cbn in O. lia.
  - apply decimal_of_binary_zero. lia.
Qed.

Local Close Scope Z_scope.

(** * Facts about the matcher *)

Section MatcherFacts.
Context {A : Type}.
Implicit Types (k : @cont A) (r : regex) (s : jsstring) (c : captures).

Lemma star_loop_ext step1 step2 k1 k2 n s c :
  (forall s0 c0 ka kb,
      (List.length s0 <= List.length s)%nat ->
      (forall s' c', (List.length s' <= List.length s0)%nat ->
                     ka s' c' = kb s' c') ->
      step1 s0 c0 ka = step2 s0 c0 kb) ->
  (forall s' c', (List.length s' <= List.length s)%nat -> k1 s' c' = k2 s' c') ->
  star_loop step1 k1 n s c = star_loop step2 k2 n s c.
Proof.
  revert s c; induction n as [|n IH]; intros s c Hstep Hk; simpl.
  - apply Hk; lia.
  - rewrite (Hk s c) by lia. f_equal.
    apply Hstep; [lia|]. intros s' c' Hle.
    destruct (List.length s' <? List.length s)%nat eqn:E; [|reflexivity].
    apply Nat.ltb_lt in E. apply IH.
    + intros s0 c0 ka kb H0 Hab. apply Hstep; [lia|exact Hab].
    + intros s2 c2 H2. apply Hk; lia.
Qed.

(** The matcher calls its continuation on what is left of [s] only. *)
Lemma rmatch_ext r : forall s c k1 k2,
  (forall s' c', (List.length s' <= List.length s)%nat -> k1 s' c' = k2 s' c') ->
  rmatch r s c k1 = rmatch r s c k2.
Proof.
  induction r as [|p|r1 IH1 r2 IH2|r1 IH1 r2 IH2|r1 IH1|i r1 IH1];
    intros s c k1 k2 Hk; simpl.
  - apply Hk; lia.
  - destruct s as [|x s]; [reflexivity|].
    destruct (p x); [|reflexivity]. apply Hk; simpl; lia.
  - apply IH1. intros s' c' Hle. apply IH2.
    intros s2 c2 H2. apply Hk; lia.
  - now rewrite (IH1 s c k1 k2 Hk), (IH2 s c k1 k2 Hk).
  - apply star_loop_ext; [|exact Hk].
    intros s0 c0 ka kb _ Hab. apply IH1, Hab.
  - apply IH1. intros s' c' Hle. apply Hk, Hle.
Qed.

Lemma star_loop_fail step n s c :
  (forall s0 c0 k0, (forall s' c', k0 s' c' = None) -> step s0 c0 k0 = None) ->
  star_loop step (fun _ _ => None) n s c = None.
Proof.
  intros Hstep; revert s c; induction n as [|n IH]; intros s c; simpl;
    [reflexivity|].
  rewrite Hstep; [reflexivity|].
  intros s' c'. destruct (List.length s' <? List.length s)%nat; auto.
Qed.

(** When nothing can follow, nothing matches. *)
Lemma rmatch_fail r : forall s c k,
  (forall s' c', k s' c' = None) -> rmatch r s c k = None.
Proof.
  induction r as [|p|r1 IH1 r2 IH2|r1 IH1 r2 IH2|r1 IH1|i r1 IH1];
    intros s c k Hk; simpl; auto.
  - destruct s as [|x s]; [reflexivity|]. destruct (p x); auto.
  - now rewrite IH1, IH2.
  - rewrite (star_loop_ext (rmatch r1) (rmatch r1) k (fun _ _ => None)).
    + apply star_loop_fail. intros; now apply IH1.
    + intros; now apply rmatch_ext.
    + intros; apply Hk.
Qed.

(** The counter of a repetition is large enough from [length s] on. *)
Lemma star_loop_fuel r k n : forall m s c,
  (List.length s <= n)%nat -> (List.length s <= m)%nat ->
  star_loop (rmatch r) k n s c = star_loop (rmatch r) k m s c.
Proof.
  induction n as [|n IH]; intros [|m] s c Hn Hm; simpl; try reflexivity.
  - destruct s; [|simpl in Hn; lia]. simpl.
    rewrite rmatch_fail; [reflexivity|reflexivity].
  - destruct s; [|simpl in Hm; lia]. simpl.
    rewrite rmatch_fail; [reflexivity|reflexivity].
  - f_equal. apply rmatch_ext. intros s' c' Hle.
    destruct (List.length s' <? List.length s)%nat eqn:E; [|reflexivity].
    apply Nat.ltb_lt in E. apply IH; lia.
Qed.

(** The equation of the greedy repetition: one more iteration that
    consumes something, else what follows. *)
Lemma rmatch_Star r s c k :
  rmatch (Star r) s c k =
  orelse
    (rmatch r s c
       (fun s' c' =>
          if (List.length s' <? List.length s)%nat
          then rmatch (Star r) s' c' k else None))
    (k s c).
Proof.
  cbn [rmatch]. destruct s as [|x s].
  - simpl. rewrite rmatch_fail; [reflexivity|reflexivity].
  - cbn [List.length star_loop]. f_equal. apply rmatch_ext.
    intros s' c' _.
    destruct (List.length s' <? S (List.length s))%nat eqn:E; [|reflexivity].
    apply Nat.ltb_lt in E. apply star_loop_fuel; lia.
Qed.

Lemma rmatch_Seq r1 r2 s c k :
  rmatch (Seq r1 r2) s c k = rmatch r1 s c (fun s' c' => rmatch r2 s' c' k).
Proof. reflexivity. Qed.

Lemma rmatch_Alt r1 r2 s c k :
  rmatch (Alt r1 r2) s c k = orelse (rmatch r1 s c k) (rmatch r2 s c k).
Proof. reflexivity. Qed.

Lemma rmatch_Group i r s c k :
  rmatch (Group i r) s c k =
  rmatch r s c
    (fun s' c' => k s' ((i, firstn (List.length s - List.length s') s) :: c')).
Proof. reflexivity. Qed.

Lemma rmatch_Star_Chr_nil p c k : rmatch (Star (Chr p)) [] c k = k [] c.
Proof. reflexivity. Qed.

Lemma rmatch_Star_Chr_cons p x s c k :
  rmatch (Star (Chr p)) (x :: s) c k =
  if p x then orelse (rmatch (Star (Chr p)) s c k) (k (x :: s) c)
  else k (x :: s) c.
Proof.
  rewrite rmatch_Star. cbn [rmatch]. destruct (p x); [|reflexivity].
  assert (E : (List.length s <? List.length (x :: s))%nat = true)
    by (apply Nat.ltb_lt; simpl; lia).
  now rewrite E.
Qed.

(** A greedy class repetition stops at the first unit outside the class
    when what follows matches there. *)
Lemma rmatch_Star_Chr_greedy p a s c k v :
  Forall (fun x => p x = true) a ->
  match s with [] => True | x :: _ => p x = false end ->
  k s c = Some v ->
  rmatch (Star (Chr p)) (a ++ s) c k = Some v.
Proof.
  intros Ha Hs Hk; induction Ha as [|x a Hx Ha IH]; cbn [app].
  - destruct s as [|y s]; [exact Hk|].
    rewrite rmatch_Star_Chr_cons, Hs. exact Hk.
  - rewrite rmatch_Star_Chr_cons, Hx, IH. reflexivity.
Qed.

Lemma rmatch_lit w s c k : rmatch (lit w) (w ++ s) c k = k s c.
Proof.
  induction w as [|x w IH]; simpl; [reflexivity|].
  unfold is_char at 1. now rewrite N.eqb_refl.
Qed.

Lemma rmatch_lit_i w s c k : rmatch (lit_i w) (w ++ s) c k = k s c.
Proof.
  induction w as [|x w IH]; simpl; [reflexivity|].
  unfold is_char_i at 1. now rewrite N.eqb_refl.
Qed.

Lemma rmatch_Times_Chr p a s c k :
  Forall (fun x => p x = true) a ->
  rmatch (Times (List.length a) (Chr p)) (a ++ s) c k = k s c.
Proof.
  intros Ha; induction Ha as [|x a Hx Ha IH]; simpl; [reflexivity|].
  now rewrite Hx.
Qed.
End MatcherFacts.

(** * The timed-text pattern *)

Lemma firstn_consumed (a s : jsstring) :
  firstn (List.length (a ++ s) - List.length s) (a ++ s) = a.
Proof.
  rewrite length_app, Nat.add_sub. rewrite firstn_app, Nat.sub_diag.
  simpl. now rewrite firstn_all, app_nil_r.
Qed.

Lemma rmatch_Group_class {A} i p a s c (k : @cont A) v :
  Forall (fun x => p x = true) a ->
  match s with [] => True | x :: _ => p x = false end ->
  k s ((i, a) :: c) = Some v ->
  rmatch (Group i (Star (Chr p))) (a ++ s) c k = Some v.
Proof.
  intros Ha Hs Hk. rewrite rmatch_Group.
  apply rmatch_Star_Chr_greedy; auto.
  now rewrite firstn_consumed.
Qed.

(** A well-formed element is matched whole, whatever follows it. *)
Lemma exec_at_render (e : element) (rest : jsstring) :
  element_ok e ->
  exec_at RE_XML_TRANSCRIPT (render e ++ rest) = Some (element_captures e, rest).
Proof.
  intros (Hs & Hd & Ht). unfold exec_at, RE_XML_TRANSCRIPT, render.
  rewrite <- !app_assoc.
  rewrite rmatch_Seq, rmatch_lit, rmatch_Seq.
  apply rmatch_Group_class; [exact Hs|reflexivity|].
  rewrite rmatch_Seq, rmatch_lit, rmatch_Seq.
  apply rmatch_Group_class; [exact Hd|reflexivity|].
  rewrite rmatch_Seq, rmatch_lit, rmatch_Seq.
  apply rmatch_Group_class; [exact Ht|reflexivity|].
  now rewrite rmatch_lit.
Qed.

Lemma exec_at_no_lt (x : N) (s : jsstring) :
  any_but [60] x = true -> exec_at RE_XML_TRANSCRIPT (x :: s) = None.
Proof.
  intros Hx. unfold exec_at, RE_XML_TRANSCRIPT. cbn.
  unfold any_but in Hx; simpl in Hx. rewrite orb_false_r in Hx.
  unfold is_char. now destruct (x =? 60).
Qed.

Lemma matchAll_go_skip r (a b : jsstring) :
  matchAll_go r (List.length a) (a ++ b) = matchAll_go r 0 b.
Proof. induction a as [|x a IH]; [reflexivity|exact IH]. Qed.

Lemma matchAll_go_gap (g s : jsstring) :
  no_lt g ->
  matchAll_go RE_XML_TRANSCRIPT 0 (g ++ s) = matchAll_go RE_XML_TRANSCRIPT 0 s.
Proof.
  intros Hg; induction Hg as [|x g Hx Hg IH]; [reflexivity|].
  cbn [app matchAll_go]. now rewrite exec_at_no_lt.
Qed.

Lemma matchAll_go_render (e : element) (rest : jsstring) :
  element_ok e ->
  matchAll_go RE_XML_TRANSCRIPT 0 (render e ++ rest) =
  element_captures e :: matchAll_go RE_XML_TRANSCRIPT 0 rest.
Proof.
  intros He. pose proof (exec_at_render e rest He) as Hx.
  destruct (render e) as [|x re] eqn:E; [discriminate E|].
  cbn [app matchAll_go]. cbn [app] in Hx. rewrite Hx. f_equal.
  replace (List.length (x :: re ++ rest) - List.length rest - 1)%nat
    with (List.length re) by (cbn [List.length]; rewrite length_app; lia).
  apply matchAll_go_skip.
Qed.

(** The matches of a document are its elements, in order. *)
Lemma matchAll_document (items : list (jsstring * element)) (tail : jsstring) :
  Forall (fun ge => no_lt (fst ge) /\ element_ok (snd ge)) items ->
  no_lt tail ->
  matchAll RE_XML_TRANSCRIPT (document items tail) =
  map (fun ge => element_captures (snd ge)) items.
Proof.
  intros Hi Ht. unfold matchAll.
  induction Hi as [|[g e] items [Hg He] Hi IH]; cbn [document map snd].
  - rewrite <- (app_nil_r tail), matchAll_go_gap by exact Ht. reflexivity.
  - cbn [fst snd] in Hg, He. rewrite matchAll_go_gap by exact Hg.
    rewrite matchAll_go_render by exact He. now rewrite IH.
Qed.

(** * The control flow of the strategies *)

Lemma HtmlScraping_unfold videoId config t log :
  fetchTranscriptWithHtmlScraping videoId config t log =
  match retrieveVideoId videoId with
  | Err e => (Err e, log)
  | Ok identifier =>
      let req := watch_request identifier config in
      match t log req with
      | Rejected => (Err FetchError, req :: log)
      | Responded resp =>
          let parts := split CAPTIONS_MARKER (body resp) in
          if (List.length parts <=? 1)%nat
          then (Err (classify_failure (body resp) videoId), req :: log)
          else checked videoId (str "HTML scraping")
                 (processTranscriptFromCaptions (scraped_captions parts)
                    videoId config t (req :: log))
      end
  end.
Proof.
  unfold fetchTranscriptWithHtmlScraping, bind, lift, fetch, throw, ret, checked.
  destruct (retrieveVideoId videoId) as [identifier|e]; [|reflexivity].
  cbv zeta. destruct (t log (watch_request identifier config)); [reflexivity|].
  destruct (List.length (split CAPTIONS_MARKER (body r)) <=? 1)%nat;
    [reflexivity|].
  destruct (processTranscriptFromCaptions _ _ _ _ _) as [[r0|e] log'];
    [destruct (List.length r0 =? 0)%nat|]; reflexivity.
Qed.

Lemma InnerTube_unfold videoId config t log :
  fetchTranscriptWithInnerTube videoId config t log =
  match retrieveVideoId videoId with
  | Err e => (Err e, log)
  | Ok identifier =>
      let req := player_request identifier config in
      match t log req with
      | Rejected => (Err FetchError, req :: log)
      | Responded resp =>
          match JSON_parse (body resp) with
          | None => (Err SyntaxError, req :: log)
          | Some json =>
              match (let? outer := get json (str "captions") in
                     get outer (str "playerCaptionsTracklistRenderer")) with
              | Err e => (Err e, req :: log)
              | Ok captions =>
                  checked videoId (str "InnerTube API")
                    (processTranscriptFromCaptions captions videoId config t
                       (req :: log))
              end
          end
      end
  end.
Proof.
  unfold fetchTranscriptWithInnerTube, bind, lift, fetch, throw, ret, checked.
  destruct (retrieveVideoId videoId) as [identifier|e]; [|reflexivity].
  cbv zeta. destruct (t log (player_request identifier config)); [reflexivity|].
  destruct (JSON_parse (body r)) as [json|]; [|reflexivity].
  destruct (get json (str "captions")) as [outer|e]; [|reflexivity].
  cbn [rbind].
  destruct (get outer (str "playerCaptionsTracklistRenderer")) as [captions|e];
    [|reflexivity].
  destruct (processTranscriptFromCaptions _ _ _ _ _) as [[r0|e] log'];
    [destruct (List.length r0 =? 0)%nat|]; reflexivity.
Qed.

Lemma checked_nonempty videoId method out r log' :
  checked videoId method out = (Ok r, log') -> r <> [].
Proof.
  destruct out as [[r0|e] l0]; simpl; [|discriminate].
  destruct r0; simpl; [discriminate|]. intros E; inversion E; discriminate.
Qed.

Lemma checked_log videoId method out : snd (checked videoId method out) = snd out.
Proof.
  destruct out as [[r0|e] l0]; simpl; [|reflexivity].
  now destruct (List.length r0 =? 0)%nat.
Qed.

Lemma processTranscript_unfold captions videoId config t log :
  processTranscriptFromCaptions captions videoId config t log =
  match transcriptURL captions videoId config with
  | Err e => (Err e, log)
  | Ok url =>
      let req := track_request url config in
      match t log req with
      | Rejected => (Err FetchError, req :: log)
      | Responded resp =>
          if negb (ok resp)
          then (Err (YoutubeTranscriptNotAvailableError videoId), req :: log)
          else (parseTranscript captions config (body resp), req :: log)
      end
  end.
Proof.
  unfold processTranscriptFromCaptions, bind, lift, fetch, throw.
  destruct (transcriptURL captions videoId config) as [url|e]; [|reflexivity].
  cbv zeta. destruct (t log (track_request url config)); [reflexivity|].
  now destruct (negb (ok r)).
Qed.

(** The processor makes at most one request, a GET, on top of the log. *)
Lemma processTranscript_log captions videoId config t log :
  let log' := snd (processTranscriptFromCaptions captions videoId config t log) in
  log' = log \/ exists url, log' = track_request url config :: log.
Proof.
  rewrite processTranscript_unfold.
  destruct (transcriptURL captions videoId config) as [url|e]; [|now left].
  right; exists url. cbv zeta.
  destruct (t log (track_request url config)); [reflexivity|].
  now destruct (negb (ok r)).
Qed.

Lemma processTranscript_no_post captions videoId config t log :
  InnerTube_attempted
    (snd (processTranscriptFromCaptions captions videoId config t log)) =
  InnerTube_attempted log.
Proof.
  destruct (processTranscript_log captions videoId config t log) as [E|[u E]];
    cbv zeta in E; rewrite E; reflexivity.
Qed.

Lemma HtmlScraping_no_post videoId config t log :
  InnerTube_attempted (snd (fetchTranscriptWithHtmlScraping videoId config t log))
  = InnerTube_attempted log.
Proof.
  rewrite HtmlScraping_unfold.
  destruct (retrieveVideoId videoId) as [identifier|e]; [|reflexivity].
  cbv zeta. destruct (t log (watch_request identifier config)); [reflexivity|].
  destruct (List.length _ <=? 1)%nat; [reflexivity|].
  now rewrite checked_log, processTranscript_no_post.
Qed.

Lemma HtmlScraping_resolved videoId config t log e log' :
  fetchTranscriptWithHtmlScraping videoId config t log = (Err e, log') ->
  is_empty_error e = true ->
  exists identifier, retrieveVideoId videoId = Ok identifier.
Proof.
  rewrite HtmlScraping_unfold.
  destruct (retrieveVideoId videoId) as [identifier|e0] eqn:R; [eauto|].
  intros E He; inversion E; subst. unfold retrieveVideoId in R.
  destruct (List.length videoId =? 11)%nat; [discriminate|].
  destruct (regex_match RE_YOUTUBE videoId); [discriminate|].
  inversion R; subst. discriminate.
Qed.

Lemma InnerTube_posts videoId identifier config t log :
  retrieveVideoId videoId = Ok identifier ->
  InnerTube_attempted (snd (fetchTranscriptWithInnerTube videoId config t log))
  = true.
Proof.
  intros Hid. rewrite InnerTube_unfold, Hid. cbv zeta.
  destruct (t log (player_request identifier config)); [reflexivity|].
  destruct (JSON_parse (body r)); [|reflexivity].
  destruct (let? outer := get v (str "captions") in _); [|reflexivity].
  rewrite checked_log, processTranscript_no_post. reflexivity.
Qed.

(** C1. [fetchTranscript] runs the HTML-scrape strategy first.  When that
    attempt fails with the empty-transcript error, and only then, the
    InnerTube strategy runs next and its outcome, result or error, is
    the outcome of the call; in every other case the outcome of the
    HTML-scrape attempt is the outcome of the call and no request of
    the InnerTube strategy is made. *)
Theorem fetchTranscript_fallback videoId config t log :
  let first := fetchTranscriptWithHtmlScraping videoId config t log in
  let final := fetchTranscript videoId config t log in
  InnerTube_attempted (snd first) = InnerTube_attempted log /\
  match fst first with
  | Err (YoutubeTranscriptEmptyError _ _) =>
      final = fetchTranscriptWithInnerTube videoId config t (snd first) /\
      InnerTube_attempted (snd final) = true
  | _ =>
      final = first
  end.
Proof.
  cbv zeta. split; [apply HtmlScraping_no_post|].
  unfold fetchTranscript.
  destruct (fetchTranscriptWithHtmlScraping videoId config t log)
    as [[r|e] log1] eqn:E; cbn [fst snd]; [reflexivity|].
  destruct e; cbn [is_empty_error]; try reflexivity.
  split; [reflexivity|].
  destruct (HtmlScraping_resolved _ _ _ _ _ _ E eq_refl) as [identifier Hid].
  now apply InnerTube_posts with identifier.
Qed.

Lemma HtmlScraping_nonempty videoId config t log r log' :
  fetchTranscriptWithHtmlScraping videoId config t log = (Ok r, log') -> r <> [].
Proof.
  rewrite HtmlScraping_unfold.
  destruct (retrieveVideoId videoId) as [identifier|e]; [|discriminate].
  cbv zeta. destruct (t log (watch_request identifier config)); [discriminate|].
  destruct (List.length _ <=? 1)%nat; [discriminate|].
  apply checked_nonempty.
Qed.

Lemma InnerTube_nonempty videoId config t log r log' :
  fetchTranscriptWithInnerTube videoId config t log = (Ok r, log') -> r <> [].
Proof.
  rewrite InnerTube_unfold.
  destruct (retrieveVideoId videoId) as [identifier|e]; [|discriminate].
  cbv zeta. destruct (t log (player_request identifier config)); [discriminate|].
  destruct (JSON_parse (body r0)); [|discriminate].
  destruct (let? outer := get v (str "captions") in _); [|discriminate].
  apply checked_nonempty.
Qed.

(** ** The errors of the processor *)

Lemma get_error v k e : get v k = Err e -> e = TypeError.
Proof. destruct v; simpl; congruence. Qed.

Lemma index0_error v e : index0 v = Err e -> e = TypeError.
Proof.
  destruct v as [| | | |s| |]; simpl; try congruence.
  destruct s; congruence.
Qed.

Lemma as_array_error v e : as_array v = Err e -> e = TypeError.
Proof. destruct v; simpl; congruence. Qed.

Lemma languageCode_is_error l v e : languageCode_is l v = Err e -> e = TypeError.
Proof.
  unfold languageCode_is. destruct (get v (str "languageCode")) eqn:G; simpl;
    [discriminate|]. intros H; inversion H; subst. eapply get_error, G.
Qed.

Lemma Array_some_error f l e :
  (forall x e', f x = Err e' -> e' = TypeError) ->
  Array_some f l = Err e -> e = TypeError.
Proof.
  intros Hf; induction l as [|x l IH]; simpl; [discriminate|].
  destruct (f x) as [b|e'] eqn:F; simpl.
  - destruct b; [discriminate|exact IH].
  - intros H; inversion H; subst. eapply Hf, F.
Qed.

Lemma Array_find_error f l e :
  (forall x e', f x = Err e' -> e' = TypeError) ->
  Array_find f l = Err e -> e = TypeError.
Proof.
  intros Hf; induction l as [|x l IH]; simpl; [discriminate|].
  destruct (f x) as [b|e'] eqn:F; simpl.
  - destruct b; [discriminate|exact IH].
  - intros H; inversion H; subst. eapply Hf, F.
Qed.

Lemma Array_map_error {A B} (f : A -> Result B) l e :
  (forall x e', f x = Err e' -> e' = TypeError) ->
  Array_map f l = Err e -> e = TypeError.
Proof.
  intros Hf; induction l as [|x l IH]; simpl; [discriminate|].
  destruct (f x) as [b|e'] eqn:F; simpl.
  - destruct (Array_map f l); simpl; [discriminate|].
    intros H; inversion H; subst. now apply IH.
  - intros H; inversion H; subst. eapply Hf, F.
Qed.

Lemma selectTrack_error captions config e :
  selectTrack captions config = Err e -> e = TypeError.
Proof.
  unfold selectTrack, captionTracks.
  destruct (truthy_lang config) as [l|];
    (destruct (get captions (str "captionTracks")) as [tr|e0] eqn:G; simpl;
     [|intros H; inversion H; subst; eapply get_error, G]).
  - destruct (as_array tr) eqn:Ar; simpl.
    + apply Array_find_error. apply languageCode_is_error.
    + intros H; inversion H; subst. eapply as_array_error, Ar.
  - apply index0_error.
Qed.

Lemma check_language_error captions videoId config e :
  check_language captions videoId config = Err e ->
  e = TypeError \/
  exists l langs, e = YoutubeTranscriptNotAvailableLanguageError l langs videoId.
Proof.
  unfold check_language, captionTracks.
  destruct (truthy_lang config) as [l|]; [|discriminate].
  destruct (get captions (str "captionTracks")) as [tr|e0] eqn:G; simpl;
    [|intros H; inversion H; subst; left; eapply get_error, G].
  destruct (as_array tr) as [arr|e0] eqn:Ar; simpl;
    [|intros H; inversion H; subst; left; eapply as_array_error, Ar].
  destruct (Array_some (languageCode_is l) arr) as [found|e0] eqn:S; simpl.
  - destruct found; simpl; [discriminate|].
    destruct (Array_map _ arr) as [langs|e0] eqn:Mp; simpl.
    + intros H; inversion H; subst. unfold new_NotAvailableLanguageError.
      destruct (Array_join_throws langs); [now left|right; eauto].
    + intros H; inversion H; subst. left.
      eapply Array_map_error, Mp. intros x e'. apply get_error.
  - intros H; inversion H; subst. left.
    eapply Array_some_error, S. apply languageCode_is_error.
Qed.

Lemma transcriptURL_error captions videoId config e :
  transcriptURL captions videoId config = Err e -> page_only_error e = false.
Proof.
  unfold transcriptURL.
  destruct (negb (truthy captions)); [intros H; inversion H; reflexivity|].
  destruct (has_property _ captions) as [has|e0] eqn:Hp; simpl.
  2:{ intros H; inversion H; subst. destruct captions; simpl in Hp;
      inversion Hp; reflexivity. }
  destruct (negb has); [intros H; inversion H; reflexivity|].
  destruct (check_language captions videoId config) as [[]|e0] eqn:C; simpl.
  2:{ intros H; inversion H; subst.
      destruct (check_language_error _ _ _ _ C) as [->|(l & langs & ->)];
        reflexivity. }
  destruct (selectTrack captions config) as [track|e0] eqn:S; simpl.
  - intros H. now rewrite (get_error _ _ _ H).
  - intros H; inversion H; subst. now rewrite (selectTrack_error _ _ _ S).
Qed.

Lemma parseTranscript_error captions config b e :
  parseTranscript captions config b = Err e -> e = TypeError.
Proof.
  unfold parseTranscript. apply Array_map_error.
  intros x e'. unfold reported_lang, captionTracks.
  destruct (config_lang config); simpl; [discriminate|].
  destruct (get captions (str "captionTracks")) as [tr|e0] eqn:G; simpl;
    [|intros H; inversion H; subst; eapply get_error, G].
  destruct (index0 tr) as [f|e0] eqn:I; simpl;
    [|intros H; inversion H; subst; eapply index0_error, I].
  destruct (get f (str "languageCode")) as [c|e0] eqn:G2; simpl;
    [discriminate|intros H; inversion H; subst; eapply get_error, G2].
Qed.

Lemma processTranscript_error captions videoId config t log e :
  fst (processTranscriptFromCaptions captions videoId config t log) = Err e ->
  page_only_error e = false.
Proof.
  rewrite processTranscript_unfold.
  destruct (transcriptURL captions videoId config) as [url|e0] eqn:U.
  - cbv zeta. destruct (t log (track_request url config)); simpl.
    + intros H; inversion H; reflexivity.
    + destruct (negb (ok r)); simpl; [intros H; inversion H; reflexivity|].
      intros H. now rewrite (parseTranscript_error _ _ _ _ H).
  - simpl. intros H; inversion H; subst. eapply transcriptURL_error, U.
Qed.

Lemma CAPTIONS_MARKER_nonempty : CAPTIONS_MARKER <> [].
Proof. discriminate. Qed.

(** C2. A successful return of [fetchTranscript] is never the empty
    sequence, nor is one of either strategy: a strategy whose processor
    returns zero segments raises its own empty-transcript error
    instead. *)
Theorem fetchTranscript_never_empty videoId config t log :
  (forall r log',
      fetchTranscript videoId config t log = (Ok r, log') -> r <> []) /\
  (forall r log',
      fetchTranscriptWithHtmlScraping videoId config t log = (Ok r, log') ->
      r <> []) /\
  (forall r log',
      fetchTranscriptWithInnerTube videoId config t log = (Ok r, log') ->
      r <> []) /\
  (forall identifier resp log',
      retrieveVideoId videoId = Ok identifier ->
      t log (watch_request identifier config) = Responded resp ->
      includes CAPTIONS_MARKER (body resp) = true ->
      processTranscriptFromCaptions
        (scraped_captions (split CAPTIONS_MARKER (body resp))) videoId config t
        (watch_request identifier config :: log) = (Ok [], log') ->
      fetchTranscriptWithHtmlScraping videoId config t log =
      (Err (YoutubeTranscriptEmptyError videoId (str "HTML scraping")), log')) /\
  (forall identifier resp json outer captions log',
      retrieveVideoId videoId = Ok identifier ->
      t log (player_request identifier config) = Responded resp ->
      JSON_parse (body resp) = Some json ->
      get json (str "captions") = Ok outer ->
      get outer (str "playerCaptionsTracklistRenderer") = Ok captions ->
      processTranscriptFromCaptions captions videoId config t
        (player_request identifier config :: log) = (Ok [], log') ->
      fetchTranscriptWithInnerTube videoId config t log =
      (Err (YoutubeTranscriptEmptyError videoId (str "InnerTube API")), log')).
Proof.
  repeat apply conj.
  - intros r log'. unfold fetchTranscript.
    destruct (fetchTranscriptWithHtmlScraping videoId config t log)
      as [[r1|e] log1] eqn:E.
    + intros H; inversion H; subst. eapply HtmlScraping_nonempty, E.
    + destruct (is_empty_error e); [|discriminate].
      apply InnerTube_nonempty.
  - intros r log'. apply HtmlScraping_nonempty.
  - intros r log'. apply InnerTube_nonempty.
  - intros identifier resp log' Hid Hresp Hm Hp.
    rewrite HtmlScraping_unfold, Hid. cbv zeta.
    rewrite Hresp, (split_one_part _ _ CAPTIONS_MARKER_nonempty), Hm, Hp.
    reflexivity.
  - intros identifier resp json outer captions log' Hid Hresp Hj Ho Hc Hp.
    rewrite InnerTube_unfold, Hid. cbv zeta. rewrite Hresp, Hj, Ho.
    cbn [rbind]. rewrite Hc, Hp. reflexivity.
Qed.

Lemma fetchTranscript_never_empty_witness :
  fst (fetchTranscript sample_id None (scripted [page sample_page; page sample_xml]) [])
  = Ok (sample_segments (JStr (str "en"))) /\
  sample_segments (JStr (str "en")) <> [].
Proof.
  split; [vm_compute; reflexivity|].
  apply (proj1 (fetchTranscript_never_empty sample_id None
                  (scripted [page sample_page; page sample_xml]) [])
           (sample_segments (JStr (str "en")))
           (snd (fetchTranscript sample_id None
                   (scripted [page sample_page; page sample_xml]) []))).
  vm_compute; reflexivity.
Defined.


(** C3. In the HTML-scrape strategy the page is split on the captions
    marker first.  The split has one part exactly when the marker is
    absent, and only then is a failure classified: too many requests when
    the page holds the CAPTCHA marker, else video unavailable when it
    lacks the playability marker, else transcript disabled.  With the
    marker present the processor runs, and neither of the two
    page-only failures can come out. *)
Theorem HtmlScraping_classification videoId identifier config t log resp :
  retrieveVideoId videoId = Ok identifier ->
  t log (watch_request identifier config) = Responded resp ->
  let page := body resp in
  let req := watch_request identifier config in
  let outcome := fetchTranscriptWithHtmlScraping videoId config t log in
  ((List.length (split CAPTIONS_MARKER page) <=? 1)%nat
   = negb (includes CAPTIONS_MARKER page)) /\
  (includes CAPTIONS_MARKER page = false ->
   outcome =
   (Err (if includes RECAPTCHA_MARKER page
         then YoutubeTranscriptTooManyRequestError
         else if includes PLAYABILITY_MARKER page
              then YoutubeTranscriptDisabledError videoId
              else YoutubeTranscriptVideoUnavailableError videoId),
    req :: log)) /\
  (includes CAPTIONS_MARKER page = false ->
   includes RECAPTCHA_MARKER page = true ->
   outcome = (Err YoutubeTranscriptTooManyRequestError, req :: log)) /\
  (includes CAPTIONS_MARKER page = true ->
   outcome =
   checked videoId (str "HTML scraping")
     (processTranscriptFromCaptions
        (scraped_captions (split CAPTIONS_MARKER page)) videoId config t
        (req :: log)) /\
   forall e, fst outcome = Err e -> page_only_error e = false).
Proof.
  intros Hid Hresp. cbv zeta.
  pose proof (split_one_part CAPTIONS_MARKER (body resp) CAPTIONS_MARKER_nonempty)
    as Hsplit.
  rewrite HtmlScraping_unfold, Hid. cbv zeta. rewrite Hresp, Hsplit.
  split; [reflexivity|]. split; [|split].
  - intros ->. cbn [negb]. unfold classify_failure.
    destruct (includes RECAPTCHA_MARKER (body resp)); [reflexivity|].
    now destruct (includes PLAYABILITY_MARKER (body resp)).
  - intros -> Hc. cbn [negb]. unfold classify_failure. now rewrite Hc.
  - intros Hm. rewrite Hm. cbn [negb]. split; [reflexivity|]. intros e.
    destruct (processTranscriptFromCaptions _ _ _ _ _) as [[r|e0] log1] eqn:P;
      cbn [checked].
    + destruct (List.length r =? 0)%nat; cbn [fst]; [|discriminate].
      intros H; inversion H; reflexivity.
    + cbn [fst]. intros H; inversion H; subst.
      eapply processTranscript_error. rewrite P. reflexivity.
Qed.

Lemma HtmlScraping_classification_witness :
  fetchTranscriptWithHtmlScraping sample_id None (scripted [page captcha_page]) []
  = (Err YoutubeTranscriptTooManyRequestError, [watch_request sample_id None]).
Proof.
  refine (proj1 (proj2 (proj2
    (HtmlScraping_classification sample_id sample_id None
       (scripted [page captcha_page]) []
       {| ok := true; body := captcha_page |} _ _))) _ _);
    vm_compute; reflexivity.
Defined.

(** C9. When the parsed response of the player API has no [captions]
    member, or is no object, the InnerTube strategy fails in the
    destructuring with a TypeError, which is none of the module's error
    classes; and a call exists whose HTML-scrape attempt fails with the
    empty-transcript error and whose outcome is that TypeError. *)
Theorem InnerTube_untyped_failure :
  (forall videoId identifier config t log resp json,
      retrieveVideoId videoId = Ok identifier ->
      t log (player_request identifier config) = Responded resp ->
      JSON_parse (body resp) = Some json ->
      lacks_captions json ->
      fetchTranscriptWithInnerTube videoId config t log =
      (Err TypeError, player_request identifier config :: log)) /\
  is_transcript_error TypeError = false /\
  (exists videoId config t,
      fst (fetchTranscriptWithHtmlScraping videoId config t []) =
      Err (YoutubeTranscriptEmptyError videoId (str "HTML scraping")) /\
      fst (fetchTranscript videoId config t []) = Err TypeError).
Proof.
  split; [|split; [reflexivity|]].
  - intros videoId identifier config t log resp json Hid Hresp Hjson Hlack.
    rewrite InnerTube_unfold, Hid. cbv zeta. rewrite Hresp, Hjson.
    destruct json as [| | | | | |m]; try reflexivity.
    simpl in Hlack. simpl. now rewrite Hlack.
  - exists sample_id, None, untyped_failure_transport.
    split; vm_compute; reflexivity.
Qed.

Lemma InnerTube_untyped_failure_witness :
  fetchTranscriptWithInnerTube sample_id None
    (scripted [page (qstr "{'playabilityStatus':{}}")]) []
  = (Err TypeError, [player_request sample_id None]).
Proof.
  refine (proj1 InnerTube_untyped_failure sample_id sample_id None
            (scripted [page (qstr "{'playabilityStatus':{}}")]) []
            {| ok := true; body := qstr "{'playabilityStatus':{}}" |}
            (JObj [(str "playabilityStatus", JObj [])]) _ _ _ _);
    vm_compute; reflexivity.
Defined.

(** ** Every match is an element *)

Lemma rmatch_lit_inv {A} w : forall s c (k : @cont A) v,
  rmatch (lit w) s c k = Some v ->
  exists s', s = w ++ s' /\ k s' c = Some v.
Proof.
  induction w as [|x w IH]; intros s c k v; cbn [lit rmatch].
  - intros H. now exists s.
  - destruct s as [|y s]; [discriminate|].
    unfold is_char at 1. destruct (y =? x) eqn:E; [|discriminate].
    apply N.eqb_eq in E; subst y.
    intros H. destruct (IH _ _ _ _ H) as (s' & -> & Hk). now exists s'.
Qed.

Lemma rmatch_Star_Chr_inv {A} p : forall s c (k : @cont A) v,
  rmatch (Star (Chr p)) s c k = Some v ->
  exists a s', s = a ++ s' /\ Forall (fun x => p x = true) a /\ k s' c = Some v.
Proof.
  induction s as [|x s IH]; intros c k v.
  - rewrite rmatch_Star_Chr_nil. intros H. exists [], []. auto.
  - rewrite rmatch_Star_Chr_cons. destruct (p x) eqn:Px.
    + destruct (rmatch (Star (Chr p)) s c k) as [w|] eqn:E; cbn [orelse].
      * intros H; inversion H; subst w.
        destruct (IH _ _ _ E) as (a & s' & -> & Ha & Hk).
        exists (x :: a), s'. auto.
      * intros H. exists [], (x :: s). auto.
    + intros H. exists [], (x :: s). auto.
Qed.

Lemma rmatch_Group_class_inv {A} i p s c (k : @cont A) v :
  rmatch (Group i (Star (Chr p))) s c k = Some v ->
  exists a s',
    s = a ++ s' /\ Forall (fun x => p x = true) a /\
    k s' ((i, a) :: c) = Some v.
Proof.
  rewrite rmatch_Group. intros H. apply rmatch_Star_Chr_inv in H.
  destruct H as (a & s' & -> & Ha & Hk). rewrite firstn_consumed in Hk.
  now exists a, s'.
Qed.

Lemma exec_at_RE_XML_inv s caps rest :
  exec_at RE_XML_TRANSCRIPT s = Some (caps, rest) ->
  exists e,
    element_ok e /\ s = render e ++ rest /\ caps = element_captures e.
Proof.
  unfold exec_at, RE_XML_TRANSCRIPT. rewrite rmatch_Seq. intros H.
  apply rmatch_lit_inv in H. destruct H as (s1 & -> & H).
  rewrite rmatch_Seq in H. apply rmatch_Group_class_inv in H.
  destruct H as (st & s2 & -> & Hst & H).
  rewrite rmatch_Seq in H. apply rmatch_lit_inv in H.
  destruct H as (s3 & -> & H).
  rewrite rmatch_Seq in H. apply rmatch_Group_class_inv in H.
  destruct H as (du & s4 & -> & Hdu & H).
  rewrite rmatch_Seq in H. apply rmatch_lit_inv in H.
  destruct H as (s5 & -> & H).
  rewrite rmatch_Seq in H. apply rmatch_Group_class_inv in H.
  destruct H as (tx & s6 & -> & Htx & H).
  apply rmatch_lit_inv in H. destruct H as (s7 & -> & H).
  inversion H; subst.
  exists {| el_start := st; el_dur := du; el_text := tx |}.
  split; [now repeat split|]. split; [|reflexivity].
  unfold render; cbn [el_start el_dur el_text]. now rewrite <- !app_assoc.
Qed.

Lemma is_infix_cons a b x : is_infix a b -> is_infix a (x :: b).
Proof. apply (is_infix_app_l a b [x]). Qed.

(** The matches in any body are well-formed elements of the body. *)
Lemma matchAll_go_sound b : forall skip,
  exists es,
    matchAll_go RE_XML_TRANSCRIPT skip b = map element_captures es /\
    Forall (fun e => element_ok e /\ is_infix (render e) b) es.
Proof.
  induction b as [|x b IH]; intros skip.
  - exists []. split; [|constructor]. now destruct skip.
  - assert (Hlift : forall skip',
      exists es,
        matchAll_go RE_XML_TRANSCRIPT skip' b = map element_captures es /\
        Forall (fun e => element_ok e /\ is_infix (render e) (x :: b)) es).
    { intros skip'. destruct (IH skip') as (es & E & Hes). exists es.
      split; [exact E|]. eapply Forall_impl; [|exact Hes].
      intros e [He Hi]. split; [exact He|now apply is_infix_cons]. }
    destruct skip as [|n]; cbn [matchAll_go]; [|apply Hlift].
    destruct (exec_at RE_XML_TRANSCRIPT (x :: b)) as [[c rest]|] eqn:E;
      [|apply Hlift].
    destruct (exec_at_RE_XML_inv _ _ _ E) as (e & He & Hs & ->).
    destruct (Hlift (List.length (x :: b) - List.length rest - 1)%nat)
      as (es & Ees & Hes).
    exists (e :: es). split; [cbn [map]; now rewrite Ees|].
    constructor; [|exact Hes]. split; [exact He|].
    rewrite Hs. apply is_infix_app_r, is_infix_refl.
Qed.

Lemma Array_map_map {A B C} (f : B -> Result C) (h : A -> B) l :
  Array_map f (map h l) = Array_map (fun x => f (h x)) l.
Proof.
  induction l as [|x l IH]; simpl; [reflexivity|]. now rewrite IH.
Qed.

Lemma Array_map_Ok {A B} (f : A -> Result B) (g : A -> B) l :
  (forall x, f x = Ok (g x)) -> Array_map f l = Ok (map g l).
Proof.
  intros H; induction l as [|x l IH]; simpl; [reflexivity|].
  now rewrite H, IH.
Qed.

(** ** The elements of any body *)

Lemma render_nonempty (e : element) (rest : jsstring) : render e ++ rest <> [].
Proof. discriminate. Qed.

(** The pattern matches at the front of a text exactly when a well-formed
    element begins it. *)
Lemma exec_at_starts_element (s : jsstring) :
  exec_at RE_XML_TRANSCRIPT s <> None <-> starts_element s.
Proof.
  split.
  - destruct (exec_at RE_XML_TRANSCRIPT s) as [[caps rest]|] eqn:E;
      [intros _|congruence].
    destruct (exec_at_RE_XML_inv _ _ _ E) as (e & He & Hs & _).
    now exists e, rest.
  - intros (e & rest & He & ->). now rewrite exec_at_render.
Qed.

Lemma exec_at_not_element (s : jsstring) :
  ~ starts_element s -> exec_at RE_XML_TRANSCRIPT s = None.
Proof.
  intros H. destruct (exec_at RE_XML_TRANSCRIPT s) eqn:E; [|reflexivity].
  exfalso. apply H, exec_at_starts_element. congruence.
Qed.

(** The search passes over a gap in which no element begins. *)
Lemma matchAll_go_free (g s : jsstring) :
  (forall u v, g = u ++ v -> v <> [] -> ~ starts_element (v ++ s)) ->
  matchAll_go RE_XML_TRANSCRIPT 0 (g ++ s) = matchAll_go RE_XML_TRANSCRIPT 0 s.
Proof.
  induction g as [|x g IH]; intros H; [reflexivity|].
  cbn [app matchAll_go].
  rewrite (exec_at_not_element (x :: g ++ s)).
  - apply IH. intros u v -> Hv. now apply (H (x :: u) v).
  - apply (H [] (x :: g)); [reflexivity|discriminate].
Qed.

Lemma matchAll_go_nil : matchAll_go RE_XML_TRANSCRIPT 0 [] = [].
Proof. reflexivity. Qed.

(** The matches of a document whose elements are the leftmost ones are
    its elements, in order. *)
Lemma matchAll_leftmost (items : list (jsstring * element)) (tail : jsstring) :
  Forall (fun ge => element_ok (snd ge)) items ->
  leftmost items tail ->
  matchAll RE_XML_TRANSCRIPT (document items tail) =
  map (fun ge => element_captures (snd ge)) items.
Proof.
  intros Hi. unfold matchAll.
  induction Hi as [|[g e] items He Hi IH]; cbn [document map snd leftmost].
  - intros Ht. rewrite <- (app_nil_r tail), matchAll_go_free; [reflexivity|].
    intros u v E _. rewrite app_nil_r. now apply (Ht u v).
  - intros [Hg Hl]. cbn [snd] in He. rewrite (matchAll_go_free g _ Hg).
    rewrite matchAll_go_render by exact He. now rewrite IH.
Qed.

(** Every body is such a document. *)
Lemma leftmost_document (n : nat) : forall b,
  (List.length b <= n)%nat ->
  exists items tail,
    b = document items tail /\
    Forall (fun ge => element_ok (snd ge)) items /\
    leftmost items tail.
Proof.
  induction n as [|n IH]; intros b Hlen.
  - destruct b; [|simpl in Hlen; lia]. exists [], []. repeat split; auto.
    intros u v E (e & rest & _ & Hv).
    destruct u; [|discriminate]. simpl in E. subst v.
    now apply (render_nonempty e rest).
  - destruct (exec_at RE_XML_TRANSCRIPT b) as [[caps rest]|] eqn:E.
    + destruct (exec_at_RE_XML_inv _ _ _ E) as (e & He & Hb & _).
      destruct (IH rest) as (items & tail & Hr & Hok & Hleft).
      { subst b. rewrite length_app in Hlen. unfold render in Hlen.
        rewrite length_app in Hlen. simpl in Hlen. lia. }
      exists (([], e) :: items), tail. cbn [document leftmost app].
      repeat split.
      * now rewrite Hb, Hr.
      * now constructor.
      * intros u v Huv Hv. destruct u; [simpl in Huv; congruence|discriminate].
      * exact Hleft.
    + assert (Hnot : ~ starts_element b).
      { intros H. apply exec_at_starts_element in H. congruence. }
      destruct b as [|x b].
      * exists [], []. repeat split; auto.
        intros u v Huv. destruct u; [|discriminate]. simpl in Huv. now subst v.
      * destruct (IH b) as (items & tail & Hb & Hok & Hleft);
          [simpl in Hlen; lia|].
        destruct items as [|[g e] items].
        -- exists [], (x :: tail). cbn [document leftmost] in *.
           repeat split; [now rewrite Hb|constructor|].
           intros u v Huv. destruct u as [|y u].
           ++ simpl in Huv. subst v. now rewrite <- Hb.
           ++ cbn [app] in Huv. injection Huv as _ Huv. now apply (Hleft u v).
        -- exists ((x :: g, e) :: items), tail. cbn [document leftmost] in *.
           destruct Hleft as [Hg Hleft].
           repeat split; [now rewrite Hb|
                          inversion Hok; subst; now constructor| |exact Hleft].
           intros u v Huv Hv. destruct u as [|y u].
           ++ simpl in Huv. subst v. cbn [app]. now rewrite <- Hb.
           ++ cbn [app] in Huv. injection Huv as _ Huv. now apply (Hg u v).
Qed.

(** A text that begins with the opening of an element and goes on into
    a text that begins with [<] has the whole opening to itself: the
    opening has no [<] but its first unit. *)
Lemma starts_with_before_lt (w v s : jsstring) :
  ~ In 60 w ->
  match s with [] => True | x :: _ => x = 60 end ->
  starts_with w (v ++ s) = true -> starts_with w v = true.
Proof.
  intros Hw Hs; revert v; induction w as [|c w IH]; intros v; [reflexivity|].
  destruct v as [|y v]; cbn [app starts_with].
  - destruct s as [|x s]; [discriminate|]. subst x.
    destruct (c =? 60) eqn:E; [|discriminate].
    apply N.eqb_eq in E. exfalso. apply Hw. now left.
  - destruct (c =? y); [|discriminate]. cbn [andb].
    apply IH. intros H. apply Hw. now right.
Qed.

Lemma includes_suffix (p u v : jsstring) :
  includes p (u ++ v) = false -> starts_with p v = false.
Proof.
  induction u as [|x u IH]; cbn [app].
  - destruct v; cbn [includes]; intros H; apply orb_false_iff in H; apply H.
  - cbn [includes]. intros H. apply orb_false_iff in H. apply IH, H.
Qed.

Lemma starts_element_open (s : jsstring) :
  starts_element s -> starts_with XML_OPEN s = true.
Proof.
  intros (e & rest & _ & ->). unfold render. rewrite <- app_assoc.
  apply starts_with_app.
Qed.

(** No element begins in a gap that does not hold the opening of an
    element, when the gap is followed by an element or by nothing. *)
Lemma quiet_gap (g s : jsstring) :
  includes XML_OPEN g = false ->
  match s with [] => True | x :: _ => x = 60 end ->
  forall u v, g = u ++ v -> v <> [] -> ~ starts_element (v ++ s).
Proof.
  intros Hg Hs u v -> Hv Hel.
  apply starts_element_open in Hel.
  pose proof (includes_suffix XML_OPEN u v Hg) as Hno.
  destruct v as [|y v]; [congruence|].
  change XML_OPEN with (60 :: tl XML_OPEN) in Hel, Hno.
  cbn [app starts_with] in Hel, Hno.
  destruct (60 =? y); [|discriminate]. cbn [andb] in Hel, Hno.
  rewrite (starts_with_before_lt (tl XML_OPEN) v s) in Hno;
    [discriminate| |exact Hs|exact Hel].
  vm_compute. intros H. repeat (destruct H as [H|H]; [discriminate H|]).
  exact H.
Qed.

Lemma quiet_leftmost (items : list (jsstring * element)) (tail : jsstring) :
  Forall (fun ge => includes XML_OPEN (fst ge) = false) items ->
  includes XML_OPEN tail = false ->
  leftmost items tail.
Proof.
  intros Hi Ht; induction Hi as [|[g e] items Hg Hi IH]; cbn [leftmost].
  - intros u v -> Hel. apply starts_element_open in Hel.
    now rewrite (includes_suffix XML_OPEN u v Ht) in Hel.
  - split; [|exact IH]. cbn [fst] in Hg.
    apply quiet_gap; [exact Hg|]. reflexivity.
Qed.

(** On a document, the segments are those of its elements, in order. *)
Lemma parseTranscript_on_document captions config l items tail :
  Forall (fun ge => no_lt (fst ge) /\ element_ok (snd ge)) items ->
  no_lt tail ->
  reported_lang captions config = Ok l ->
  parseTranscript captions config (document items tail) =
  Ok (map (fun ge => segment_of l (snd ge)) items).
Proof.
  intros Hi Ht Hl. unfold parseTranscript.
  rewrite (matchAll_document items tail Hi Ht), Array_map_map.
  apply Array_map_Ok. intros [g e]. now rewrite Hl.
Qed.

Lemma parseTranscript_leftmost captions config l items tail :
  Forall (fun ge => element_ok (snd ge)) items ->
  leftmost items tail ->
  reported_lang captions config = Ok l ->
  parseTranscript captions config (document items tail) =
  Ok (map (fun ge => segment_of l (snd ge)) items).
Proof.
  intros Hi Ht Hl. unfold parseTranscript.
  rewrite (matchAll_leftmost items tail Hi Ht), Array_map_map.
  apply Array_map_Ok. intros [g e]. now rewrite Hl.
Qed.

(** ** The numbers of a segment *)

Lemma parseFloat_nearest s neg m e p q :
  decimal_prefix s = Dec neg m e -> m <> 0 -> fraction m e = (p, q) ->
  nearest_double neg p q (parseFloat s).
Proof.
  intros Hs Hm Hf. unfold parseFloat. rewrite Hs.
  now apply to_double_nearest.
Qed.

Lemma digit_cases c :
  is_digit c = true ->
  c = 48 \/ c = 49 \/ c = 50 \/ c = 51 \/ c = 52 \/
  c = 53 \/ c = 54 \/ c = 55 \/ c = 56 \/ c = 57.
Proof.
  unfold is_digit. intros H. apply andb_true_iff in H. destruct H as [H1 H2].
  apply N.leb_le in H1. apply N.leb_le in H2. lia.
Qed.

Lemma take_digits_app ds rest :
  Forall (fun c => is_digit c = true) ds ->
  match rest with [] => True | c :: _ => is_digit c = false end ->
  take_digits (ds ++ rest) = (ds, rest).
Proof.
  intros Hd Hr; induction Hd as [|c ds Hc Hd IH]; cbn [app take_digits].
  - destruct rest as [|c rest]; [reflexivity|]. cbn [take_digits]. now rewrite Hr.
  - now rewrite Hc, IH.
Qed.

(** A value written as digits, a point and digits is read as the decimal
    that it writes. *)
Lemma decimal_prefix_numeral int frac :
  int <> [] ->
  Forall (fun c => is_digit c = true) int ->
  Forall (fun c => is_digit c = true) frac ->
  decimal_prefix (int ++ 46 :: frac)
  = Dec false (digits_value (int ++ frac)) (- Z.of_nat (List.length frac)).
Proof.
  intros Hne Hi Hf. unfold decimal_prefix.
  destruct int as [|c int]; [congruence|].
  inversion Hi as [|? ? Hc Hi']; subst.
  assert (Hfront : strip_sign (drop_spaces ((c :: int) ++ 46 :: frac))
                   = (false, (c :: int) ++ 46 :: frac) /\
                   starts_with (str "Infinity") ((c :: int) ++ 46 :: frac)
                   = false).
  { destruct (digit_cases c Hc) as [E|[E|[E|[E|[E|[E|[E|[E|[E|E]]]]]]]]];
      subst c; split; reflexivity. }
  destruct Hfront as [-> ->].
  rewrite (take_digits_app (c :: int) (46 :: frac) Hi); [|reflexivity].
  cbn [fraction_part]. change (46 =? 46) with true. cbv iota.
  rewrite <- (app_nil_r frac) at 1.
  rewrite (take_digits_app frac [] Hf I). cbn [exponent_part app].
  reflexivity.
Qed.

(** C5. Parsing a timed-text body returns one segment for each element
    of the shape the pattern describes, in document order: the offset is
    the Number that [parseFloat] reads off the [start] value, the
    duration the Number that it reads off the [dur] value, the text the
    inner text as it stands.  Every body is a document of well-formed
    elements, each one the first to begin after the one before it, and
    its segments are those of these elements, in order; whenever a body
    is written as such a document, these are its segments; and so it is
    for a document whose gaps and tail do not hold the opening of an
    element, such as the declaration and the enclosing element of a
    timed-text resource.  The Number read off a value is the double
    nearest to the decimal that the value begins with, and a value
    written as digits, a point and digits begins with the decimal that it
    writes. *)
Theorem parseTranscript_elements captions config l :
  reported_lang captions config = Ok l ->
  (forall b,
      exists items tail,
        b = document items tail /\
        Forall (fun ge => element_ok (snd ge)) items /\
        leftmost items tail /\
        parseTranscript captions config b =
        Ok (map (fun ge => segment_of l (snd ge)) items)) /\
  (forall items tail,
      Forall (fun ge => element_ok (snd ge)) items ->
      leftmost items tail ->
      parseTranscript captions config (document items tail) =
      Ok (map (fun ge => segment_of l (snd ge)) items)) /\
  (forall items tail,
      Forall (fun ge => includes XML_OPEN (fst ge) = false /\
                        element_ok (snd ge)) items ->
      includes XML_OPEN tail = false ->
      parseTranscript captions config (document items tail) =
      Ok (map (fun ge => segment_of l (snd ge)) items)) /\
  (forall e neg m x p q,
      m <> 0 -> fraction m x = (p, q) ->
      (decimal_prefix (el_start e) = Dec neg m x ->
       nearest_double neg p q (offset (segment_of l e))) /\
      (decimal_prefix (el_dur e) = Dec neg m x ->
       nearest_double neg p q (duration (segment_of l e)))) /\
  (forall int frac,
      int <> [] ->
      Forall (fun c => is_digit c = true) int ->
      Forall (fun c => is_digit c = true) frac ->
      decimal_prefix (int ++ 46 :: frac)
      = Dec false (digits_value (int ++ frac))
          (- Z.of_nat (List.length frac))).
Proof.
  intros Hl. split; [|split; [|split; [|split]]].
  - intros b.
    destruct (leftmost_document (List.length b) b (le_n _))
      as (items & tail & Hb & Hok & Hleft).
    exists items, tail. repeat split; auto.
    rewrite Hb. now apply parseTranscript_leftmost.
  - intros items tail Hok Hleft. now apply parseTranscript_leftmost.
  - intros items tail Hi Ht. apply parseTranscript_leftmost; [| |exact Hl].
    + eapply Forall_impl; [|exact Hi]. now intros ge [_ H].
    + apply quiet_leftmost; [|exact Ht].
      eapply Forall_impl; [|exact Hi]. now intros ge [H _].
  - intros e neg m x p q Hm Hf. cbn [segment_of offset duration].
    split; intros H; now apply (parseFloat_nearest _ neg m x p q).
  - apply decimal_prefix_numeral.
Qed.

Lemma parseTranscript_elements_witness :
  parseTranscript JUndefined (Some {| lang := Some (str "en") |}) sample_xml =
  Ok (sample_segments (JStr (str "en"))) /\
  parseTranscript JUndefined (Some {| lang := Some (str "en") |}) wrapped_xml =
  Ok (sample_segments (JStr (str "en"))) /\
  parseTranscript JUndefined (Some {| lang := Some (str "en") |}) rounded_xml =
  Ok (rounded_segments (JStr (str "en"))).
Proof.
  pose proof (proj1 (proj2 (proj2 (parseTranscript_elements JUndefined
                (Some {| lang := Some (str "en") |}) (JStr (str "en"))
                eq_refl)))) as H.
  split; [|split].
  - refine (H [([], {| el_start := str "1.5"; el_dur := str "2.0";
                       el_text := str "Hello" |});
               ([], {| el_start := str "3.5"; el_dur := str "1.0";
                       el_text := str "World" |})]
              [] _ _).
    + repeat constructor.
    + reflexivity.
  - refine (H [(qstr "<?xml version='1.0' encoding='utf-8' ?><transcript>",
                {| el_start := str "1.5"; el_dur := str "2.0";
                   el_text := str "Hello" |});
               ([], {| el_start := str "3.5"; el_dur := str "1.0";
                       el_text := str "World" |})]
              (str "</transcript>") _ _).
    + repeat constructor.
    + reflexivity.
  - assert (E : rounded_segments (JStr (str "en"))
                = map (fun ge => segment_of (JStr (str "en")) (snd ge))
                    [([], {| el_start := str "0.1";
                             el_dur := str "9007199254740993";
                             el_text := str "a" |});
                     ([10], {| el_start := str " 12.5e1x";
                               el_dur := str "1e400";
                               el_text := str "b" |})])
      by (vm_compute; reflexivity).
    rewrite E.
    refine (H [([], {| el_start := str "0.1";
                       el_dur := str "9007199254740993";
                       el_text := str "a" |});
               ([10], {| el_start := str " 12.5e1x";
                         el_dur := str "1e400";
                         el_text := str "b" |})]
              [] _ _).
    + repeat constructor.
    + reflexivity.
Defined.

(** ** Malformed attribute values *)

Lemma decimal_prefix_non_numeric (s : jsstring) :
  non_numeric s = true <-> decimal_prefix s = NaN.
Proof.
  unfold non_numeric, decimal_prefix.
  destruct (strip_sign (drop_spaces s)) as [neg s1]. cbn [snd].
  destruct (starts_with (str "Infinity") s1); cbn [negb andb];
    [split; discriminate|].
  destruct s1 as [|c r]; [split; reflexivity|].
  cbn [take_digits]. destruct (is_digit c) eqn:Dc; cbn [negb andb].
  - destruct (take_digits r) as [d r']. destruct (fraction_part r') as [f r2].
    cbn [app]. split; [discriminate|].
    destruct (exponent_part r2) as [[x ?]|]; discriminate.
  - cbn [fraction_part]. destruct (c =? 46); cbn [andb negb app];
      [|split; reflexivity].
    destruct r as [|d r']; [split; reflexivity|].
    cbn [take_digits]. destruct (is_digit d); cbn [negb];
      [|split; reflexivity].
    destruct (take_digits r') as [d' r2]. cbn [app]. split; [discriminate|].
    destruct (exponent_part r2) as [[x ?]|]; discriminate.
Qed.

(** Rounding gives NaN for NaN only. *)
Lemma to_double_NaN (d : number) : to_double d = NaN <-> d = NaN.
Proof.
  split; [|now intros ->].
  destruct d as [|neg|neg m e]; cbn [to_double]; try discriminate; auto.
  destruct (m =? 0); [discriminate|].
  destruct (fraction m e) as [p q].
  destruct (nearest_binary p q) as [[n x]|]; [|discriminate].
  unfold decimal_of_binary.
  destruct (_ =? 0)%Z; [discriminate|].
  destruct (if (0 <=? _)%Z then _ else _) as [m1 e1].
  destruct (strip_zeros _ m1 e1). discriminate.
Qed.

Lemma parseFloat_non_numeric (s : jsstring) :
  non_numeric s = true <-> parseFloat s = NaN.
Proof.
  unfold parseFloat. rewrite to_double_NaN. apply decimal_prefix_non_numeric.
Qed.

(** Once the processor has a URL to fetch, the language it reports is
    defined, so making the segments cannot fail. *)
Lemma reported_lang_defined captions videoId config url :
  transcriptURL captions videoId config = Ok url ->
  exists l, reported_lang captions config = Ok l.
Proof.
  unfold transcriptURL, reported_lang.
  destruct (config_lang config) as [l|] eqn:Cl; [eauto|].
  destruct (negb (truthy captions)); [discriminate|].
  destruct (has_property _ captions) as [has|]; [|discriminate]. cbn [rbind].
  destruct (negb has); [discriminate|].
  destruct (check_language captions videoId config); [|discriminate].
  cbn [rbind]. unfold selectTrack, truthy_lang. rewrite Cl.
  destruct (captionTracks captions) as [tracks|]; [|discriminate]. cbn [rbind].
  destruct (index0 tracks) as [first|]; [|discriminate]. cbn [rbind].
  destruct first; simpl; try discriminate; eauto.
Qed.

Lemma parseTranscript_matches captions config l b :
  reported_lang captions config = Ok l ->
  parseTranscript captions config b =
  Ok (map (segment_of_match l) (matchAll RE_XML_TRANSCRIPT b)).
Proof.
  intros Hl. unfold parseTranscript. apply Array_map_Ok.
  intros c. now rewrite Hl.
Qed.

(** C10. The timed-text parser validates no number.  Once the processor
    has a URL to fetch, every body is parsed without failure, one
    segment for each match; an element whose attribute values are any
    text without a double quote is matched, and its offset or duration
    is NaN when [parseFloat] cannot read the value; and such segments
    pass the emptiness check of a strategy, so a body of such elements
    is a successful transcript. *)
Theorem timedtext_no_validation captions videoId config url :
  transcriptURL captions videoId config = Ok url ->
  exists l,
    (forall b,
        parseTranscript captions config b =
        Ok (map (segment_of_match l) (matchAll RE_XML_TRANSCRIPT b))) /\
    (forall e rest,
        element_ok e ->
        exec_at RE_XML_TRANSCRIPT (render e ++ rest)
        = Some (element_captures e, rest) /\
        (non_numeric (el_start e) = true -> offset (segment_of l e) = NaN) /\
        (non_numeric (el_dur e) = true -> duration (segment_of l e) = NaN)) /\
    (forall t log items tail method,
        t log (track_request url config)
        = Responded {| ok := true; body := document items tail |} ->
        Forall (fun ge => no_lt (fst ge) /\ element_ok (snd ge)) items ->
        no_lt tail ->
        items <> [] ->
        checked videoId method
          (processTranscriptFromCaptions captions videoId config t log)
        = (Ok (map (fun ge => segment_of l (snd ge)) items),
           track_request url config :: log)).
Proof.
  intros Hurl.
  destruct (reported_lang_defined _ _ _ _ Hurl) as [l Hl]. exists l.
  split; [|split].
  - intros b. now apply parseTranscript_matches.
  - intros e rest He. split; [now apply exec_at_render|].
    split; intros H; now apply parseFloat_non_numeric.
  - intros t log items tail method Hresp Hi Ht Hne.
    rewrite processTranscript_unfold, Hurl. cbv zeta. rewrite Hresp.
    cbn [ok body negb].
    rewrite (parseTranscript_on_document captions config l items tail Hi Ht Hl).
    destruct items as [|ge items]; [congruence|]. reflexivity.
Qed.

Lemma timedtext_no_validation_witness :
  checked sample_id (str "HTML scraping")
    (processTranscriptFromCaptions one_track_captions sample_id None
       (scripted [page (render malformed_element)]) [])
  = (Ok [ {| text := str "x"; duration := NaN; offset := NaN;
             resp_lang := JStr (str "en") |} ],
     [track_request (JStr (str "https://t/en")) None]).
Proof.
  destruct (timedtext_no_validation one_track_captions sample_id None
              (JStr (str "https://t/en")) eq_refl) as (l & Hparse & _ & Hrun).
  assert (Hl : l = JStr (str "en")).
  { specialize (Hparse (render malformed_element)).
    vm_compute in Hparse. now inversion Hparse. }
  subst l.
  apply (Hrun (scripted [page (render malformed_element)]) []
              [([], malformed_element)] [] (str "HTML scraping")).
  - vm_compute; reflexivity.
  - repeat constructor.
  - constructor.
  - discriminate.
Defined.

(** ** The requested language *)

Lemma get_defined tr k :
  tr <> JNull /\ tr <> JUndefined -> get tr k = Ok (get_opt tr k).
Proof.
  intros [H1 H2]. unfold get_opt. destruct tr; simpl; congruence.
Qed.

Lemma Array_some_none l tracks :
  Forall (fun tr => tr <> JNull /\ tr <> JUndefined) tracks ->
  Forall (fun tr => get tr (str "languageCode") <> Ok (JStr l)) tracks ->
  Array_some (languageCode_is l) tracks = Ok false.
Proof.
  intros Hn Hl; induction Hn as [|tr tracks Htr Hn IH]; [reflexivity|].
  inversion Hl as [|? ? Hc Hl']; subst.
  cbn [Array_some]. unfold languageCode_is at 1.
  rewrite (get_defined tr _ Htr) in *. cbn [rbind].
  destruct (strict_eq_string (get_opt tr (str "languageCode")) l) eqn:E.
  - exfalso. apply Hc. unfold strict_eq_string in E.
    destruct (get_opt tr (str "languageCode")); try discriminate.
    apply jseqb_eq in E. now subst.
  - now apply IH.
Qed.

Lemma Array_map_languageCode tracks :
  Forall (fun tr => tr <> JNull /\ tr <> JUndefined) tracks ->
  Array_map (fun track => get track (str "languageCode")) tracks =
  Ok (map languageCode_of tracks).
Proof.
  intros Hn; induction Hn as [|tr tracks Htr Hn IH]; [reflexivity|].
  cbn [Array_map map]. rewrite (get_defined tr _ Htr), IH. reflexivity.
Qed.

(** Induction on a value, with the elements of an array. *)
Lemma value_elements_ind (P : value -> Prop) :
  P JUndefined -> P JNull -> (forall b, P (JBool b)) ->
  (forall n, P (JNum n)) -> (forall s, P (JStr s)) ->
  (forall l, Forall P l -> P (JArr l)) -> (forall m, P (JObj m)) ->
  forall v, P v.
Proof.
  intros Hu Hn Hb Hnum Hs Ha Ho. fix IH 1.
  intros [ | |b|n|s|l|m];
    [exact Hu|exact Hn|apply Hb|apply Hnum|apply Hs| |apply Ho].
  apply Ha. induction l as [|x l IHl]; constructor; [apply IH|exact IHl].
Qed.

Lemma sequence_throws Number_toString l :
  Forall (fun x =>
            if ToString_throws x
            then ToString Number_toString x = Err TypeError
            else exists s, ToString Number_toString x = Ok s) l ->
  if existsb join_element_throws l
  then sequence (map (join_element Number_toString) l) = Err TypeError
  else exists parts, sequence (map (join_element Number_toString) l) = Ok parts.
Proof.
  intros H; induction H as [|x l Hx Hl IH]; cbn [existsb map sequence].
  - now exists [].
  - assert (Hx' : if join_element_throws x
                  then join_element Number_toString x = Err TypeError
                  else exists s, join_element Number_toString x = Ok s).
    { destruct x; cbn [join_element_throws join_element]; try exact Hx;
        now exists []. }
    destruct (join_element_throws x); cbn [orb].
    + now rewrite Hx'.
    + destruct Hx' as [s ->]. cbn [rbind].
      destruct (existsb join_element_throws l).
      * now rewrite IH.
      * destruct IH as [parts ->]. now exists (s :: parts).
Qed.

Lemma Array_join_of_sequence Number_toString sep l :
  (if existsb join_element_throws l
   then sequence (map (join_element Number_toString) l) = Err TypeError
   else exists parts,
       sequence (map (join_element Number_toString) l) = Ok parts) ->
  if Array_join_throws l
  then Array_join Number_toString sep l = Err TypeError
  else exists parts,
      sequence (map (join_element Number_toString) l) = Ok parts /\
      Array_join Number_toString sep l = Ok (join sep parts).
Proof.
  unfold Array_join_throws, Array_join.
  destruct (existsb join_element_throws l); intros H.
  - now rewrite H.
  - destruct H as [parts ->]. now exists parts.
Qed.

(** [ToString_throws] decides whether [ToString] throws, whatever the
    rendering of Numbers is. *)
Lemma ToString_throws_spec Number_toString v :
  if ToString_throws v
  then ToString Number_toString v = Err TypeError
  else exists s, ToString Number_toString v = Ok s.
Proof.
  induction v as [ | |b|n|s|l IH|m] using value_elements_ind;
    try (cbn [ToString_throws ToString]; eauto; fail).
  - destruct b; cbn [ToString_throws ToString]; eauto.
  - change (ToString Number_toString (JArr l))
      with (Array_join Number_toString (str ",") l).
    change (ToString_throws (JArr l)) with (Array_join_throws l).
    pose proof (Array_join_of_sequence Number_toString (str ",") l
                  (sequence_throws Number_toString l IH)) as H.
    destruct (Array_join_throws l); [exact H|].
    destruct H as (parts & _ & H). eauto.
  - cbn [ToString_throws ToString].
    destruct (own_property m (str "toString")); eauto.
Qed.

Lemma Array_join_throws_spec Number_toString sep l :
  if Array_join_throws l
  then Array_join Number_toString sep l = Err TypeError
  else exists parts,
      sequence (map (join_element Number_toString) l) = Ok parts /\
      Array_join Number_toString sep l = Ok (join sep parts).
Proof.
  apply Array_join_of_sequence, sequence_throws.
  apply Forall_forall. intros x _. apply ToString_throws_spec.
Qed.

Lemma sequence_In Number_toString l : forall parts x code,
  sequence (map (join_element Number_toString) l) = Ok parts ->
  In x l -> x = JStr code -> In code parts.
Proof.
  induction l as [|y l IH]; intros parts x code; cbn [map sequence].
  - intros _ [].
  - destruct (join_element Number_toString y) as [s|] eqn:E; [|discriminate].
    cbn [rbind].
    destruct (sequence (map (join_element Number_toString) l)) as [ps|];
      [|discriminate].
    cbn [rbind]. intros H; inversion H; subst parts.
    intros [->|Hin] Hc.
    + subst. cbn in E. inversion E. now left.
    + right. eapply IH; eauto.
Qed.

Lemma sequence_strings Number_toString cs :
  sequence (map (join_element Number_toString) (map JStr cs)) = Ok cs.
Proof.
  induction cs as [|c cs IH]; [reflexivity|].
  cbn [map sequence join_element ToString rbind]. now rewrite IH.
Qed.

Lemma Array_join_throws_strings cs : Array_join_throws (map JStr cs) = false.
Proof. induction cs as [|c cs IH]; [reflexivity|exact IH]. Qed.

(** What the check of the language comes to when no track has the
    requested code. *)
Lemma processTranscript_no_track captions videoId config l m tracks t log :
  truthy_lang config = Some l ->
  captions = JObj m ->
  own_property m (str "captionTracks") = Some (JArr tracks) ->
  Forall (fun tr => tr <> JNull /\ tr <> JUndefined) tracks ->
  Forall (fun tr => get tr (str "languageCode") <> Ok (JStr l)) tracks ->
  processTranscriptFromCaptions captions videoId config t log =
  (Err (new_NotAvailableLanguageError l (map languageCode_of tracks) videoId),
   log).
Proof.
  intros Hl -> Hm Hn Hc.
  rewrite processTranscript_unfold. unfold transcriptURL.
  cbn [truthy negb has_property]. rewrite Hm. cbn [rbind negb].
  unfold check_language, captionTracks. rewrite Hl. cbn [get]. rewrite Hm.
  cbn [rbind as_array].
  rewrite (Array_some_none l tracks Hn Hc). cbn [rbind negb].
  rewrite (Array_map_languageCode tracks Hn). reflexivity.
Qed.

(** C7. When a language is requested and the captions hold a list of
    tracks none of which has that language code, the processor fails
    before any request.  The constructor of the language error joins the
    language codes of all tracks for its message.  When that join does
    not throw, as with codes that are strings, the failure is the
    language-not-available error: it carries the language code of every
    track, its message holds each of them, and for string codes the
    message ends with exactly these codes, separated by a comma and a
    space.  When the join throws (a code that is an object with a member
    [toString]), the failure is that [TypeError] instead. *)
Theorem language_not_available
        Number_toString captions videoId config l m tracks t log :
  truthy_lang config = Some l ->
  captions = JObj m ->
  own_property m (str "captionTracks") = Some (JArr tracks) ->
  Forall (fun tr => tr <> JNull /\ tr <> JUndefined) tracks ->
  Forall (fun tr => get tr (str "languageCode") <> Ok (JStr l)) tracks ->
  let codes := map languageCode_of tracks in
  let e := YoutubeTranscriptNotAvailableLanguageError l codes videoId in
  (Array_join_throws codes = false ->
   processTranscriptFromCaptions captions videoId config t log = (Err e, log) /\
   exists msg,
     message Number_toString e = Some msg /\
     (forall tr code,
         In tr tracks -> languageCode_of tr = JStr code -> is_infix code msg) /\
     (forall cs,
         codes = map JStr cs ->
         msg = base_message
                 (str "No transcripts are available in " ++ l
                    ++ str " this video (" ++ videoId
                    ++ str "). Available languages: "
                    ++ join (str ", ") cs))) /\
  (Array_join_throws codes = true ->
   Array_join Number_toString (str ", ") codes = Err TypeError /\
   processTranscriptFromCaptions captions videoId config t log
   = (Err TypeError, log)) /\
  (forall cs, codes = map JStr cs -> Array_join_throws codes = false).
Proof.
  intros Hl Hcap Hm Hn Hc. cbv zeta.
  pose proof (processTranscript_no_track captions videoId config l m tracks
                t log Hl Hcap Hm Hn Hc) as Hrun.
  unfold new_NotAvailableLanguageError in Hrun.
  pose proof (Array_join_throws_spec Number_toString (str ", ")
                (map languageCode_of tracks)) as Hj.
  split; [|split].
  - intros Hno. rewrite Hno in Hrun, Hj. split; [exact Hrun|].
    destruct Hj as (parts & Hparts & Hjoin).
    cbn [message]. rewrite Hjoin. eexists; split; [reflexivity|]. split.
    + intros tr code Hin Hcode. unfold base_message.
      do 8 apply is_infix_app_l. apply join_infix.
      apply (sequence_In Number_toString (map languageCode_of tracks) parts
               (JStr code) code Hparts); [|reflexivity].
      apply in_map_iff. exists tr. now split.
    + intros cs Hcs. rewrite Hcs, sequence_strings in Hparts.
      now inversion Hparts.
  - intros Hyes. rewrite Hyes in Hrun, Hj. now split.
  - intros cs ->. apply Array_join_throws_strings.
Qed.

Lemma language_not_available_witness :
  (processTranscriptFromCaptions two_track_captions sample_id
     (Some {| lang := Some (str "de") |}) (scripted []) []
   = (Err (YoutubeTranscriptNotAvailableLanguageError (str "de")
             [JStr (str "en"); JStr (str "fr")] sample_id), []) /\
   message (fun _ => [])
     (YoutubeTranscriptNotAvailableLanguageError (str "de")
        [JStr (str "en"); JStr (str "fr")] sample_id)
   = Some (base_message (str "No transcripts are available in de this video (dQw4w9WgXcQ). Available languages: en, fr"))) /\
  processTranscriptFromCaptions toString_captions sample_id
    (Some {| lang := Some (str "de") |}) (scripted []) []
  = (Err TypeError, []).
Proof.
  split.
  - destruct (language_not_available (fun _ => []) two_track_captions
                sample_id (Some {| lang := Some (str "de") |}) (str "de")
                [(str "captionTracks", JArr sample_tracks)] sample_tracks
                (scripted []) []) as (Hno & _ & _).
    + reflexivity.
    + reflexivity.
    + reflexivity.
    + repeat constructor; discriminate.
    + repeat constructor; vm_compute; discriminate.
    + destruct (Hno eq_refl) as (Hrun & msg & Hmsg & _ & Hexact).
      split; [exact Hrun|].
      rewrite (Hexact [str "en"; str "fr"] eq_refl) in Hmsg. exact Hmsg.
  - refine (proj2 (proj1 (proj2
             (language_not_available (fun _ => []) toString_captions
                sample_id (Some {| lang := Some (str "de") |}) (str "de")
                [(str "captionTracks", JArr toString_tracks)] toString_tracks
                (scripted []) [] _ _ _ _ _)) _)).
    + reflexivity.
    + reflexivity.
    + reflexivity.
    + repeat constructor; discriminate.
    + repeat constructor; vm_compute; discriminate.
    + reflexivity.
Defined.

(** ** The selected track and the reported language *)

Lemma truthy_lang_config_lang config l :
  truthy_lang config = Some l -> config_lang config = Some l /\ l <> [].
Proof.
  unfold truthy_lang. destruct (config_lang config) as [[|x l0]|];
    [discriminate| |discriminate].
  intros H; inversion H; subst. split; [reflexivity|discriminate].
Qed.

Lemma languageCode_is_true l tr :
  languageCode_is l tr = Ok true -> get tr (str "languageCode") = Ok (JStr l).
Proof.
  unfold languageCode_is. destruct (get tr (str "languageCode")) as [code|];
    [|discriminate]. cbn [rbind]. intros H; inversion H as [E].
  destruct code; try discriminate. apply jseqb_eq in E. now subst.
Qed.

(** [find] returns the first element on which [some] stopped. *)
Lemma Array_some_find f l :
  Array_some f l = Ok true ->
  exists pre x post,
    l = pre ++ x :: post /\ Array_find f l = Ok x /\ f x = Ok true /\
    Forall (fun y => f y = Ok false) pre.
Proof.
  induction l as [|y l IH]; [discriminate|]. cbn [Array_some Array_find].
  destruct (f y) as [[|]|] eqn:F; cbn [rbind]; [| |discriminate].
  - intros _. exists [], y, l. repeat split; auto.
  - intros H. destruct (IH H) as (pre & x & post & -> & Hf & Hx & Hpre).
    exists (y :: pre), x, post. repeat split; auto.
Qed.

Lemma segments_lang captions config v b segs :
  reported_lang captions config = Ok v ->
  parseTranscript captions config b = Ok segs ->
  Forall (fun s => resp_lang s = v) segs.
Proof.
  intros Hv. rewrite (parseTranscript_matches _ _ _ b Hv).
  intros H; inversion H; subst. apply Forall_forall.
  intros s Hs. apply in_map_iff in Hs. destruct Hs as (c & <- & _). reflexivity.
Qed.

Lemma processTranscript_Ok captions videoId config t log segs log' :
  processTranscriptFromCaptions captions videoId config t log = (Ok segs, log') ->
  exists url b,
    transcriptURL captions videoId config = Ok url /\
    log' = track_request url config :: log /\
    parseTranscript captions config b = Ok segs.
Proof.
  rewrite processTranscript_unfold.
  destruct (transcriptURL captions videoId config) as [url|]; [|discriminate].
  cbv zeta. destruct (t log (track_request url config)) as [|r]; [discriminate|].
  destruct (negb (ok r)); [discriminate|].
  intros H; inversion H; subst. exists url, (body r). auto.
Qed.

Lemma transcriptURL_Ok captions videoId config url :
  transcriptURL captions videoId config = Ok url ->
  check_language captions videoId config = Ok tt /\
  exists track,
    selectTrack captions config = Ok track /\
    get track (str "baseUrl") = Ok url.
Proof.
  unfold transcriptURL.
  destruct (negb (truthy captions)); [discriminate|].
  destruct (has_property _ captions) as [has|]; [|discriminate]. cbn [rbind].
  destruct (negb has); [discriminate|].
  destruct (check_language captions videoId config) as [[]|]; [|discriminate].
  cbn [rbind].
  destruct (selectTrack captions config) as [track|]; [|discriminate].
  cbn [rbind]. eauto.
Qed.

(** With a requested language, the track fetched is the first one whose
    language code is that language, and every segment carries it. *)
Lemma processTranscript_requested captions videoId config l t log segs log' :
  truthy_lang config = Some l ->
  processTranscriptFromCaptions captions videoId config t log = (Ok segs, log') ->
  exists arr pre track post url,
    captionTracks captions = Ok (JArr arr) /\
    arr = pre ++ track :: post /\
    Forall (fun y => languageCode_is l y = Ok false) pre /\
    get track (str "languageCode") = Ok (JStr l) /\
    selectTrack captions config = Ok track /\
    get track (str "baseUrl") = Ok url /\
    log' = track_request url config :: log /\
    Forall (fun s => resp_lang s = JStr l) segs.
Proof.
  intros Hl Hp.
  destruct (processTranscript_Ok _ _ _ _ _ _ _ Hp) as (url & b & Hu & -> & Hb).
  destruct (transcriptURL_Ok _ _ _ _ Hu) as (Hc & track & Hs & Hg).
  destruct (truthy_lang_config_lang _ _ Hl) as [Hcl _].
  unfold check_language in Hc. unfold selectTrack in Hs. rewrite Hl in Hc, Hs.
  destruct (captionTracks captions) as [tracks|] eqn:Ct; [|discriminate].
  cbn [rbind] in Hc, Hs. destruct tracks; try discriminate.
  cbn [as_array rbind] in Hc, Hs.
  destruct (Array_some (languageCode_is l) l0) as [[|]|] eqn:S;
    cbn [rbind negb] in Hc.
  - destruct (Array_some_find _ _ S) as (pre & x & post & E & Hf & Hx & Hpre).
    rewrite Hf in Hs. inversion Hs; subst x.
    exists l0, pre, track, post, url. repeat split; auto.
    + now apply languageCode_is_true.
    + unfold selectTrack. rewrite Hl, Ct. cbn [rbind as_array]. exact Hf.
    + eapply segments_lang; [|exact Hb]. unfold reported_lang. now rewrite Hcl.
  - destruct (Array_map _ l0); discriminate.
  - discriminate.
Qed.

(** With no language in the configuration, the track fetched is the
    first one, and every segment carries its language code. *)
Lemma processTranscript_default captions videoId config t log segs log' :
  config_lang config = None ->
  processTranscriptFromCaptions captions videoId config t log = (Ok segs, log') ->
  exists tracks first url code,
    captionTracks captions = Ok tracks /\
    index0 tracks = Ok first /\
    get first (str "baseUrl") = Ok url /\
    get first (str "languageCode") = Ok code /\
    log' = track_request url config :: log /\
    Forall (fun s => resp_lang s = code) segs.
Proof.
  intros Hcl Hp.
  destruct (processTranscript_Ok _ _ _ _ _ _ _ Hp) as (url & b & Hu & -> & Hb).
  destruct (transcriptURL_Ok _ _ _ _ Hu) as (_ & track & Hs & Hg).
  unfold selectTrack, truthy_lang in Hs. rewrite Hcl in Hs.
  destruct (captionTracks captions) as [tracks|] eqn:Ct; [|discriminate].
  cbn [rbind] in Hs.
  assert (Hcode : exists code, get track (str "languageCode") = Ok code).
  { destruct track; simpl in Hg |- *; try discriminate; eauto. }
  destruct Hcode as [code Hcode].
  exists tracks, track, url, code. repeat split; auto.
  eapply segments_lang; [|exact Hb].
  unfold reported_lang. rewrite Hcl, Ct. cbn [rbind]. rewrite Hs. exact Hcode.
Qed.

(** With the empty string as language, the track fetched is the first
    one, as with no language, yet every segment carries the empty
    string. *)
Lemma processTranscript_empty_lang captions videoId t log segs log' :
  processTranscriptFromCaptions captions videoId empty_lang_config t log
  = (Ok segs, log') ->
  exists tracks first url,
    captionTracks captions = Ok tracks /\
    index0 tracks = Ok first /\
    get first (str "baseUrl") = Ok url /\
    log' = track_request url empty_lang_config :: log /\
    Forall (fun s => resp_lang s = JStr []) segs.
Proof.
  intros Hp.
  destruct (processTranscript_Ok _ _ _ _ _ _ _ Hp) as (url & b & Hu & -> & Hb).
  destruct (transcriptURL_Ok _ _ _ _ Hu) as (_ & track & Hs & Hg).
  unfold selectTrack in Hs. cbn in Hs.
  destruct (captionTracks captions) as [tracks|] eqn:Ct; [|discriminate].
  cbn [rbind] in Hs.
  exists tracks, track, url. repeat split; auto.
  eapply segments_lang; [|exact Hb]. reflexivity.
Qed.

(** C4, at the configuration with the empty string as language: the
    first track, English, is fetched, as when no language is requested,
    and the segments carry the empty string instead of its language
    code. *)
Theorem empty_lang_reported :
  truthy_lang empty_lang_config = None /\
  fetchTranscript sample_id empty_lang_config
    (scripted [page sample_page; page sample_xml]) []
  = (Ok (sample_segments (JStr [])),
     [track_request (JStr (str "https://t/en")) empty_lang_config;
      watch_request sample_id empty_lang_config]) /\
  reported_lang two_track_captions None = Ok (JStr (str "en")).
Proof. repeat split; vm_compute; reflexivity. Qed.

(** ** The captions read off the page *)

Lemma replace_first_char_absent c s :
  existsb (N.eqb c) s = false -> replace_first_char c s = s.
Proof.
  induction s as [|x s IH]; simpl; [reflexivity|].
  rewrite (N.eqb_sym c x). destruct (x =? c); simpl; [discriminate|].
  intros H; now rewrite IH.
Qed.

(** Only the first line feed goes. *)
Lemma replace_first_char_first c a b :
  existsb (N.eqb c) a = false ->
  replace_first_char c (a ++ c :: b) = a ++ b.
Proof.
  induction a as [|x a IH]; simpl.
  - now rewrite N.eqb_refl.
  - rewrite (N.eqb_sym c x). destruct (x =? c); simpl; [discriminate|].
    intros H; now rewrite IH.
Qed.

(** A fragment that does not parse gives absent captions, and the
    failure is the processor's: transcript disabled. *)
Lemma scraped_captions_parse_failure parts videoId config t log :
  JSON_parse (captions_fragment parts) = None ->
  scraped_captions parts = JUndefined /\
  processTranscriptFromCaptions (scraped_captions parts) videoId config t log
  = (Err (YoutubeTranscriptDisabledError videoId), log).
Proof.
  intros H. unfold scraped_captions. rewrite H. split; reflexivity.
Qed.

(** C6, at a page whose fragment has two line feeds: the code removes
    the first one only, the fragment handed to [JSON.parse] still has a
    line feed inside a string and does not parse, and the call fails
    with transcript disabled; with every line feed stripped the fragment
    parses to the captions of the page. *)
Theorem second_newline_kept :
  let parts := split CAPTIONS_MARKER newline_page in
  In 10 (captions_fragment parts) /\
  JSON_parse (captions_fragment parts) = None /\
  fetchTranscript sample_id None (scripted [page newline_page; page sample_xml]) []
  = (Err (YoutubeTranscriptDisabledError sample_id),
     [watch_request sample_id None]) /\
  JSON_parse (captions_fragment_spec parts)
  = Some (JObj [(str "playerCaptionsTracklistRenderer", one_track_captions)]).
Proof.
  cbv zeta. split; [|repeat split; vm_compute; reflexivity].
  assert (H : existsb (N.eqb 10)
                (captions_fragment (split CAPTIONS_MARKER newline_page)) = true)
    by (vm_compute; reflexivity).
  apply existsb_exists in H. destruct H as (x & Hin & Hx).
  apply N.eqb_eq in Hx. now subst x.
Qed.

(** * The identifier pattern *)

Lemma rmatch_Star_Chr_fail {A} p s c (k : @cont A) :
  (forall u v, s = u ++ v -> Forall (fun x => p x = true) u -> k v c = None) ->
  rmatch (Star (Chr p)) s c k = None.
Proof.
  induction s as [|x s IH]; intros H.
  - rewrite rmatch_Star_Chr_nil. apply (H [] []); [reflexivity|constructor].
  - rewrite rmatch_Star_Chr_cons.
    assert (Hk : k (x :: s) c = None)
      by (apply (H [] (x :: s)); [reflexivity|constructor]).
    rewrite Hk. destruct (p x) eqn:Px; [|reflexivity].
    rewrite IH; [reflexivity|].
    intros u v -> Hu. apply (H (x :: u) v); [reflexivity|now constructor].
Qed.

Lemma rmatch_Star_Chr_true {A} p x s c (k : @cont A) :
  p x = true ->
  rmatch (Star (Chr p)) (x :: s) c k =
  orelse (rmatch (Star (Chr p)) s c k) (k (x :: s) c).
Proof. intros H. now rewrite rmatch_Star_Chr_cons, H. Qed.

Lemma rmatch_Chr_cons {A} p x s c (k : @cont A) :
  rmatch (Chr p) (x :: s) c k = if p x then k s c else None.
Proof. reflexivity. Qed.

Lemma rmatch_Chr_nil {A} p c (k : @cont A) : rmatch (Chr p) [] c k = None.
Proof. reflexivity. Qed.

Lemma orelse_None_r {A} (a : option A) : orelse a None = a.
Proof. now destruct a. Qed.

(** What an identifier character is not. *)
Lemma id_char_facts x :
  id_char x = true ->
  any_but [47] x = true /\ dot x = true /\ is_query_mark x = false.
Proof.
  unfold id_char, any_but, dot, is_query_mark, is_line_terminator, is_space,
    dquote. cbn [existsb].
  destruct (x =? 34) eqn:E1; [discriminate|].
  destruct (x =? 38) eqn:E2; [discriminate|].
  destruct (x =? 63) eqn:E3; [discriminate|].
  destruct (x =? 47) eqn:E4; [discriminate|].
  cbn [orb negb]. intros H. apply negb_true_iff in H.
  repeat split.
  apply negb_true_iff.
  destruct (x =? 10) eqn:F1; [apply N.eqb_eq in F1; subst; discriminate|].
  destruct (x =? 13) eqn:F2; [apply N.eqb_eq in F2; subst; discriminate|].
  destruct (x =? 8232) eqn:F3; [apply N.eqb_eq in F3; subst; discriminate|].
  destruct (x =? 8233) eqn:F4; [apply N.eqb_eq in F4; subst; discriminate|].
  reflexivity.
Qed.

Lemma rmatch_RE_ID {A} id s c (k : @cont A) :
  id_ok id -> rmatch RE_ID (id ++ s) c k = k s ((1%nat, id) :: c).
Proof.
  intros [Hlen Hid]. unfold RE_ID. rewrite rmatch_Group, <- Hlen.
  rewrite rmatch_Times_Chr by exact Hid. now rewrite firstn_consumed.
Qed.

(** A path with no slash, or with one, is not of the nested form. *)
Lemma RE_NESTED_no_slash {A} s c (k : @cont A) :
  Forall (fun x => any_but [47] x = true) s -> rmatch RE_NESTED s c k = None.
Proof.
  intros Hs. unfold RE_NESTED, Plus. rewrite !rmatch_Seq.
  destruct Hs as [|x s Hx Hs]; [reflexivity|].
  rewrite rmatch_Chr_cons, Hx. apply rmatch_Star_Chr_fail.
  intros u v -> _. apply Forall_app in Hs. destruct Hs as [_ Hv].
  destruct Hv as [|y v Hy Hv]; [reflexivity|].
  rewrite rmatch_Seq. cbn [lit_i str map list_ascii_of_string].
  rewrite rmatch_Seq, rmatch_Chr_cons.
  unfold any_but in Hy. cbn [existsb] in Hy. rewrite orb_false_r in Hy.
  apply negb_true_iff in Hy. unfold is_char_i.
  replace (ascii_upper y =? ascii_upper (N_of_ascii "/")) with false;
    [reflexivity|].
  symmetry. apply N.eqb_neq. intros E. apply N.eqb_neq in Hy. apply Hy.
  unfold ascii_upper in E. simpl in E.
  destruct ((97 <=? y) && (y <=? 122)) eqn:R; [|exact E].
  apply andb_true_iff in R. destruct R as [R1 R2].
  apply N.leb_le in R1. lia.
Qed.

Lemma is_char_i_slash y : is_char_i 47 y = (y =? 47).
Proof.
  unfold is_char_i, ascii_upper. simpl.
  destruct ((97 <=? y) && (y <=? 122)) eqn:R; [|reflexivity].
  apply andb_true_iff in R. destruct R as [R1 R2]. apply N.leb_le in R1.
  transitivity false; [|symmetry]; apply N.eqb_neq; lia.
Qed.

Lemma rmatch_slash {A} s c (k : @cont A) :
  rmatch (lit_i (str "/")) s c k =
  match s with
  | y :: v => if y =? 47 then k v c else None
  | [] => None
  end.
Proof.
  destruct s as [|y v]; [reflexivity|].
  change (rmatch (lit_i (str "/")) (y :: v) c k)
    with (if is_char_i 47 y then k v c else None).
  now rewrite is_char_i_slash.
Qed.

Lemma no_slash_head x s :
  Forall (fun x => any_but [47] x = true) (x :: s) -> (x =? 47) = false.
Proof.
  intros H. inversion H as [|? ? Hx _]; subst.
  unfold any_but in Hx. cbn [existsb] in Hx. rewrite orb_false_r in Hx.
  now apply negb_true_iff in Hx.
Qed.

Lemma slash_after_class_fails {A} s c (k : @cont A) :
  Forall (fun x => any_but [47] x = true) s ->
  forall p, rmatch (Star (Chr p)) s c (fun s' c' => rmatch (lit_i (str "/")) s' c' k)
            = None.
Proof.
  intros Hs p. apply rmatch_Star_Chr_fail. intros u v -> _.
  apply Forall_app in Hs. destruct Hs as [_ Hv]. rewrite rmatch_slash.
  destruct v as [|y v]; [reflexivity|]. now rewrite (no_slash_head y v Hv).
Qed.

Lemma split_before_slash (a b u v : jsstring) :
  a ++ 47 :: b = u ++ v ->
  Forall (fun x => any_but [47] x = true) u ->
  exists a', v = a' ++ 47 :: b /\ a = u ++ a'.
Proof.
  revert a; induction u as [|x u IH]; intros a E Hu.
  - exists a. simpl in E. now subst.
  - destruct a as [|y a]; simpl in E; inversion E; subst.
    + exfalso. pose proof (no_slash_head _ _ Hu) as H. discriminate H.
    + inversion Hu; subst. destruct (IH a H1 H3) as (a' & -> & ->).
      now exists a'.
Qed.

Lemma RE_NESTED_one_slash {A} a b c (k : @cont A) :
  Forall (fun x => any_but [47] x = true) a ->
  Forall (fun x => any_but [47] x = true) b ->
  rmatch RE_NESTED (a ++ 47 :: b) c k = None.
Proof.
  intros Ha Hb. unfold RE_NESTED, Plus. rewrite !rmatch_Seq.
  destruct a as [|x a]; [reflexivity|].
  cbn [app]. rewrite rmatch_Chr_cons.
  inversion Ha as [|? ? Hx Ha']; subst. rewrite Hx.
  apply rmatch_Star_Chr_fail. intros u v E Hu.
  destruct (split_before_slash a b u v E Hu) as (a' & -> & ->).
  apply Forall_app in Ha'. destruct Ha' as [_ Ha'].
  rewrite rmatch_Seq, rmatch_slash.
  destruct a' as [|y a']; cbn [app].
  - rewrite N.eqb_refl, !rmatch_Seq.
    destruct b as [|z b]; [reflexivity|]. rewrite rmatch_Chr_cons.
    destruct (dot z); [|reflexivity].
    inversion Hb; subst. now apply slash_after_class_fails.
  - now rewrite (no_slash_head y a' Ha').
Qed.

(** The keyword paths, whatever follows them. *)
Lemma RE_KEYWORD_v {A} s c (k : @cont A) :
  rmatch RE_KEYWORD (str "v/" ++ s) c k = k s c.
Proof. cbn. now destruct (k s c). Qed.

Lemma RE_KEYWORD_e {A} s c (k : @cont A) :
  rmatch RE_KEYWORD (str "e/" ++ s) c k = k s c.
Proof. cbn. now destruct (k s c). Qed.

Lemma RE_KEYWORD_embed {A} s c (k : @cont A) :
  rmatch RE_KEYWORD (str "embed/" ++ s) c k = k s c.
Proof. cbn. now destruct (k s c). Qed.

Lemma RE_KEYWORD_shorts {A} s c (k : @cont A) :
  rmatch RE_KEYWORD (str "shorts/" ++ s) c k = k s c.
Proof. cbn. now destruct (k s c). Qed.

Lemma RE_KEYWORD_watch {A} s c (k : @cont A) :
  rmatch RE_KEYWORD (str "watch?" ++ s) c k = None.
Proof. reflexivity. Qed.

Lemma query_mark_after_ids_fails {A} id c (k : @cont A) :
  Forall (fun x => id_char x = true) id ->
  rmatch (Star (Chr dot)) id c
    (fun s' c' => rmatch (Seq (Chr is_query_mark) (lit_i (str "v="))) s' c' k)
  = None.
Proof.
  intros Hid. apply rmatch_Star_Chr_fail. intros u v -> _.
  apply Forall_app in Hid. destruct Hid as [_ Hv]. rewrite rmatch_Seq.
  destruct Hv as [|y v Hy Hv]; [reflexivity|].
  rewrite rmatch_Chr_cons.
  destruct (id_char_facts y Hy) as (_ & _ & ->). reflexivity.
Qed.

Ltac walk_query Hid :=
  unfold RE_QUERY; rewrite rmatch_Seq; cbn [str map list_ascii_of_string app];
  repeat (rewrite rmatch_Star_Chr_true by reflexivity);
  rewrite (query_mark_after_ids_fails _ _ _ Hid); cbn.

(** The query forms. *)
Lemma RE_QUERY_watch {A} id c (k : @cont A) :
  Forall (fun x => id_char x = true) id ->
  rmatch RE_QUERY (str "watch?v=" ++ id) c k = k id c.
Proof. intros Hid. walk_query Hid. now destruct (k id c). Qed.

Lemma RE_QUERY_second_parameter {A} id c (k : @cont A) :
  Forall (fun x => id_char x = true) id ->
  rmatch RE_QUERY (str "watch?feature=share&v=" ++ id) c k = k id c.
Proof. intros Hid. walk_query Hid. now destruct (k id c). Qed.

Lemma id_no_slash id :
  Forall (fun x => id_char x = true) id ->
  Forall (fun x => any_but [47] x = true) id.
Proof.
  intros H. eapply Forall_impl; [|exact H]. intros x Hx.
  now destruct (id_char_facts x Hx).
Qed.

Section Shapes.
Context {A : Type}.
Variables (id : jsstring) (c : captures) (k : @cont A) (v : A).
Hypothesis Hid : Forall (fun x => id_char x = true) id.
Hypothesis Hk : k id c = Some v.

Lemma RE_PATH_keyword (kw : jsstring) :
  Forall (fun x => any_but [47] x = true) kw ->
  rmatch RE_KEYWORD (kw ++ 47 :: id) c k = k id c ->
  rmatch RE_PATH (kw ++ 47 :: id) c k = Some v.
Proof using Hid Hk.
  intros Hkw Hmatch. unfold RE_PATH.
  rewrite rmatch_Alt, (RE_NESTED_one_slash kw id c k Hkw (id_no_slash id Hid)).
  rewrite rmatch_Alt, Hmatch, Hk. reflexivity.
Qed.

Lemma RE_PATH_v : rmatch RE_PATH (str "v/" ++ id) c k = Some v.
Proof using Hid Hk.
  apply (RE_PATH_keyword (str "v")); [repeat constructor|apply RE_KEYWORD_v].
Qed.

Lemma RE_PATH_e : rmatch RE_PATH (str "e/" ++ id) c k = Some v.
Proof using Hid Hk.
  apply (RE_PATH_keyword (str "e")); [repeat constructor|apply RE_KEYWORD_e].
Qed.

Lemma RE_PATH_embed : rmatch RE_PATH (str "embed/" ++ id) c k = Some v.
Proof using Hid Hk.
  apply (RE_PATH_keyword (str "embed")); [repeat constructor|].
  apply RE_KEYWORD_embed.
Qed.

Lemma RE_PATH_shorts : rmatch RE_PATH (str "shorts/" ++ id) c k = Some v.
Proof using Hid Hk.
  apply (RE_PATH_keyword (str "shorts")); [repeat constructor|].
  apply RE_KEYWORD_shorts.
Qed.

Lemma RE_PATH_query (q : jsstring) :
  Forall (fun x => any_but [47] x = true) q ->
  rmatch RE_KEYWORD (q ++ id) c k = None ->
  rmatch RE_QUERY (q ++ id) c k = k id c ->
  rmatch RE_PATH (q ++ id) c k = Some v.
Proof using Hid Hk.
  intros Hq Hkw Hqu. unfold RE_PATH.
  rewrite rmatch_Alt, RE_NESTED_no_slash.
  - rewrite rmatch_Alt, Hkw, Hqu, Hk. reflexivity.
  - apply Forall_app. split; [exact Hq|apply id_no_slash, Hid].
Qed.

Lemma RE_PATH_watch : rmatch RE_PATH (str "watch?v=" ++ id) c k = Some v.
Proof using Hid Hk.
  apply RE_PATH_query; [repeat constructor|reflexivity|].
  now apply RE_QUERY_watch.
Qed.

Lemma RE_PATH_second_parameter :
  rmatch RE_PATH (str "watch?feature=share&v=" ++ id) c k = Some v.
Proof using Hid Hk.
  apply RE_PATH_query; [repeat constructor|reflexivity|].
  now apply RE_QUERY_second_parameter.
Qed.
End Shapes.

Lemma exec_at_long_host (path id : jsstring) :
  id_ok id ->
  (forall (k : @cont (captures * jsstring)) v,
      k id [] = Some v -> rmatch RE_PATH (path ++ id) [] k = Some v) ->
  exec_at RE_YOUTUBE (HOST_LONG ++ path ++ id) = Some ([(1%nat, id)], []).
Proof.
  intros Hid Hpath. unfold exec_at, RE_YOUTUBE.
  rewrite rmatch_Seq, rmatch_Alt, rmatch_Seq, rmatch_lit_i.
  erewrite Hpath; [reflexivity|].
  rewrite <- (app_nil_r id) at 1. now rewrite rmatch_RE_ID.
Qed.

Lemma exec_at_short_host (id : jsstring) :
  id_ok id ->
  exec_at RE_YOUTUBE (HOST_SHORT ++ id) = Some ([(1%nat, id)], []).
Proof.
  intros Hid. unfold exec_at, RE_YOUTUBE.
  rewrite rmatch_Seq, rmatch_Alt.
  replace (rmatch (Seq (lit_i HOST_LONG) RE_PATH) (HOST_SHORT ++ id) [] _)
    with (@None (captures * jsstring)) by reflexivity.
  cbn [orelse]. rewrite rmatch_lit_i.
  rewrite <- (app_nil_r id) at 1. now rewrite rmatch_RE_ID.
Qed.

Lemma exec_at_skip (x : N) (s : jsstring) :
  is_char_i 121 x = false -> exec_at RE_YOUTUBE (x :: s) = None.
Proof.
  intros Hx. unfold exec_at, RE_YOUTUBE.
  rewrite rmatch_Seq, rmatch_Alt, rmatch_Seq.
  unfold HOST_LONG, HOST_SHORT. cbn [str map list_ascii_of_string lit_i].
  change (N_of_ascii "y") with 121.
  rewrite !rmatch_Seq, !rmatch_Chr_cons, Hx. reflexivity.
Qed.

Lemma regex_match_skip (pre s : jsstring) caps rest :
  Forall (fun x => is_char_i 121 x = false) pre ->
  exec_at RE_YOUTUBE s = Some (caps, rest) ->
  regex_match RE_YOUTUBE (pre ++ s) = Some caps.
Proof.
  intros Hpre Hs; induction Hpre as [|x pre Hx Hpre IH]; cbn [app].
  - destruct s; cbn [regex_match]; now rewrite Hs.
  - cbn [regex_match]. now rewrite (exec_at_skip x _ Hx).
Qed.

Lemma retrieveVideoId_found (pre s : jsstring) id rest :
  pre <> [] ->
  Forall (fun x => is_char_i 121 x = false) pre ->
  exec_at RE_YOUTUBE (s ++ id) = Some ([(1%nat, id)], rest) ->
  List.length id = 11%nat ->
  retrieveVideoId (pre ++ s ++ id) = Ok id.
Proof.
  intros Hne Hpre Hs Hlen. unfold retrieveVideoId.
  replace (List.length (pre ++ s ++ id) =? 11)%nat with false.
  - now rewrite (regex_match_skip pre (s ++ id) _ _ Hpre Hs).
  - symmetry. apply Nat.eqb_neq. rewrite !length_app, Hlen.
    destruct pre; [congruence|simpl; lia].
Qed.

(** ** What a match of the identifier pattern is *)

Lemma star_loop_consumes {A} (step : jsstring -> captures -> @cont A -> option A)
      (k : @cont A) n :
  (forall s c k0 v,
      step s c k0 = Some v ->
      exists a s' c', s = a ++ s' /\ k0 s' c' = Some v) ->
  forall s c v,
    star_loop step k n s c = Some v ->
    exists a s' c', s = a ++ s' /\ k s' c' = Some v.
Proof.
  intros Hstep; induction n as [|n IH]; intros s c v; cbn [star_loop].
  - intros H. now exists [], s, c.
  - destruct (step s c _) as [w|] eqn:E; cbn [orelse].
    + intros H; inversion H; subst w.
      destruct (Hstep _ _ _ _ E) as (a & s' & c' & -> & Hk).
      destruct (List.length s' <? List.length (a ++ s'))%nat; [|discriminate].
      destruct (IH _ _ _ Hk) as (a2 & s2 & c2 & -> & Hk2).
      exists (a ++ a2), s2, c2. now rewrite <- app_assoc.
    + intros H. now exists [], s, c.
Qed.

(** A match consumes a prefix of its input and hands the rest on. *)
Lemma rmatch_consumes {A} r : forall s c (k : @cont A) v,
  rmatch r s c k = Some v ->
  exists a s' c', s = a ++ s' /\ k s' c' = Some v.
Proof.
  induction r as [|p|r1 IH1 r2 IH2|r1 IH1 r2 IH2|r1 IH1|i r1 IH1];
    intros s c k v; cbn [rmatch].
  - intros H. now exists [], s, c.
  - destruct s as [|x s]; [discriminate|].
    destruct (p x); [|discriminate]. intros H. now exists [x], s, c.
  - intros H. destruct (IH1 _ _ _ _ H) as (a & s' & c' & -> & H2).
    destruct (IH2 _ _ _ _ H2) as (a2 & s2 & c2 & -> & H3).
    exists (a ++ a2), s2, c2. now rewrite <- app_assoc.
  - destruct (rmatch r1 s c k) as [w|] eqn:E; cbn [orelse].
    + intros H; inversion H; subst w. now apply IH1 in E.
    + apply IH2.
  - apply star_loop_consumes. intros s0 c0 k0 v0. apply IH1.
  - intros H. destruct (IH1 _ _ _ _ H) as (a & s' & c' & -> & H2). eauto.
Qed.

Lemma rmatch_lit_i_inv {A} w : forall s c (k : @cont A) v,
  rmatch (lit_i w) s c k = Some v ->
  exists w' s',
    s = w' ++ s' /\ map ascii_upper w' = map ascii_upper w /\ k s' c = Some v.
Proof.
  induction w as [|x w IH]; intros s c k v; cbn [lit_i rmatch].
  - intros H. now exists [], s.
  - destruct s as [|y s]; [discriminate|].
    unfold is_char_i at 1. destruct (ascii_upper y =? ascii_upper x) eqn:E;
      [|discriminate].
    intros H. destruct (IH _ _ _ _ H) as (w' & s' & -> & Hw & Hk).
    exists (y :: w'), s'. apply N.eqb_eq in E. cbn [map]. now rewrite E, Hw.
Qed.

Lemma rmatch_Times_Chr_inv {A} p n : forall s c (k : @cont A) v,
  rmatch (Times n (Chr p)) s c k = Some v ->
  exists a s',
    s = a ++ s' /\ List.length a = n /\ Forall (fun x => p x = true) a /\
    k s' c = Some v.
Proof.
  induction n as [|n IH]; intros s c k v; cbn [Times rmatch].
  - intros H. exists [], s. repeat split; auto.
  - destruct s as [|x s]; [discriminate|].
    destruct (p x) eqn:Px; [|discriminate].
    intros H. destruct (IH _ _ _ _ H) as (a & s' & -> & Hlen & Ha & Hk).
    exists (x :: a), s'. cbn [List.length app]. rewrite Hlen.
    repeat split; auto.
Qed.

Lemma regex_match_inv r s caps :
  regex_match r s = Some caps ->
  exists pre s0 rest, s = pre ++ s0 /\ exec_at r s0 = Some (caps, rest).
Proof.
  induction s as [|x s IH]; cbn [regex_match].
  - destruct (exec_at r []) as [[c rest]|] eqn:E; [|discriminate].
    intros H; inversion H; subst. now exists [], [], rest.
  - destruct (exec_at r (x :: s)) as [[c rest]|] eqn:E.
    + intros H; inversion H; subst. now exists [], (x :: s), rest.
    + intros H. destruct (IH H) as (pre & s0 & rest & -> & Hx).
      now exists (x :: pre), s0, rest.
Qed.

Lemma rmatch_RE_ID_inv s c caps rest :
  rmatch RE_ID s c (fun s' c' => Some (c', s')) = Some (caps, rest) ->
  exists id, s = id ++ rest /\ id_ok id /\ caps = (1%nat, id) :: c.
Proof.
  unfold RE_ID. rewrite rmatch_Group. intros H.
  apply rmatch_Times_Chr_inv in H.
  destruct H as (a & s' & -> & Hlen & Ha & Hk).
  rewrite firstn_consumed in Hk. inversion Hk; subst.
  exists a. repeat split; auto.
Qed.

(** A match starts with a host, and ends with eleven identifier
    characters, which are group 1. *)
Lemma exec_at_RE_YOUTUBE_inv s caps rest :
  exec_at RE_YOUTUBE s = Some (caps, rest) ->
  exists host mid id,
    s = host ++ mid ++ id ++ rest /\ host_shape host mid /\ id_ok id /\
    capture 1 caps = Some id.
Proof.
  unfold exec_at, RE_YOUTUBE. rewrite rmatch_Seq, rmatch_Alt.
  destruct (rmatch (Seq (lit_i HOST_LONG) RE_PATH) s [] _) as [w|] eqn:E;
    cbn [orelse].
  - intros H; inversion H; subst w. rewrite rmatch_Seq in E.
    apply rmatch_lit_i_inv in E. destruct E as (host & s1 & -> & Hh & E1).
    apply rmatch_consumes in E1. destruct E1 as (mid & s2 & c2 & -> & E2).
    apply rmatch_RE_ID_inv in E2. destruct E2 as (id & -> & Hid & ->).
    exists host, mid, id. repeat split; auto; [now left|apply Hid|apply Hid].
  - intros H. apply rmatch_lit_i_inv in H.
    destruct H as (host & s1 & -> & Hh & E1).
    apply rmatch_RE_ID_inv in E1. destruct E1 as (id & -> & Hid & ->).
    exists host, [], id. repeat split; auto; [now right|apply Hid|apply Hid].
Qed.

Lemma URL_SHAPES_resolve id :
  id_ok id ->
  Forall (fun shape => retrieveVideoId (shape ++ id) = Ok id) URL_SHAPES.
Proof.
  intros Hid. pose proof Hid as [Hlen Hch].
  assert (Hy : Forall (fun x => is_char_i 121 x = false) (str "https://www."))
    by (repeat constructor).
  assert (Hy' : Forall (fun x => is_char_i 121 x = false) (str "https://"))
    by (repeat constructor).
  unfold URL_SHAPES. repeat apply Forall_cons; [| | | | | |constructor].
  - apply (retrieveVideoId_found (str "https://www.")
             (HOST_LONG ++ str "watch?v=") id []); auto; [discriminate|].
    rewrite <- app_assoc. apply exec_at_long_host; [exact Hid|].
    intros k v Hk. now apply RE_PATH_watch.
  - apply (retrieveVideoId_found (str "https://") HOST_SHORT id []); auto;
      [discriminate|]. now apply exec_at_short_host.
  - apply (retrieveVideoId_found (str "https://www.")
             (HOST_LONG ++ str "embed/") id []); auto; [discriminate|].
    rewrite <- app_assoc. apply exec_at_long_host; [exact Hid|].
    intros k v Hk. now apply RE_PATH_embed.
  - apply (retrieveVideoId_found (str "https://www.")
             (HOST_LONG ++ str "shorts/") id []); auto; [discriminate|].
    rewrite <- app_assoc. apply exec_at_long_host; [exact Hid|].
    intros k v Hk. now apply RE_PATH_shorts.
  - apply (retrieveVideoId_found (str "https://www.")
             (HOST_LONG ++ str "v/") id []); auto; [discriminate|].
    rewrite <- app_assoc. apply exec_at_long_host; [exact Hid|].
    intros k v Hk. now apply RE_PATH_v.
  - apply (retrieveVideoId_found (str "https://www.")
             (HOST_LONG ++ str "watch?feature=share&v=") id []); auto;
      [discriminate|].
    rewrite <- app_assoc. apply exec_at_long_host; [exact Hid|].
    intros k v Hk. now apply RE_PATH_second_parameter.
Qed.

(** The groups that the module reads are defined in every match. *)
Lemma groups_defined :
  (forall s caps,
      regex_match RE_YOUTUBE s = Some caps -> capture 1 caps <> None) /\
  (forall b caps,
      In caps (matchAll RE_XML_TRANSCRIPT b) ->
      capture 1 caps <> None /\ capture 2 caps <> None /\
      capture 3 caps <> None).
Proof.
  split.
  - intros s caps H.
    destruct (regex_match_inv _ _ _ H) as (pre & s0 & rest & _ & Hx).
    destruct (exec_at_RE_YOUTUBE_inv _ _ _ Hx) as (? & ? & id & _ & _ & _ & E).
    now rewrite E.
  - intros b caps H. unfold matchAll in H.
    destruct (matchAll_go_sound b 0) as (es & E & _). rewrite E in H.
    apply in_map_iff in H. destruct H as (e & <- & _).
    repeat split; discriminate.
Qed.

(** ** Helpers for inputs in any letter case *)

(** A literal under the flag [i] sees the input through upper-casing. *)
Lemma rmatch_lit_i_case {A} w : forall s1 s2 r c (k : @cont A),
  map ascii_upper s1 = map ascii_upper s2 ->
  (List.length s1 <= List.length w)%nat ->
  rmatch (lit_i w) (s1 ++ r) c k = rmatch (lit_i w) (s2 ++ r) c k.
Proof.
  induction w as [|x w IH]; intros s1 s2 r c k E Hlen.
  - destruct s1; [|simpl in Hlen; lia]. destruct s2; [reflexivity|discriminate].
  - destruct s1 as [|a s1], s2 as [|b s2]; try discriminate; [reflexivity|].
    cbn [map] in E. inversion E as [[Eh Et]].
    cbn [app lit_i]. rewrite !rmatch_Seq, !rmatch_Chr_cons.
    assert (Ei : is_char_i x a = is_char_i x b)
      by (unfold is_char_i; now rewrite Eh).
    rewrite Ei. destruct (is_char_i x b); [|reflexivity].
    apply IH; [exact Et|simpl in Hlen; lia].
Qed.

Lemma rmatch_lit_i_any_case {A} w host s c (k : @cont A) :
  map ascii_upper host = map ascii_upper w ->
  rmatch (lit_i w) (host ++ s) c k = k s c.
Proof.
  intros E. rewrite (rmatch_lit_i_case w host w s c k E).
  - apply rmatch_lit_i.
  - apply (f_equal (@List.length N)) in E. rewrite !length_map in E. lia.
Qed.

Lemma exec_at_short_host_any_case host id rest :
  map ascii_upper host = map ascii_upper HOST_SHORT ->
  id_ok id ->
  exec_at RE_YOUTUBE (host ++ id ++ rest) = Some ([(1%nat, id)], rest).
Proof.
  intros Hh Hid. unfold exec_at, RE_YOUTUBE.
  rewrite rmatch_Seq, rmatch_Alt, rmatch_Seq.
  rewrite (rmatch_lit_i_case HOST_LONG host HOST_SHORT _ _ _ Hh).
  2:{ apply (f_equal (@List.length N)) in Hh. rewrite !length_map in Hh.
      rewrite Hh. simpl. lia. }
  replace (rmatch (lit_i HOST_LONG) (HOST_SHORT ++ id ++ rest) [] _)
    with (@None (captures * jsstring)) by reflexivity.
  cbn [orelse]. rewrite rmatch_lit_i_any_case by exact Hh.
  now rewrite rmatch_RE_ID.
Qed.

Lemma retrieveVideoId_at pre s caps rest :
  no_y pre ->
  (12 <= List.length s)%nat ->
  exec_at RE_YOUTUBE s = Some (caps, rest) ->
  retrieveVideoId (pre ++ s) = Ok (group 1 caps).
Proof.
  intros Hpre Hlen Hs. unfold retrieveVideoId.
  replace (List.length (pre ++ s) =? 11)%nat with false.
  - now rewrite (regex_match_skip pre s _ _ Hpre Hs).
  - symmetry. apply Nat.eqb_neq. rewrite length_app. lia.
Qed.

Lemma has_v_param_suffix r1 v :
  has_v_param (r1 ++ v) = false -> has_v_param v = false.
Proof.
  induction r1 as [|x r1 IH]; [auto|]. cbn [app has_v_param].
  intros H. apply orb_false_iff in H. apply IH, H.
Qed.

Lemma query_step_fails {A} v c (k : @cont A) :
  has_v_param v = false ->
  rmatch (Seq (Chr is_query_mark) (lit_i (str "v="))) v c k = None.
Proof.
  destruct v as [|x s]; [reflexivity|]. cbn [has_v_param]. intros H.
  apply orb_false_iff in H. destruct H as [H _].
  rewrite rmatch_Seq, rmatch_Chr_cons.
  destruct (is_query_mark x); [|reflexivity]. cbn [andb] in H.
  destruct s as [|y [|z s]]; [reflexivity| |].
  - change (rmatch (lit_i (str "v=")) [y] c k)
      with (if is_char_i 118 y then @None A else None).
    now destruct (is_char_i 118 y).
  - change (rmatch (lit_i (str "v=")) (y :: z :: s) c k)
      with (if is_char_i 118 y
            then if is_char_i 61 z then k s c else None else None).
    destruct (is_char_i 118 y); [|reflexivity].
    cbn [andb] in H. now rewrite H.
Qed.

(** ** The matcher and the language of a pattern *)

(** What the matcher finds is in the language of the pattern. *)
Lemma rmatch_sound {A} r : forall s c (k : @cont A) v,
  rmatch r s c k = Some v ->
  exists w s' c', s = w ++ s' /\ denotes r w /\ k s' c' = Some v.
Proof.
  induction r as [|p|r1 IH1 r2 IH2|r1 IH1 r2 IH2|r1 IH1|i r1 IH1];
    intros s c k v.
  - cbn [rmatch]. intros H. exists [], s, c. repeat split; auto. constructor.
  - cbn [rmatch]. destruct s as [|x s]; [discriminate|].
    destruct (p x) eqn:Px; [|discriminate]. intros H.
    exists [x], s, c. repeat split; auto. now constructor.
  - rewrite rmatch_Seq. intros H.
    destruct (IH1 _ _ _ _ H) as (w1 & s1 & c1 & -> & L1 & H1).
    destruct (IH2 _ _ _ _ H1) as (w2 & s2 & c2 & -> & L2 & H2).
    exists (w1 ++ w2), s2, c2. rewrite <- app_assoc.
    repeat split; auto. now constructor.
  - rewrite rmatch_Alt. destruct (rmatch r1 s c k) as [a|] eqn:E; cbn [orelse].
    + intros H; inversion H; subst a.
      destruct (IH1 _ _ _ _ E) as (w & s' & c' & -> & L & Hk).
      exists w, s', c'. repeat split; auto. now apply den_Alt_l.
    + intros H. destruct (IH2 _ _ _ _ H) as (w & s' & c' & -> & L & Hk).
      exists w, s', c'. repeat split; auto. now apply den_Alt_r.
  - remember (List.length s) as n eqn:Hn. revert s c v Hn.
    induction n as [n IHn] using lt_wf_ind. intros s c v Hn.
    rewrite rmatch_Star.
    destruct (rmatch r1 s c _) as [a|] eqn:E; cbn [orelse].
    + intros H; inversion H; subst a.
      destruct (IH1 _ _ _ _ E) as (w1 & s1 & c1 & -> & L1 & H1).
      destruct (List.length s1 <? List.length (w1 ++ s1))%nat eqn:Lt;
        [|discriminate].
      apply Nat.ltb_lt in Lt.
      destruct (IHn (List.length s1) ltac:(lia) s1 c1 v eq_refl H1)
        as (w2 & s2 & c2 & -> & L2 & H2).
      exists (w1 ++ w2), s2, c2. rewrite <- app_assoc.
      repeat split; auto. apply den_Star_cons; auto.
      intros ->. simpl in Lt. lia.
    + intros H. exists [], s, c. repeat split; auto. constructor.
  - rewrite rmatch_Group. intros H.
    destruct (IH1 _ _ _ _ H) as (w & s' & c' & -> & L & Hk).
    eexists w, s', _. repeat split; eauto. now constructor.
Qed.

(** When a text of the language begins the input and anything can
    follow it, the matcher finds a match. *)
Lemma rmatch_complete {A} r w :
  denotes r w ->
  forall s c (k : @cont A),
    (forall c', k s c' <> None) -> rmatch r (w ++ s) c k <> None.
Proof.
  induction 1 as [|p x Px|r1 r2 w1 w2 L1 IH1 L2 IH2|r1 r2 w L IH|r1 r2 w L IH
                  |r|r w1 w2 L1 IH1 Hne L2 IH2|i r w L IH]; intros s c k Hk.
  - apply Hk.
  - cbn [app rmatch]. rewrite Px. apply Hk.
  - rewrite <- app_assoc, rmatch_Seq. apply IH1. intros c'. apply IH2, Hk.
  - rewrite rmatch_Alt. specialize (IH s c k Hk).
    destruct (rmatch r1 (w ++ s) c k); [discriminate|congruence].
  - rewrite rmatch_Alt.
    destruct (rmatch r1 (w ++ s) c k); [discriminate|]. apply IH, Hk.
  - rewrite rmatch_Star. cbn [app].
    destruct (rmatch r s c _); [discriminate|]. apply Hk.
  - rewrite rmatch_Star, <- app_assoc.
    match goal with
    | |- orelse ?X _ <> None => assert (HX : X <> None)
    end.
    { apply IH1. intros c'.
      replace (List.length (w2 ++ s) <? List.length (w1 ++ w2 ++ s))%nat
        with true.
      - apply IH2, Hk.
      - symmetry. apply Nat.ltb_lt. rewrite (length_app w1).
        destruct w1; [congruence|simpl; lia]. }
    match goal with
    | |- orelse ?X _ <> None => destruct X; [discriminate|congruence]
    end.
  - rewrite rmatch_Group. apply IH. intros c'. apply Hk.
Qed.

(** A match attempt succeeds exactly when a text of the language begins
    the input. *)
Lemma exec_at_denotes r s :
  exec_at r s <> None <-> exists w s', s = w ++ s' /\ denotes r w.
Proof.
  unfold exec_at. split.
  - destruct (rmatch r s [] _) as [v|] eqn:E; [intros _|congruence].
    destruct (rmatch_sound _ _ _ _ _ E) as (w & s' & c' & -> & L & _).
    now exists w, s'.
  - intros (w & s' & -> & L). apply rmatch_complete; [exact L|discriminate].
Qed.

(** The search returns the match at the first place that has one. *)
Lemma regex_match_first r s caps :
  regex_match r s = Some caps ->
  exists pre s0 rest,
    s = pre ++ s0 /\ exec_at r s0 = Some (caps, rest) /\
    forall u v, pre = u ++ v -> v <> [] -> exec_at r (v ++ s0) = None.
Proof.
  induction s as [|x s IH]; cbn [regex_match].
  - destruct (exec_at r []) as [[c rest]|] eqn:E; [|discriminate].
    intros H; inversion H; subst. exists [], [], rest. repeat split; auto.
    intros u v Huv Hv. destruct u, v; try discriminate. congruence.
  - destruct (exec_at r (x :: s)) as [[c rest]|] eqn:E.
    + intros H; inversion H; subst. exists [], (x :: s), rest.
      repeat split; auto.
      intros u v Huv Hv. destruct u, v; try discriminate. congruence.
    + intros H. destruct (IH H) as (pre & s0 & rest & -> & Hx & Hfirst).
      exists (x :: pre), s0, rest. repeat split; auto.
      intros u v Huv Hv. destruct u as [|y u].
      * simpl in Huv. subst v. exact E.
      * cbn [app] in Huv. injection Huv as _ Huv. now apply (Hfirst u v).
Qed.

Lemma regex_match_none r s :
  regex_match r s = None ->
  forall u v, s = u ++ v -> exec_at r v = None.
Proof.
  induction s as [|x s IH]; cbn [regex_match].
  - destruct (exec_at r []) as [[c rest]|] eqn:E; [discriminate|].
    intros _ u v Huv. destruct u, v; try discriminate. exact E.
  - destruct (exec_at r (x :: s)) as [[c rest]|] eqn:E; [discriminate|].
    intros H u v Huv. destruct u as [|y u].
    + simpl in Huv. now subst v.
    + cbn [app] in Huv. injection Huv as _ Huv. now apply (IH H u v).
Qed.

Lemma regex_match_some r s u v :
  s = u ++ v -> exec_at r v <> None -> regex_match r s <> None.
Proof.
  intros -> Hv. destruct (regex_match r (u ++ v)) eqn:E; [discriminate|].
  exfalso. apply Hv. now apply (regex_match_none r _ E u v).
Qed.

(** ** The language of the identifier pattern *)

Lemma denotes_Eps_inv w : denotes Eps w -> w = [].
Proof. intros H; now inversion H. Qed.

Lemma denotes_Chr_inv p w : denotes (Chr p) w -> exists x, w = [x] /\ p x = true.
Proof. intros H; inversion H; subst. eauto. Qed.

Lemma denotes_Seq_inv r1 r2 w :
  denotes (Seq r1 r2) w ->
  exists w1 w2, w = w1 ++ w2 /\ denotes r1 w1 /\ denotes r2 w2.
Proof. intros H; inversion H; subst. eauto. Qed.

Lemma denotes_Alt_inv r1 r2 w :
  denotes (Alt r1 r2) w -> denotes r1 w \/ denotes r2 w.
Proof. intros H; inversion H; subst; auto. Qed.

Lemma denotes_Group_inv i r w : denotes (Group i r) w -> denotes r w.
Proof. intros H; now inversion H. Qed.

Lemma denotes_lit_i w0 : forall w, denotes (lit_i w0) w <-> same_letters w w0.
Proof.
  unfold same_letters.
  induction w0 as [|x w0 IH]; intros w; cbn [lit_i]; split.
  - intros H. apply denotes_Eps_inv in H. now subst.
  - intros H. destruct w; [constructor|discriminate].
  - intros H. apply denotes_Seq_inv in H.
    destruct H as (w1 & w2 & -> & H1 & H2).
    apply denotes_Chr_inv in H1. destruct H1 as (y & -> & Hy).
    apply IH in H2. unfold is_char_i in Hy. apply N.eqb_eq in Hy.
    cbn [app map]. now rewrite Hy, H2.
  - intros H. destruct w as [|y w]; [discriminate|].
    cbn [map] in H. injection H as Hy Hw.
    change (y :: w) with ([y] ++ w). constructor.
    + constructor. unfold is_char_i. now apply N.eqb_eq.
    + now apply IH.
Qed.

Lemma denotes_Star_Chr p w :
  denotes (Star (Chr p)) w <-> Forall (fun x => p x = true) w.
Proof.
  split.
  - intros H. remember (Star (Chr p)) as r eqn:Hr.
    induction H as [| | | | |r0|r0 w1 w2 L1 _ Hne L2 IH2|]; try discriminate.
    + constructor.
    + injection Hr as ->. apply denotes_Chr_inv in L1.
      destruct L1 as (x & -> & Hx). constructor; auto.
  - intros H; induction H as [|x w Hx Hw IH]; [constructor|].
    change (x :: w) with ([x] ++ w).
    apply den_Star_cons; [now constructor|discriminate|exact IH].
Qed.

Lemma denotes_Plus_Chr p w :
  denotes (Plus (Chr p)) w <-> w <> [] /\ Forall (fun x => p x = true) w.
Proof.
  unfold Plus. split.
  - intros H. apply denotes_Seq_inv in H.
    destruct H as (w1 & w2 & -> & H1 & H2).
    apply denotes_Chr_inv in H1. destruct H1 as (x & -> & Hx).
    apply denotes_Star_Chr in H2.
    split; [discriminate|now constructor].
  - intros [Hne H]. destruct H as [|x w Hx Hw]; [congruence|].
    change (x :: w) with ([x] ++ w).
    constructor; [now constructor|now apply denotes_Star_Chr].
Qed.

Lemma denotes_Times_Chr p n : forall w,
  denotes (Times n (Chr p)) w <->
  List.length w = n /\ Forall (fun x => p x = true) w.
Proof.
  induction n as [|n IH]; intros w; cbn [Times]; split.
  - intros H. apply denotes_Eps_inv in H. subst.
    split; [reflexivity|constructor].
  - intros [H _]. destruct w; [constructor|discriminate].
  - intros H. apply denotes_Seq_inv in H.
    destruct H as (w1 & w2 & -> & H1 & H2).
    apply denotes_Chr_inv in H1. destruct H1 as (x & -> & Hx).
    apply IH in H2. destruct H2 as [Hl Hf].
    cbn [app List.length]. split; [now rewrite Hl|now constructor].
  - intros [Hl Hf]. destruct Hf as [|x w Hx Hw]; [discriminate|].
    change (x :: w) with ([x] ++ w). constructor; [now constructor|].
    apply IH. split; [simpl in Hl; lia|exact Hw].
Qed.

Lemma denotes_RE_ID w : denotes RE_ID w <-> id_ok w.
Proof.
  unfold RE_ID, id_ok. split.
  - intros H. apply denotes_Group_inv in H. now apply denotes_Times_Chr.
  - intros H. constructor. now apply denotes_Times_Chr.
Qed.

Lemma denotes_slash w : denotes (lit_i (str "/")) w <-> w = [47].
Proof.
  rewrite denotes_lit_i. unfold same_letters. split.
  - intros H. destruct w as [|y [|z w]]; try discriminate.
    cbn in H. injection H as H. f_equal.
    pose proof (is_char_i_slash y) as E. unfold is_char_i in E.
    change (ascii_upper 47) with 47 in E. rewrite H, N.eqb_refl in E.
    symmetry in E. now apply N.eqb_eq in E.
  - now intros ->.
Qed.

Lemma denotes_RE_NESTED w :
  denotes RE_NESTED w <->
  exists seg mid,
    w = seg ++ [47] ++ mid ++ [47] /\
    seg <> [] /\ no_slash seg /\ mid <> [] /\ one_line mid.
Proof.
  unfold RE_NESTED. split.
  - intros H. apply denotes_Seq_inv in H.
    destruct H as (seg & w2 & -> & H1 & H2).
    apply denotes_Seq_inv in H2. destruct H2 as (s1 & w3 & -> & H3 & H4).
    apply denotes_Seq_inv in H4. destruct H4 as (mid & s2 & -> & H5 & H6).
    apply denotes_Plus_Chr in H1, H5. apply denotes_slash in H3, H6. subst.
    exists seg, mid. now repeat split.
  - intros (seg & mid & -> & Hs1 & Hs2 & Hm1 & Hm2).
    constructor; [now apply denotes_Plus_Chr|].
    constructor; [now apply denotes_slash|].
    constructor; [now apply denotes_Plus_Chr|now apply denotes_slash].
Qed.

Lemma denotes_keyword kw :
  denotes
    (Alt (lit_i (str "v"))
       (Alt (Seq (lit_i (str "e")) (Opt (lit_i (str "mbed"))))
          (lit_i (str "shorts")))) kw
  <-> keyword kw.
Proof.
  unfold keyword, Opt. split.
  - intros H. apply denotes_Alt_inv in H. destruct H as [H|H].
    + left. now apply denotes_lit_i.
    + apply denotes_Alt_inv in H. destruct H as [H|H].
      * apply denotes_Seq_inv in H. destruct H as (a & b & -> & Ha & Hb).
        apply denotes_lit_i in Ha.
        apply denotes_Alt_inv in Hb. destruct Hb as [Hb|Hb].
        -- apply denotes_lit_i in Hb. right; right; left.
           unfold same_letters in *. rewrite map_app, Ha, Hb. reflexivity.
        -- apply denotes_Eps_inv in Hb. subst. right; left.
           now rewrite app_nil_r.
      * right; right; right. now apply denotes_lit_i.
  - intros [H|[H|[H|H]]].
    + apply den_Alt_l. now apply denotes_lit_i.
    + apply den_Alt_r, den_Alt_l. rewrite <- (app_nil_r kw).
      constructor; [now apply denotes_lit_i|]. apply den_Alt_r. constructor.
    + apply den_Alt_r, den_Alt_l. unfold same_letters in H.
      destruct kw as [|x kw]; [discriminate|]. cbn [map] in H.
      injection H as Hx Hk. change (x :: kw) with ([x] ++ kw).
      constructor.
      * apply denotes_lit_i. unfold same_letters. cbn [map]. now rewrite Hx.
      * apply den_Alt_l. now apply denotes_lit_i.
    + apply den_Alt_r, den_Alt_r. now apply denotes_lit_i.
Qed.

Lemma denotes_RE_KEYWORD w :
  denotes RE_KEYWORD w <-> exists kw, w = kw ++ [47] /\ keyword kw.
Proof.
  unfold RE_KEYWORD. split.
  - intros H. apply denotes_Seq_inv in H.
    destruct H as (kw & s1 & -> & H1 & H2).
    apply denotes_keyword in H1. apply denotes_slash in H2. subst.
    now exists kw.
  - intros (kw & -> & Hk).
    constructor; [now apply denotes_keyword|now apply denotes_slash].
Qed.

Lemma denotes_RE_QUERY w :
  denotes RE_QUERY w <->
  exists pre mark v,
    w = pre ++ mark :: v /\ one_line pre /\ is_query_mark mark = true /\
    same_letters v (str "v=").
Proof.
  unfold RE_QUERY. split.
  - intros H. apply denotes_Seq_inv in H.
    destruct H as (pre & w2 & -> & H1 & H2).
    apply denotes_Seq_inv in H2. destruct H2 as (m & v & -> & H3 & H4).
    apply denotes_Chr_inv in H3. destruct H3 as (mark & -> & Hm).
    apply denotes_Star_Chr in H1. apply denotes_lit_i in H4.
    now exists pre, mark, v.
  - intros (pre & mark & v & -> & Hp & Hm & Hv).
    constructor; [now apply denotes_Star_Chr|].
    change (mark :: v) with ([mark] ++ v).
    constructor; [now constructor|now apply denotes_lit_i].
Qed.

Lemma denotes_RE_PATH w : denotes RE_PATH w <-> path_shape w.
Proof.
  unfold RE_PATH. split.
  - intros H. apply denotes_Alt_inv in H. destruct H as [H|H].
    + apply denotes_RE_NESTED in H.
      destruct H as (seg & mid & -> & ? & ? & ? & ?). now constructor.
    + apply denotes_Alt_inv in H. destruct H as [H|H].
      * apply denotes_RE_KEYWORD in H. destruct H as (kw & -> & ?).
        now constructor.
      * apply denotes_RE_QUERY in H.
        destruct H as (pre & mark & v & -> & ? & ? & ?). now constructor.
  - intros H. destruct H as [seg mid ? ? ? ?|kw ?|pre mark v ? ? ?].
    + apply den_Alt_l, denotes_RE_NESTED. exists seg, mid. now repeat split.
    + apply den_Alt_r, den_Alt_l, denotes_RE_KEYWORD. now exists kw.
    + apply den_Alt_r, den_Alt_r, denotes_RE_QUERY. now exists pre, mark, v.
Qed.

Lemma denotes_lead w :
  denotes (Alt (Seq (lit_i HOST_LONG) RE_PATH) (lit_i HOST_SHORT)) w <->
  url_shape w.
Proof.
  split.
  - intros H. apply denotes_Alt_inv in H. destruct H as [H|H].
    + apply denotes_Seq_inv in H. destruct H as (host & path & -> & Hh & Hp).
      apply url_long; [now apply denotes_lit_i|now apply denotes_RE_PATH].
    + apply url_short. now apply denotes_lit_i.
  - intros [host Hh|host path Hh Hp].
    + apply den_Alt_r. now apply denotes_lit_i.
    + apply den_Alt_l.
      constructor; [now apply denotes_lit_i|now apply denotes_RE_PATH].
Qed.

(** The pattern describes a URL shape followed by an identifier. *)
Lemma denotes_RE_YOUTUBE w :
  denotes RE_YOUTUBE w <->
  exists lead id, w = lead ++ id /\ url_shape lead /\ id_ok id.
Proof.
  unfold RE_YOUTUBE. split.
  - intros H. apply denotes_Seq_inv in H.
    destruct H as (lead & id & -> & Hl & Hi).
    exists lead, id. split; [reflexivity|].
    split; [now apply denotes_lead|now apply denotes_RE_ID].
  - intros (lead & id & -> & Hl & Hi).
    constructor; [now apply denotes_lead|now apply denotes_RE_ID].
Qed.

Lemma exec_at_begins_shape s :
  exec_at RE_YOUTUBE s <> None <-> begins_shape s.
Proof.
  rewrite exec_at_denotes. unfold begins_shape. split.
  - intros (w & post & -> & H). apply denotes_RE_YOUTUBE in H.
    destruct H as (lead & id & -> & Hl & Hi).
    exists lead, id, post. now rewrite <- app_assoc.
  - intros (lead & id & post & -> & Hl & Hi).
    exists (lead ++ id), post. rewrite <- app_assoc. split; [reflexivity|].
    apply denotes_RE_YOUTUBE. now exists lead, id.
Qed.

(** A match is a URL shape followed by an identifier, which is group 1. *)
Lemma exec_at_RE_YOUTUBE_shape s caps rest :
  exec_at RE_YOUTUBE s = Some (caps, rest) ->
  exists lead id,
    s = lead ++ id ++ rest /\ url_shape lead /\ id_ok id /\
    group 1 caps = id.
Proof.
  unfold exec_at, RE_YOUTUBE. rewrite rmatch_Seq. intros H.
  apply rmatch_sound in H. destruct H as (lead & s1 & c1 & -> & Hl & H).
  apply rmatch_RE_ID_inv in H. destruct H as (id & -> & Hid & ->).
  exists lead, id. split; [reflexivity|].
  split; [now apply denotes_lead|]. split; [exact Hid|reflexivity].
Qed.

(** ** The URL shapes with more text after the identifier *)

Lemma same_letters_length a b :
  same_letters a b -> List.length a = List.length b.
Proof.
  intros H. apply (f_equal (@List.length N)) in H. now rewrite !length_map in H.
Qed.

(** Upper-casing leaves a unit below the letters alone, and maps no
    other unit to it. *)
Lemma ascii_upper_fixed y c : ascii_upper y = c -> c < 65 -> y = c.
Proof.
  unfold ascii_upper. destruct ((97 <=? y) && (y <=? 122)) eqn:R; [|auto].
  apply andb_true_iff in R. destruct R as [R1 R2].
  apply N.leb_le in R1. apply N.leb_le in R2. lia.
Qed.

Lemma same_letters_class (p : N -> bool) a b :
  (forall x y, ascii_upper x = ascii_upper y -> p y = true -> p x = true) ->
  same_letters a b ->
  Forall (fun x => p x = true) b -> Forall (fun x => p x = true) a.
Proof.
  intros Hp. unfold same_letters. revert b.
  induction a as [|x a IH]; intros [|y b] E Hb; try discriminate; constructor.
  - cbn [map] in E. injection E as Ex _. inversion Hb; subst. eauto.
  - cbn [map] in E. injection E as _ Ea. inversion Hb; subst. eauto.
Qed.

Lemma no_slash_letters x y :
  ascii_upper x = ascii_upper y -> any_but [47] y = true -> any_but [47] x = true.
Proof.
  unfold any_but. cbn [existsb]. rewrite !orb_false_r. intros E Hy.
  apply negb_true_iff in Hy. apply negb_true_iff. apply N.eqb_neq in Hy.
  apply N.eqb_neq. intros ->. apply Hy.
  apply ascii_upper_fixed; [now rewrite <- E|lia].
Qed.

Lemma no_mark_letters x y :
  ascii_upper x = ascii_upper y ->
  negb (is_query_mark y) = true -> negb (is_query_mark x) = true.
Proof.
  unfold is_query_mark. intros E Hy. apply negb_true_iff in Hy.
  apply negb_true_iff. apply orb_false_iff in Hy. destruct Hy as [H1 H2].
  apply N.eqb_neq in H1. apply N.eqb_neq in H2.
  apply orb_false_iff. split; apply N.eqb_neq; intros ->.
  - apply H1. apply ascii_upper_fixed; [now rewrite <- E|lia].
  - apply H2. apply ascii_upper_fixed; [now rewrite <- E|lia].
Qed.

Lemma keyword_no_slash kw : keyword kw -> no_slash kw.
Proof.
  intros [H|[H|[H|H]]];
    (eapply (same_letters_class (any_but [47]));
     [apply no_slash_letters|exact H|repeat constructor]).
Qed.

(** The keyword paths in any letter case, whatever follows them. *)
Lemma RE_KEYWORD_any_case {A} kw s c (k : @cont A) :
  keyword kw -> rmatch RE_KEYWORD (kw ++ 47 :: s) c k = k s c.
Proof.
  intros [H|[H|[H|H]]]; unfold same_letters in H.
  - change (map ascii_upper (str "v")) with [86] in H.
    destruct kw as [|x1 [|? ?]]; try discriminate H.
    injection H as H1.
    unfold RE_KEYWORD, Opt. cbn -[ascii_upper]. unfold is_char_i. rewrite H1. cbn.
    now destruct (k s c).
  - change (map ascii_upper (str "e")) with [69] in H.
    destruct kw as [|x1 [|? ?]]; try discriminate H.
    injection H as H1.
    unfold RE_KEYWORD, Opt. cbn -[ascii_upper]. unfold is_char_i. rewrite H1. cbn.
    now destruct (k s c).
  - change (map ascii_upper (str "embed")) with [69; 77; 66; 69; 68] in H.
    destruct kw as [|x1 [|x2 [|x3 [|x4 [|x5 [|? ?]]]]]]; try discriminate H.
    injection H as H1 H2 H3 H4 H5.
    unfold RE_KEYWORD, Opt. cbn -[ascii_upper]. unfold is_char_i.
    rewrite H1, H2, H3, H4, H5. cbn.
    now destruct (k s c).
  - change (map ascii_upper (str "shorts")) with [83; 72; 79; 82; 84; 83] in H.
    destruct kw as [|x1 [|x2 [|x3 [|x4 [|x5 [|x6 [|? ?]]]]]]];
      try discriminate H.
    injection H as H1 H2 H3 H4 H5 H6.
    unfold RE_KEYWORD, Opt. cbn -[ascii_upper]. unfold is_char_i.
    rewrite H1, H2, H3, H4, H5, H6. cbn.
    now destruct (k s c).
Qed.

Lemma no_slash_has_none (a b : jsstring) : ~ no_slash (a ++ 47 :: b).
Proof.
  intros H. apply Forall_app in H. destruct H as [_ H].
  inversion H as [|? ? Hx _]; subst. discriminate Hx.
Qed.

(** A keyword path needs a slash. *)
Lemma RE_KEYWORD_no_slash {A} s c (k : @cont A) :
  no_slash s -> rmatch RE_KEYWORD s c k = None.
Proof.
  intros Hs. destruct (rmatch RE_KEYWORD s c k) as [v|] eqn:E; [|reflexivity].
  exfalso. apply rmatch_sound in E. destruct E as (w & s' & c' & -> & Hw & _).
  apply denotes_RE_KEYWORD in Hw. destruct Hw as (kw & -> & _).
  rewrite <- app_assoc in Hs. now apply (no_slash_has_none kw ([] ++ s')).
Qed.

Lemma exec_at_keyword_then host kw id rest :
  same_letters host HOST_LONG -> keyword kw -> id_ok id -> no_slash rest ->
  exec_at RE_YOUTUBE (host ++ kw ++ 47 :: id ++ rest)
  = Some ([(1%nat, id)], rest).
Proof.
  intros Hh Hkw Hid Hrest. pose proof Hid as [_ Hch].
  unfold exec_at, RE_YOUTUBE.
  rewrite rmatch_Seq, rmatch_Alt, rmatch_Seq.
  rewrite rmatch_lit_i_any_case by exact Hh.
  unfold RE_PATH. rewrite rmatch_Alt, RE_NESTED_one_slash.
  - rewrite rmatch_Alt, RE_KEYWORD_any_case by exact Hkw.
    now rewrite rmatch_RE_ID.
  - now apply keyword_no_slash.
  - apply Forall_app. split; [now apply id_no_slash|exact Hrest].
Qed.

Lemma has_v_param_no_mark (a s : jsstring) :
  Forall (fun x => negb (is_query_mark x) = true) a ->
  has_v_param (a ++ s) = has_v_param s.
Proof.
  intros Ha; induction Ha as [|x a Hx Ha IH]; [reflexivity|].
  cbn [app has_v_param]. apply negb_true_iff in Hx. now rewrite Hx, IH.
Qed.

(** A greedy class repetition gives back units until what follows
    matches: here it matches at [s] and at no later place. *)
Lemma rmatch_Star_Chr_last {A} p a s c (k : @cont A) v :
  Forall (fun y => p y = true) a ->
  (forall u w, s = u ++ w -> u <> [] -> k w c = None) ->
  k s c = Some v ->
  rmatch (Star (Chr p)) (a ++ s) c k = Some v.
Proof.
  intros Ha Hfail Hk; induction Ha as [|y a Hy Ha IH]; cbn [app].
  - destruct s as [|x s]; [exact Hk|].
    rewrite rmatch_Star_Chr_cons, Hk.
    destruct (p x); [|reflexivity].
    rewrite rmatch_Star_Chr_fail; [reflexivity|].
    intros u w E _. apply (Hfail (x :: u) w); [now rewrite E|discriminate].
  - rewrite rmatch_Star_Chr_true by exact Hy. now rewrite IH.
Qed.

(** The query form: the last [v] parameter is the one that counts. *)
Lemma RE_QUERY_then {A} q mark vp id rest c (k : @cont A) v :
  one_line q -> is_query_mark mark = true -> same_letters vp (str "v=") ->
  Forall (fun x => id_char x = true) id ->
  has_v_param rest = false ->
  k (id ++ rest) c = Some v ->
  rmatch RE_QUERY (q ++ mark :: vp ++ id ++ rest) c k = Some v.
Proof.
  intros Hq Hm Hvp Hid Hrest Hk. unfold RE_QUERY. rewrite rmatch_Seq.
  apply rmatch_Star_Chr_last; [exact Hq| |].
  - intros u w E Hu. apply query_step_fails.
    destruct u as [|x u]; [congruence|]. cbn [app] in E. injection E as _ E.
    apply (has_v_param_suffix u). rewrite <- E.
    rewrite has_v_param_no_mark.
    + rewrite has_v_param_no_mark; [exact Hrest|].
      eapply Forall_impl; [|exact Hid]. intros z Hz.
      destruct (id_char_facts z Hz) as (_ & _ & ->). reflexivity.
    + eapply (same_letters_class (fun x => negb (is_query_mark x)));
        [apply no_mark_letters|exact Hvp|repeat constructor].
  - rewrite rmatch_Seq, rmatch_Chr_cons, Hm.
    now rewrite rmatch_lit_i_any_case by exact Hvp.
Qed.

Lemma query_mark_no_slash mark :
  is_query_mark mark = true -> any_but [47] mark = true.
Proof.
  unfold is_query_mark, any_but. cbn [existsb]. rewrite orb_false_r.
  intros H. apply orb_true_iff in H.
  destruct H as [H|H]; apply N.eqb_eq in H; now subst.
Qed.

Lemma exec_at_query_then host q mark vp id rest :
  same_letters host HOST_LONG ->
  one_line q -> no_slash q ->
  is_query_mark mark = true -> same_letters vp (str "v=") ->
  id_ok id ->
  no_slash rest -> has_v_param rest = false ->
  exec_at RE_YOUTUBE (host ++ q ++ mark :: vp ++ id ++ rest)
  = Some ([(1%nat, id)], rest).
Proof.
  intros Hh Hq1 Hq2 Hm Hvp Hid Hr1 Hr2. pose proof Hid as [_ Hch].
  assert (Hns : no_slash (q ++ mark :: vp ++ id ++ rest)).
  { apply Forall_app. split; [exact Hq2|].
    constructor; [now apply query_mark_no_slash|].
    apply Forall_app. split.
    - eapply (same_letters_class (any_but [47]));
        [apply no_slash_letters|exact Hvp|repeat constructor].
    - apply Forall_app. split; [now apply id_no_slash|exact Hr1]. }
  unfold exec_at, RE_YOUTUBE.
  rewrite rmatch_Seq, rmatch_Alt, rmatch_Seq.
  rewrite rmatch_lit_i_any_case by exact Hh.
  unfold RE_PATH.
  rewrite rmatch_Alt, (RE_NESTED_no_slash _ _ _ Hns).
  rewrite rmatch_Alt, (RE_KEYWORD_no_slash _ _ _ Hns). cbn [orelse].
  erewrite (RE_QUERY_then q mark vp id rest _ _ _ Hq1 Hm Hvp Hch Hr2);
    [reflexivity|].
  now rewrite rmatch_RE_ID.
Qed.

(** ** What [retrieveVideoId] returns *)

Lemma retrieveVideoId_embedded videoId id :
  List.length videoId <> 11%nat ->
  retrieveVideoId videoId = Ok id -> embedded videoId id.
Proof.
  intros Hlen. apply Nat.eqb_neq in Hlen. unfold retrieveVideoId.
  rewrite Hlen.
  destruct (regex_match RE_YOUTUBE videoId) as [caps|] eqn:M; [|discriminate].
  intros H; inversion H; subst id.
  destruct (regex_match_first _ _ _ M) as (pre & s0 & rest & -> & Hx & Hfirst).
  destruct (exec_at_RE_YOUTUBE_shape _ _ _ Hx) as (lead & id & -> & Hl & Hid & ->).
  exists pre, lead, rest. repeat split; auto; try apply Hid.
  intros u v Huv Hv Hb. apply exec_at_begins_shape in Hb.
  now rewrite (Hfirst u v Huv Hv) in Hb.
Qed.

Lemma retrieveVideoId_some videoId u v :
  List.length videoId <> 11%nat ->
  videoId = u ++ v -> begins_shape v ->
  exists id, retrieveVideoId videoId = Ok id.
Proof.
  intros Hlen Huv Hb. apply Nat.eqb_neq in Hlen. unfold retrieveVideoId.
  rewrite Hlen. apply exec_at_begins_shape in Hb.
  pose proof (regex_match_some RE_YOUTUBE videoId u v Huv Hb) as Hm.
  destruct (regex_match RE_YOUTUBE videoId); [eauto|congruence].
Qed.

Lemma retrieveVideoId_none videoId :
  List.length videoId <> 11%nat ->
  (forall u v, videoId = u ++ v -> ~ begins_shape v) ->
  retrieveVideoId videoId = Err resolution_error.
Proof.
  intros Hlen Hno. apply Nat.eqb_neq in Hlen. unfold retrieveVideoId.
  rewrite Hlen.
  destruct (regex_match RE_YOUTUBE videoId) as [caps|] eqn:M; [|reflexivity].
  exfalso.
  destruct (regex_match_first _ _ _ M) as (pre & s0 & rest & -> & Hx & _).
  apply (Hno pre s0 eq_refl). apply exec_at_begins_shape. congruence.
Qed.

Lemma retrieveVideoId_error_none videoId e :
  retrieveVideoId videoId = Err e ->
  e = resolution_error /\
  List.length videoId <> 11%nat /\
  forall u v, videoId = u ++ v -> ~ begins_shape v.
Proof.
  unfold retrieveVideoId.
  destruct (List.length videoId =? 11)%nat eqn:Hlen; [discriminate|].
  apply Nat.eqb_neq in Hlen.
  destruct (regex_match RE_YOUTUBE videoId) as [caps|] eqn:M; [discriminate|].
  intros H; inversion H; subst. repeat split; auto.
  intros u v Huv Hb. apply exec_at_begins_shape in Hb.
  now rewrite (regex_match_none _ _ M u v Huv) in Hb.
Qed.



(** * Further properties of the module *)

(** ** The requests of a call *)

Lemma retrieveVideoId_error videoId e :
  retrieveVideoId videoId = Err e -> e = resolution_error.
Proof.
  unfold retrieveVideoId. destruct (List.length videoId =? 11)%nat;
    [discriminate|].
  destruct (regex_match RE_YOUTUBE videoId); [discriminate|].
  intros H; now inversion H.
Qed.

Lemma processTranscript_requests captions videoId config t log :
  exists t1,
    snd (processTranscriptFromCaptions captions videoId config t log) = t1 ++ log /\
    at_most_one_track config t1.
Proof.
  destruct (processTranscript_log captions videoId config t log) as [E|[u E]];
    cbv zeta in E; rewrite E.
  - exists []. split; [reflexivity|now left].
  - exists [track_request u config]. split; [reflexivity|right; eauto].
Qed.

Lemma HtmlScraping_requests videoId identifier config t log :
  retrieveVideoId videoId = Ok identifier ->
  exists t1,
    snd (fetchTranscriptWithHtmlScraping videoId config t log)
    = t1 ++ watch_request identifier config :: log /\
    at_most_one_track config t1.
Proof.
  intros Hid. rewrite HtmlScraping_unfold, Hid. cbv zeta.
  destruct (t log (watch_request identifier config)) as [|resp].
  - exists []. split; [reflexivity|now left].
  - destruct (List.length _ <=? 1)%nat.
    + exists []. split; [reflexivity|now left].
    + rewrite checked_log. apply processTranscript_requests.
Qed.

Lemma InnerTube_requests videoId identifier config t log :
  retrieveVideoId videoId = Ok identifier ->
  exists t2,
    snd (fetchTranscriptWithInnerTube videoId config t log)
    = t2 ++ player_request identifier config :: log /\
    at_most_one_track config t2.
Proof.
  intros Hid. rewrite InnerTube_unfold, Hid. cbv zeta.
  assert (Hnone : exists t2 : list Request,
             player_request identifier config :: log
             = t2 ++ player_request identifier config :: log /\
             at_most_one_track config t2)
    by (exists []; split; [reflexivity|now left]).
  destruct (t log (player_request identifier config)) as [|resp]; [exact Hnone|].
  destruct (JSON_parse (body resp)) as [json|]; [|exact Hnone].
  destruct (let? outer := get json (str "captions") in _); [|exact Hnone].
  rewrite checked_log. apply processTranscript_requests.
Qed.

Lemma at_most_one_track_length config l :
  at_most_one_track config l -> (List.length l <= 1)%nat.
Proof. intros [->|[u ->]]; simpl; lia. Qed.

(** X1. The requests of a call.  An input that does not resolve to an
    identifier fails with the generic error and no request is made.
    Otherwise the first request is the GET of the watch page of the
    resolved identifier, followed by at most one GET of a timed-text
    resource; the POST to the player API, for the same identifier, comes
    after these if it comes at all, and only it can be followed by one
    more GET of a timed-text resource.  A call makes at most four
    requests. *)
Theorem fetchTranscript_requests videoId config t log :
  match retrieveVideoId videoId with
  | Err e => fetchTranscript videoId config t log = (Err resolution_error, log)
  | Ok identifier =>
      exists t1 p t2,
        snd (fetchTranscript videoId config t log)
        = t2 ++ p ++ t1 ++ watch_request identifier config :: log /\
        at_most_one_track config t1 /\
        at_most_one_track config t2 /\
        (p = [] /\ t2 = [] \/ p = [player_request identifier config]) /\
        (List.length (snd (fetchTranscript videoId config t log))
         <= List.length log + 4)%nat
  end.
Proof.
  destruct (retrieveVideoId videoId) as [identifier|e] eqn:Hid.
  - destruct (HtmlScraping_requests videoId identifier config t log Hid)
      as (t1 & E1 & H1).
    unfold fetchTranscript.
    destruct (fetchTranscriptWithHtmlScraping videoId config t log)
      as [[r|e] log1] eqn:E; cbn [snd] in E1; subst log1.
    + exists t1, [], []. cbn [snd app]. repeat split; auto; [now left|].
      pose proof (at_most_one_track_length _ _ H1).
      rewrite length_app. simpl. lia.
    + destruct (is_empty_error e).
      * destruct (InnerTube_requests videoId identifier config t
                    (t1 ++ watch_request identifier config :: log) Hid)
          as (t2 & E2 & H2).
        exists t1, [player_request identifier config], t2.
        rewrite E2. repeat split; auto.
        pose proof (at_most_one_track_length _ _ H1).
        pose proof (at_most_one_track_length _ _ H2).
        rewrite !length_app. simpl. rewrite length_app. simpl. lia.
      * exists t1, [], []. cbn [snd app]. repeat split; auto; [now left|].
        pose proof (at_most_one_track_length _ _ H1).
        rewrite length_app. simpl. lia.
  - unfold fetchTranscript. rewrite HtmlScraping_unfold, Hid.
    rewrite (retrieveVideoId_error _ _ Hid). reflexivity.
Qed.

Lemma in_at_most_one_track config l r :
  at_most_one_track config l -> In r l -> exists url, r = track_request url config.
Proof.
  intros [->|[u ->]] H; [destruct H|].
  destruct H as [<-|[]]. now exists u.
Qed.

(** Every request of a call is one of the three the module builds. *)
Lemma fetchTranscript_request_kinds videoId config t log r :
  In r (snd (fetchTranscript videoId config t log)) ->
  In r log \/
  exists identifier,
    retrieveVideoId videoId = Ok identifier /\
    (r = watch_request identifier config \/
     r = player_request identifier config \/
     exists url, r = track_request url config).
Proof.
  unfold fetchTranscript.
  destruct (retrieveVideoId videoId) as [identifier|e0] eqn:Hid.
  - destruct (HtmlScraping_requests videoId identifier config t log Hid)
      as (t1 & E1 & H1).
    assert (Hfirst : forall r0,
               In r0 (t1 ++ watch_request identifier config :: log) ->
               In r0 log \/
               exists identifier0,
                 Ok identifier = Ok identifier0 /\
                 (r0 = watch_request identifier0 config \/
                  r0 = player_request identifier0 config \/
                  exists url, r0 = track_request url config)).
    { intros r0 H. apply in_app_or in H. destruct H as [H|[<-|H]].
      - right. exists identifier. split; [reflexivity|].
        right; right. eapply in_at_most_one_track; eauto.
      - right. exists identifier. auto.
      - now left. }
    destruct (fetchTranscriptWithHtmlScraping videoId config t log)
      as [[r1|e] log1]; cbn [snd] in E1; subst log1; [apply Hfirst|].
    destruct (is_empty_error e); [|apply Hfirst].
    destruct (InnerTube_requests videoId identifier config t
                (t1 ++ watch_request identifier config :: log) Hid)
      as (t2 & E2 & H2).
    rewrite E2. intros H. apply in_app_or in H. destruct H as [H|[<-|H]].
    + right. exists identifier. split; [reflexivity|].
      right; right. eapply in_at_most_one_track; eauto.
    + right. exists identifier. auto.
    + now apply Hfirst.
  - rewrite HtmlScraping_unfold, Hid.
    rewrite (retrieveVideoId_error _ _ Hid). cbn. now left.
Qed.

Lemma accept_language_header config rest :
  header (str "Accept-Language") rest = None ->
  header (str "Accept-Language") (accept_language config ++ rest)
  = truthy_lang config.
Proof.
  intros H. unfold accept_language.
  destruct (truthy_lang config) as [l|]; [reflexivity|exact H].
Qed.

(** X2. Every request of a call carries the header [Accept-Language]
    with the configured language when that language is a non-empty
    string, and no such header otherwise. *)
Theorem requests_accept_language videoId config t r :
  In r (snd (fetchTranscript videoId config t [])) ->
  header (str "Accept-Language") (req_headers r) = truthy_lang config.
Proof.
  intros H. apply fetchTranscript_request_kinds in H.
  destruct H as [[]|(identifier & _ & [->|[->|[url ->]]])];
    cbn [req_headers watch_request player_request track_request];
    now apply accept_language_header.
Qed.

Lemma requests_accept_language_witness :
  header (str "Accept-Language")
    (req_headers (watch_request sample_id (Some {| lang := Some (str "fr") |})))
  = Some (str "fr").
Proof.
  apply (requests_accept_language sample_id (Some {| lang := Some (str "fr") |})
           (scripted [page sample_page; page sample_xml])).
  assert (E : snd (fetchTranscript sample_id (Some {| lang := Some (str "fr") |})
                     (scripted [page sample_page; page sample_xml]) [])
              = [track_request (JStr (str "https://t/fr"))
                   (Some {| lang := Some (str "fr") |});
                 watch_request sample_id (Some {| lang := Some (str "fr") |})])
    by (vm_compute; reflexivity).
  rewrite E. right; left; reflexivity.
Defined.

(** ** The errors of a call *)

Lemma check_language_error_kind captions videoId config method e :
  check_language captions videoId config = Err e ->
  error_of_strategy videoId config method e.
Proof.
  unfold check_language, captionTracks.
  destruct (truthy_lang config) as [l|] eqn:Hl; [|discriminate].
  destruct (get captions (str "captionTracks")) as [tr|e0] eqn:G; cbn [rbind];
    [|intros H; inversion H; subst; now rewrite (get_error _ _ _ G)].
  destruct (as_array tr) as [arr|e0] eqn:Ar; cbn [rbind];
    [|intros H; inversion H; subst; now rewrite (as_array_error _ _ Ar)].
  destruct (Array_some (languageCode_is l) arr) as [found|e0] eqn:S;
    cbn [rbind].
  - destruct found; cbn [negb]; [discriminate|].
    destruct (Array_map _ arr) as [langs|e0] eqn:Mp; cbn [rbind].
    + intros H; inversion H; subst. unfold new_NotAvailableLanguageError.
      destruct (Array_join_throws langs); cbn; auto.
    + intros H; inversion H; subst.
      rewrite (Array_map_error _ _ _ (fun x e' => get_error x _ e') Mp).
      exact I.
  - intros H; inversion H; subst.
    rewrite (Array_some_error _ _ _ (languageCode_is_error l) S). exact I.
Qed.

Lemma transcriptURL_error_kind captions videoId config method e :
  transcriptURL captions videoId config = Err e ->
  error_of_strategy videoId config method e.
Proof.
  unfold transcriptURL.
  destruct (negb (truthy captions)); [intros H; inversion H; reflexivity|].
  destruct (has_property _ captions) as [has|e0] eqn:Hp; cbn [rbind].
  2:{ intros H; inversion H; subst. destruct captions; simpl in Hp;
      inversion Hp; exact I. }
  destruct (negb has); [intros H; inversion H; reflexivity|].
  destruct (check_language captions videoId config) as [[]|e0] eqn:C;
    cbn [rbind].
  2:{ intros H; inversion H; subst. eapply check_language_error_kind, C. }
  destruct (selectTrack captions config) as [track|e0] eqn:S; cbn [rbind].
  - intros H. rewrite (get_error _ _ _ H). exact I.
  - intros H; inversion H; subst. rewrite (selectTrack_error _ _ _ S). exact I.
Qed.

Lemma processTranscript_error_kind captions videoId config method t log e :
  fst (processTranscriptFromCaptions captions videoId config t log) = Err e ->
  error_of_strategy videoId config method e.
Proof.
  rewrite processTranscript_unfold.
  destruct (transcriptURL captions videoId config) as [url|e0] eqn:U.
  - cbv zeta. destruct (t log (track_request url config)); cbn [fst].
    + intros H; inversion H; exact I.
    + destruct (negb (ok r)); cbn [fst]; [intros H; inversion H; reflexivity|].
      intros H. rewrite (parseTranscript_error _ _ _ _ H). exact I.
  - cbn [fst]. intros H; inversion H; subst.
    eapply transcriptURL_error_kind, U.
Qed.

Lemma checked_error_kind videoId config method out e :
  (forall e0, fst out = Err e0 -> error_of_strategy videoId config method e0) ->
  fst (checked videoId method out) = Err e ->
  error_of_strategy videoId config method e.
Proof.
  destruct out as [[r|e0] l0]; cbn [checked fst]; intros Hout.
  - destruct (List.length r =? 0)%nat; cbn [fst]; [|discriminate].
    intros H; inversion H; subst. now split.
  - apply Hout.
Qed.

Lemma HtmlScraping_error_kind videoId config t log e :
  fst (fetchTranscriptWithHtmlScraping videoId config t log) = Err e ->
  error_of_strategy videoId config (str "HTML scraping") e.
Proof.
  rewrite HtmlScraping_unfold.
  destruct (retrieveVideoId videoId) as [identifier|e0] eqn:Hid.
  - cbv zeta. destruct (t log (watch_request identifier config)) as [|resp];
      cbn [fst]; [intros H; inversion H; exact I|].
    destruct (List.length _ <=? 1)%nat; cbn [fst].
    + intros H; inversion H; subst. unfold classify_failure.
      destruct (includes RECAPTCHA_MARKER (body resp)); [exact I|].
      destruct (negb (includes PLAYABILITY_MARKER (body resp))); reflexivity.
    + apply checked_error_kind. intros e0.
      apply processTranscript_error_kind.
  - cbn [fst]. intros H; inversion H; subst.
    now rewrite (retrieveVideoId_error _ _ Hid).
Qed.

Lemma InnerTube_error_kind videoId config t log e :
  fst (fetchTranscriptWithInnerTube videoId config t log) = Err e ->
  error_of_strategy videoId config (str "InnerTube API") e.
Proof.
  rewrite InnerTube_unfold.
  destruct (retrieveVideoId videoId) as [identifier|e0] eqn:Hid.
  - cbv zeta. destruct (t log (player_request identifier config)) as [|resp];
      cbn [fst]; [intros H; inversion H; exact I|].
    destruct (JSON_parse (body resp)) as [json|]; cbn [fst];
      [|intros H; inversion H; exact I].
    destruct (get json (str "captions")) as [outer|e0] eqn:G1; cbn [rbind fst].
    + destruct (get outer (str "playerCaptionsTracklistRenderer"))
        as [captions|e0] eqn:G2; cbn [fst].
      * apply checked_error_kind. intros e0.
        apply processTranscript_error_kind.
      * intros H; inversion H; subst. now rewrite (get_error _ _ _ G2).
    + intros H; inversion H; subst. now rewrite (get_error _ _ _ G1).
  - cbn [fst]. intros H; inversion H; subst.
    now rewrite (retrieveVideoId_error _ _ Hid).
Qed.

(** X3. The errors of a call.  An error of one of the module's classes
    that takes a video identifier carries the caller's input as it was
    given, not the resolved identifier; the language error carries the
    requested language; the base-class error is the resolution error;
    and an empty-transcript error that reaches the caller names the
    InnerTube API, never HTML scraping. *)
Theorem fetchTranscript_errors videoId config t log e :
  fst (fetchTranscript videoId config t log) = Err e ->
  error_of_strategy videoId config (str "InnerTube API") e.
Proof.
  unfold fetchTranscript.
  destruct (fetchTranscriptWithHtmlScraping videoId config t log)
    as [[r|e1] log1] eqn:E; cbn [fst]; [discriminate|].
  destruct (is_empty_error e1) eqn:He.
  - apply InnerTube_error_kind.
  - cbn [fst]. intros H; inversion H; subst e1.
    assert (Hk : error_of_strategy videoId config (str "HTML scraping") e)
      by (apply (HtmlScraping_error_kind videoId config t log); now rewrite E).
    destruct e; try exact Hk. discriminate He.
Qed.

Lemma fetchTranscript_errors_witness :
  fst (fetchTranscript sample_id None both_empty_transport [])
  = Err (YoutubeTranscriptEmptyError sample_id (str "InnerTube API")) /\
  error_of_strategy sample_id None (str "InnerTube API")
    (YoutubeTranscriptEmptyError sample_id (str "InnerTube API")).
Proof.
  split; [vm_compute; reflexivity|].
  apply (fetchTranscript_errors sample_id None both_empty_transport []).
  vm_compute; reflexivity.
Defined.

(** ** The status of the responses *)

Lemma set_status_other b n t l r :
  List.length l <> n -> is_player_request r = false ->
  set_status b n t l r = t l r.
Proof.
  intros Hl Hr. unfold set_status. apply Nat.eqb_neq in Hl. rewrite Hl, Hr.
  now destruct (t l r).
Qed.

Lemma processTranscript_set_status b n captions videoId config t l :
  List.length l <> n ->
  processTranscriptFromCaptions captions videoId config (set_status b n t) l =
  processTranscriptFromCaptions captions videoId config t l.
Proof.
  intros Hl. rewrite !processTranscript_unfold.
  destruct (transcriptURL captions videoId config) as [url|]; [|reflexivity].
  cbv zeta.
  now rewrite (set_status_other b n t l (track_request url config) Hl eq_refl).
Qed.

Lemma HtmlScraping_set_status b videoId config t log :
  fetchTranscriptWithHtmlScraping videoId config
    (set_status b (List.length log) t) log =
  fetchTranscriptWithHtmlScraping videoId config t log.
Proof.
  rewrite !HtmlScraping_unfold.
  destruct (retrieveVideoId videoId) as [identifier|]; [|reflexivity].
  cbv zeta. unfold set_status at 1.
  destruct (t log (watch_request identifier config)) as [|resp]; [reflexivity|].
  rewrite Nat.eqb_refl. cbn [orb body].
  destruct (List.length _ <=? 1)%nat; [reflexivity|].
  rewrite processTranscript_set_status; [reflexivity|simpl; lia].
Qed.

Lemma InnerTube_set_status b n videoId config t l :
  (n <= List.length l)%nat ->
  fetchTranscriptWithInnerTube videoId config (set_status b n t) l =
  fetchTranscriptWithInnerTube videoId config t l.
Proof.
  intros Hn. rewrite !InnerTube_unfold.
  destruct (retrieveVideoId videoId) as [identifier|]; [|reflexivity].
  cbv zeta. unfold set_status at 1.
  destruct (t l (player_request identifier config)) as [|resp]; [reflexivity|].
  cbn [is_player_request player_request req_method]. rewrite orb_true_r.
  cbn [body].
  destruct (JSON_parse (body resp)) as [json|]; [|reflexivity].
  destruct (let? outer := get json (str "captions") in _); [|reflexivity].
  rewrite processTranscript_set_status; [reflexivity|simpl; lia].
Qed.

Lemma HtmlScraping_log_grows videoId config t log :
  (List.length log
   <= List.length (snd (fetchTranscriptWithHtmlScraping videoId config t log)))%nat.
Proof.
  rewrite HtmlScraping_unfold.
  destruct (retrieveVideoId videoId) as [identifier|]; [|cbn; lia].
  cbv zeta. destruct (t log (watch_request identifier config)) as [|resp];
    [cbn; lia|].
  destruct (List.length _ <=? 1)%nat; [cbn; lia|].
  rewrite checked_log.
  destruct (processTranscript_requests
              (scraped_captions (split CAPTIONS_MARKER (body resp)))
              videoId config t (watch_request identifier config :: log))
    as (t1 & -> & _).
  rewrite length_app. simpl. lia.
Qed.

(** X4. The module never looks at the status of the response to the
    watch-page request nor at that of the response to the player API:
    with any other status on these two responses, the same bodies give
    the same outcome and the same requests. *)
Theorem status_ignored b videoId config t log :
  fetchTranscript videoId config (set_status b (List.length log) t) log =
  fetchTranscript videoId config t log.
Proof.
  unfold fetchTranscript. rewrite HtmlScraping_set_status.
  pose proof (HtmlScraping_log_grows videoId config t log) as Hlen.
  destruct (fetchTranscriptWithHtmlScraping videoId config t log)
    as [[r|e] log1]; [reflexivity|].
  destruct (is_empty_error e); [|reflexivity].
  apply InnerTube_set_status. exact Hlen.
Qed.

(** ** Captions that are absent or empty *)

Lemma processTranscript_falsy captions videoId config t log :
  truthy captions = false ->
  processTranscriptFromCaptions captions videoId config t log
  = (Err (YoutubeTranscriptDisabledError videoId), log).
Proof.
  intros H. rewrite processTranscript_unfold. unfold transcriptURL.
  now rewrite H.
Qed.

(** X5. A track list that is present but empty.  With a requested
    language the processor fails with the language error, whose list of
    available languages is empty; without one it fails with a TypeError,
    which is none of the module's classes.  No request is made. *)
Theorem empty_track_list m videoId config t log :
  own_property m (str "captionTracks") = Some (JArr []) ->
  processTranscriptFromCaptions (JObj m) videoId config t log =
  (Err match truthy_lang config with
       | Some l => YoutubeTranscriptNotAvailableLanguageError l [] videoId
       | None => TypeError
       end, log).
Proof.
  intros Hm. rewrite processTranscript_unfold. unfold transcriptURL.
  cbn [truthy negb has_property]. rewrite Hm. cbn [rbind negb].
  unfold check_language, selectTrack, captionTracks. cbn [get]. rewrite Hm.
  destruct (truthy_lang config) as [l|]; reflexivity.
Qed.

Lemma empty_track_list_witness :
  processTranscriptFromCaptions (JObj [(str "captionTracks", JArr [])])
    sample_id None (scripted []) []
  = (Err TypeError, []).
Proof.
  apply (empty_track_list [(str "captionTracks", JArr [])] sample_id None
           (scripted []) []).
  reflexivity.
Defined.

(** X6. When the response of the player API has a [captions] member
    that is neither null nor missing, but whose
    [playerCaptionsTracklistRenderer] is missing or falsy, the InnerTube
    strategy fails with the transcript-disabled error after its one
    request. *)
Theorem InnerTube_disabled
        videoId identifier config t log resp json outer captions :
  retrieveVideoId videoId = Ok identifier ->
  t log (player_request identifier config) = Responded resp ->
  JSON_parse (body resp) = Some json ->
  get json (str "captions") = Ok outer ->
  get outer (str "playerCaptionsTracklistRenderer") = Ok captions ->
  truthy captions = false ->
  fetchTranscriptWithInnerTube videoId config t log =
  (Err (YoutubeTranscriptDisabledError videoId),
   [player_request identifier config] ++ log).
Proof.
  intros Hid Hresp Hj Ho Hc Ht.
  rewrite InnerTube_unfold, Hid. cbv zeta. rewrite Hresp, Hj, Ho.
  cbn [rbind]. rewrite Hc, processTranscript_falsy by exact Ht. reflexivity.
Qed.

Lemma InnerTube_disabled_witness :
  fetchTranscriptWithInnerTube sample_id None
    (scripted [page (qstr "{'captions':{}}")]) []
  = (Err (YoutubeTranscriptDisabledError sample_id),
     [player_request sample_id None]).
Proof.
  refine (InnerTube_disabled sample_id sample_id None
            (scripted [page (qstr "{'captions':{}}")]) []
            {| ok := true; body := qstr "{'captions':{}}" |}
            (JObj [(str "captions", JObj [])]) (JObj []) JUndefined
            _ _ _ _ _ _); vm_compute; reflexivity.
Defined.

(** X7. When the page has the captions marker but the fragment after it
    does not parse as JSON, or parses to something without a truthy
    [playerCaptionsTracklistRenderer], the call fails with the
    transcript-disabled error after the one request for the page: no
    timed-text resource is fetched and the InnerTube strategy is not
    tried. *)
Theorem unusable_fragment_disabled videoId identifier config t log resp :
  retrieveVideoId videoId = Ok identifier ->
  t log (watch_request identifier config) = Responded resp ->
  includes CAPTIONS_MARKER (body resp) = true ->
  unusable_fragment (captions_fragment (split CAPTIONS_MARKER (body resp))) ->
  fetchTranscript videoId config t log =
  (Err (YoutubeTranscriptDisabledError videoId),
   [watch_request identifier config] ++ log).
Proof.
  intros Hid Hresp Hm Hu.
  assert (Hs : truthy (scraped_captions (split CAPTIONS_MARKER (body resp)))
               = false).
  { unfold scraped_captions. unfold unusable_fragment in Hu.
    destruct (JSON_parse _); [exact Hu|reflexivity]. }
  unfold fetchTranscript. rewrite HtmlScraping_unfold, Hid. cbv zeta.
  rewrite Hresp, (split_one_part _ _ CAPTIONS_MARKER_nonempty), Hm.
  cbn [negb]. rewrite processTranscript_falsy by exact Hs. reflexivity.
Qed.

Lemma unusable_fragment_disabled_witness :
  fetchTranscript sample_id None
    (scripted [page (qstr "<html>'captions':{oops},'videoDetails':{}</html>")]) []
  = (Err (YoutubeTranscriptDisabledError sample_id),
     [watch_request sample_id None]).
Proof.
  refine (unusable_fragment_disabled sample_id sample_id None
            (scripted [page (qstr "<html>'captions':{oops},'videoDetails':{}</html>")])
            []
            {| ok := true;
               body := qstr "<html>'captions':{oops},'videoDetails':{}</html>" |}
            _ _ _ _).
  - reflexivity.
  - reflexivity.
  - vm_compute; reflexivity.
  - vm_compute. exact I.
Defined.

(** ** The track that is fetched *)

Lemma languageCode_is_other l y code :
  get y (str "languageCode") = Ok code -> code <> JStr l ->
  languageCode_is l y = Ok false.
Proof.
  intros G Hc. unfold languageCode_is. rewrite G. cbn [rbind]. f_equal.
  destruct code; try reflexivity. cbn [strict_eq_string].
  destruct (jseqb s l) eqn:E; [|reflexivity].
  apply jseqb_eq in E. congruence.
Qed.

Lemma languageCode_is_same l y :
  get y (str "languageCode") = Ok (JStr l) -> languageCode_is l y = Ok true.
Proof.
  intros G. unfold languageCode_is. rewrite G. cbn [rbind strict_eq_string].
  now rewrite jseqb_refl.
Qed.

Lemma Array_some_find_app f pre x post :
  Forall (fun y => f y = Ok false) pre -> f x = Ok true ->
  Array_some f (pre ++ x :: post) = Ok true /\
  Array_find f (pre ++ x :: post) = Ok x.
Proof.
  intros Hpre Hx; induction Hpre as [|y pre Hy Hpre IH];
    cbn [app Array_some Array_find].
  - now rewrite Hx.
  - rewrite Hy. cbn [rbind]. exact IH.
Qed.

(** X8. With a requested language, the processor fetches the [baseUrl]
    of the first track whose [languageCode] is exactly that language,
    whatever tracks come after it, and on a successful response returns
    one segment for each match of the timed-text pattern in the body,
    each carrying the requested language. *)
Theorem requested_track_fetched
        m videoId config l pre track post url t log resp :
  truthy_lang config = Some l ->
  own_property m (str "captionTracks") = Some (JArr (pre ++ track :: post)) ->
  Forall (fun y => exists code,
              get y (str "languageCode") = Ok code /\ code <> JStr l) pre ->
  get track (str "languageCode") = Ok (JStr l) ->
  get track (str "baseUrl") = Ok url ->
  t log (track_request url config) = Responded resp ->
  ok resp = true ->
  processTranscriptFromCaptions (JObj m) videoId config t log =
  (Ok (map (segment_of_match (JStr l))
         (matchAll RE_XML_TRANSCRIPT (body resp))),
   [track_request url config] ++ log).
Proof.
  intros Hl Hm Hpre Hcode Hurl Hresp Hok.
  assert (Hpre' : Forall (fun y => languageCode_is l y = Ok false) pre).
  { eapply Forall_impl; [|exact Hpre]. intros y (code & G & Hc).
    now apply languageCode_is_other with code. }
  destruct (Array_some_find_app (languageCode_is l) pre track post Hpre'
              (languageCode_is_same l track Hcode)) as [Hsome Hfind].
  assert (Hu : transcriptURL (JObj m) videoId config = Ok url).
  { unfold transcriptURL. cbn [truthy negb has_property]. rewrite Hm.
    cbn [rbind negb]. unfold check_language, selectTrack, captionTracks.
    rewrite Hl. cbn [get]. rewrite Hm. cbn [rbind as_array].
    rewrite Hsome. cbn [rbind negb]. rewrite Hfind. exact Hurl. }
  rewrite processTranscript_unfold, Hu. cbv zeta. rewrite Hresp, Hok.
  cbn [negb]. rewrite (parseTranscript_matches _ _ (JStr l)); [reflexivity|].
  unfold reported_lang.
  now rewrite (proj1 (truthy_lang_config_lang _ _ Hl)).
Qed.

Lemma requested_track_fetched_witness :
  processTranscriptFromCaptions two_track_captions sample_id
    (Some {| lang := Some (str "fr") |}) (scripted [page sample_xml]) []
  = (Ok (sample_segments (JStr (str "fr"))),
     [track_request (JStr (str "https://t/fr"))
        (Some {| lang := Some (str "fr") |})]).
Proof.
  refine (requested_track_fetched
            [(str "captionTracks", JArr sample_tracks)] sample_id
            (Some {| lang := Some (str "fr") |}) (str "fr")
            [JObj [(str "baseUrl", JStr (str "https://t/en"));
                   (str "languageCode", JStr (str "en"))]]
            (JObj [(str "baseUrl", JStr (str "https://t/fr"));
                   (str "languageCode", JStr (str "fr"))])
            [] (JStr (str "https://t/fr")) (scripted [page sample_xml]) []
            {| ok := true; body := sample_xml |} _ _ _ _ _ _ _).
  - reflexivity.
  - reflexivity.
  - constructor; [|constructor].
    exists (JStr (str "en")). split; [reflexivity|discriminate].
  - reflexivity.
  - reflexivity.
  - reflexivity.
  - reflexivity.
Defined.

(** X9. With no language in the configuration, the processor fetches
    the [baseUrl] of element 0 of the track list, as they are, and on a
    successful response returns one segment for each match of the
    pattern, each carrying the [languageCode] of that element, be it
    undefined. *)
Theorem default_track_fetched
        m videoId config tracks first url code t log resp :
  config_lang config = None ->
  own_property m (str "captionTracks") = Some tracks ->
  index0 tracks = Ok first ->
  get first (str "baseUrl") = Ok url ->
  get first (str "languageCode") = Ok code ->
  t log (track_request url config) = Responded resp ->
  ok resp = true ->
  processTranscriptFromCaptions (JObj m) videoId config t log =
  (Ok (map (segment_of_match code) (matchAll RE_XML_TRANSCRIPT (body resp))),
   [track_request url config] ++ log).
Proof.
  intros Hcl Hm Hfirst Hurl Hcode Hresp Hok.
  assert (Hl : truthy_lang config = None) by (unfold truthy_lang; now rewrite Hcl).
  assert (Hu : transcriptURL (JObj m) videoId config = Ok url).
  { unfold transcriptURL. cbn [truthy negb has_property]. rewrite Hm.
    cbn [rbind negb]. unfold check_language, selectTrack, captionTracks.
    rewrite Hl. cbn [get rbind]. rewrite Hm. cbn [rbind]. rewrite Hfirst.
    exact Hurl. }
  rewrite processTranscript_unfold, Hu. cbv zeta. rewrite Hresp, Hok.
  cbn [negb]. rewrite (parseTranscript_matches _ _ code); [reflexivity|].
  unfold reported_lang, captionTracks. rewrite Hcl. cbn [get]. rewrite Hm.
  cbn [rbind]. rewrite Hfirst. exact Hcode.
Qed.

Lemma default_track_fetched_witness :
  processTranscriptFromCaptions
    (JObj [(str "captionTracks", JArr [JObj [(str "baseUrl", JStr (str "u"))]])])
    sample_id None (scripted [page sample_xml]) []
  = (Ok (sample_segments JUndefined), [track_request (JStr (str "u")) None]).
Proof.
  refine (default_track_fetched
            [(str "captionTracks", JArr [JObj [(str "baseUrl", JStr (str "u"))]])]
            sample_id None (JArr [JObj [(str "baseUrl", JStr (str "u"))]])
            (JObj [(str "baseUrl", JStr (str "u"))]) (JStr (str "u")) JUndefined
            (scripted [page sample_xml]) []
            {| ok := true; body := sample_xml |} _ _ _ _ _ _ _); reflexivity.
Defined.

(** ** More on the identifier *)

(** X10. An identifier that [retrieveVideoId] returns has exactly 11
    units; it is the input itself or is made of identifier characters;
    and resolving it again returns it. *)
Theorem retrieveVideoId_result videoId id :
  retrieveVideoId videoId = Ok id ->
  List.length id = 11%nat /\
  (id = videoId \/ Forall (fun x => id_char x = true) id) /\
  retrieveVideoId id = Ok id.
Proof.
  intros H.
  assert (Hlen : List.length id = 11%nat /\
                 (id = videoId \/ Forall (fun x => id_char x = true) id)).
  { unfold retrieveVideoId in H.
    destruct (List.length videoId =? 11)%nat eqn:L.
    - inversion H; subst. apply Nat.eqb_eq in L. auto.
    - destruct (regex_match RE_YOUTUBE videoId) as [caps|] eqn:M;
        [|discriminate].
      inversion H; subst.
      destruct (regex_match_inv _ _ _ M) as (pre & s0 & rest & _ & Hx).
      destruct (exec_at_RE_YOUTUBE_inv _ _ _ Hx)
        as (host & mid & found & _ & _ & [Hl Hc] & Hg).
      unfold group. rewrite Hg. auto. }
  destruct Hlen as [Hlen Hch]. repeat split; auto.
  unfold retrieveVideoId. now rewrite Hlen.
Qed.

Lemma retrieveVideoId_result_witness :
  List.length sample_id = 11%nat /\
  (sample_id = str "https://youtu.be/dQw4w9WgXcQ" \/
   Forall (fun x => id_char x = true) sample_id) /\
  retrieveVideoId sample_id = Ok sample_id.
Proof.
  apply (retrieveVideoId_result (str "https://youtu.be/dQw4w9WgXcQ") sample_id).
  vm_compute; reflexivity.
Defined.

(** X11. The short host.  When the input has no letter y before a host
    [youtu.be/] written in any letter case, and eleven identifier
    characters follow the host, these are returned, whatever comes after
    them. *)
Theorem short_host_resolves pre host id rest :
  no_y pre ->
  map ascii_upper host = map ascii_upper HOST_SHORT ->
  id_ok id ->
  retrieveVideoId (pre ++ host ++ id ++ rest) = Ok id.
Proof.
  intros Hpre Hh Hid.
  rewrite (retrieveVideoId_at pre (host ++ id ++ rest) [(1%nat, id)] rest Hpre).
  - reflexivity.
  - destruct Hid as [Hl _]. rewrite !length_app, Hl.
    apply (f_equal (@List.length N)) in Hh. rewrite !length_map in Hh.
    rewrite Hh. simpl. lia.
  - now apply exec_at_short_host_any_case.
Qed.

Lemma short_host_resolves_witness :
  retrieveVideoId (str "HTTPS://YOUTU.BE/" ++ sample_id ++ str "?t=30&a/b")
  = Ok sample_id.
Proof.
  apply (short_host_resolves (str "HTTPS://") (str "YOUTU.BE/") sample_id
           (str "?t=30&a/b")).
  - repeat constructor.
  - reflexivity.
  - split; [reflexivity|repeat constructor].
Defined.

Lemma suffix_of_app (id rest u v : jsstring) :
  id ++ rest = u ++ v ->
  (exists i1 x i2, id = i1 ++ x :: i2 /\ v = x :: i2 ++ rest) \/
  (exists r1, rest = r1 ++ v).
Proof.
  revert u; induction id as [|x id IH]; intros u E.
  - right. now exists u.
  - destruct u as [|y u].
    + cbn [app] in E. left. exists [], x, id. split; [reflexivity|].
      now rewrite <- E.
    + cbn [app] in E. injection E as Eh Et.
      destruct (IH u Et) as [(i1 & x0 & i2 & Ei & Ev)|[r1 Er]].
      * left. exists (x :: i1), x0, i2. rewrite Ei. split; [reflexivity|exact Ev].
      * right. exists r1. exact Er.
Qed.

Lemma query_tail_fails {A} id rest c (k : @cont A) :
  Forall (fun x => id_char x = true) id ->
  has_v_param rest = false ->
  rmatch (Star (Chr dot)) (id ++ rest) c
    (fun s' c' => rmatch (Seq (Chr is_query_mark) (lit_i (str "v="))) s' c' k)
  = None.
Proof.
  intros Hid Hrest. apply rmatch_Star_Chr_fail. intros u v E _.
  destruct (suffix_of_app id rest u v E) as [(i1 & x & i2 & -> & ->)|[r1 ->]].
  - apply Forall_app in Hid. destruct Hid as [_ Hx].
    inversion Hx as [|? ? Hc _]; subst.
    rewrite rmatch_Seq, rmatch_Chr_cons.
    destruct (id_char_facts x Hc) as (_ & _ & ->). reflexivity.
  - apply query_step_fails. eapply has_v_param_suffix, Hrest.
Qed.

Lemma RE_QUERY_watch_then {A} id rest c (k : @cont A) :
  Forall (fun x => id_char x = true) id ->
  has_v_param rest = false ->
  rmatch RE_QUERY (str "watch?v=" ++ id ++ rest) c k = k (id ++ rest) c.
Proof.
  intros Hid Hrest. unfold RE_QUERY. rewrite rmatch_Seq.
  cbn [str map list_ascii_of_string app].
  repeat (rewrite rmatch_Star_Chr_true by reflexivity).
  rewrite (query_tail_fails id rest _ _ Hid Hrest). cbn.
  now destruct (k (id ++ rest) c).
Qed.

Lemma exec_at_watch_then host id rest :
  map ascii_upper host = map ascii_upper HOST_LONG ->
  id_ok id ->
  Forall (fun x => any_but [47] x = true) rest ->
  has_v_param rest = false ->
  exec_at RE_YOUTUBE (host ++ str "watch?v=" ++ id ++ rest)
  = Some ([(1%nat, id)], rest).
Proof.
  intros Hh Hid Hslash Hv. pose proof Hid as [_ Hch].
  unfold exec_at, RE_YOUTUBE.
  rewrite rmatch_Seq, rmatch_Alt, rmatch_Seq.
  rewrite rmatch_lit_i_any_case by exact Hh.
  unfold RE_PATH. rewrite rmatch_Alt, RE_NESTED_no_slash.
  - rewrite rmatch_Alt.
    change (str "watch?v=" ++ id ++ rest)
      with (str "watch?" ++ (str "v=" ++ id ++ rest)) at 1.
    rewrite RE_KEYWORD_watch. cbn [orelse].
    rewrite (RE_QUERY_watch_then id rest _ _ Hch Hv).
    now rewrite rmatch_RE_ID.
  - apply Forall_app. split; [repeat constructor|].
    apply Forall_app. split; [now apply id_no_slash|exact Hslash].
Qed.

(** X12. The watch URL with more after the identifier.  When the input
    has no letter y before a host [youtube.com/] written in any letter
    case, followed by [watch?v=] and eleven identifier characters, and
    what comes after them has no slash and no further [v] parameter,
    the eleven characters are returned. *)
Theorem watch_url_resolves pre host id rest :
  no_y pre ->
  map ascii_upper host = map ascii_upper HOST_LONG ->
  id_ok id ->
  Forall (fun x => any_but [47] x = true) rest ->
  has_v_param rest = false ->
  retrieveVideoId (pre ++ host ++ str "watch?v=" ++ id ++ rest) = Ok id.
Proof.
  intros Hpre Hh Hid Hslash Hv.
  rewrite (retrieveVideoId_at pre (host ++ str "watch?v=" ++ id ++ rest)
             [(1%nat, id)] rest Hpre).
  - reflexivity.
  - rewrite !length_app.
    apply (f_equal (@List.length N)) in Hh. rewrite !length_map in Hh.
    rewrite Hh. simpl. lia.
  - now apply exec_at_watch_then.
Qed.

Lemma watch_url_resolves_witness :
  retrieveVideoId
    (str "https://www.YouTube.com/watch?v=" ++ sample_id ++ str "&t=10s&list=PL1")
  = Ok sample_id.
Proof.
  apply (watch_url_resolves (str "https://www.") (str "YouTube.com/") sample_id
           (str "&t=10s&list=PL1")).
  - repeat constructor.
  - reflexivity.
  - split; [reflexivity|repeat constructor].
  - repeat constructor.
  - reflexivity.
Defined.

(** A greedy class repetition gives back units until what follows
    matches: here it matches at [x :: b] and nowhere inside [b]. *)
Lemma rmatch_Star_Chr_backtrack {A} p a x b c (k : @cont A) v :
  Forall (fun y => p y = true) a ->
  p x = true ->
  Forall (fun y => p y = true) b ->
  (forall u w, b = u ++ w -> k w c = None) ->
  k (x :: b) c = Some v ->
  rmatch (Star (Chr p)) (a ++ x :: b) c k = Some v.
Proof.
  intros Ha Hx Hb Hfail Hk; induction Ha as [|y a Hy Ha IH]; cbn [app].
  - rewrite rmatch_Star_Chr_true by exact Hx.
    rewrite rmatch_Star_Chr_fail; [exact Hk|].
    intros u w E _. now apply (Hfail u w).
  - rewrite rmatch_Star_Chr_true by exact Hy. now rewrite IH.
Qed.

Lemma RE_NESTED_path {A} a b id c (k : @cont A) v :
  a <> [] -> Forall (fun x => any_but [47] x = true) a ->
  b <> [] -> Forall (fun x => dot x = true) b ->
  Forall (fun x => id_char x = true) id ->
  k id c = Some v ->
  rmatch RE_NESTED (a ++ 47 :: b ++ 47 :: id) c k = Some v.
Proof.
  intros Ha Hna Hb Hdb Hid Hk. unfold RE_NESTED, Plus. rewrite !rmatch_Seq.
  destruct a as [|x a]; [congruence|]. inversion Hna as [|? ? Hx Hna']; subst.
  cbn [app]. rewrite rmatch_Chr_cons, Hx.
  apply rmatch_Star_Chr_greedy; [exact Hna'|reflexivity|].
  rewrite rmatch_Seq, rmatch_slash, N.eqb_refl, !rmatch_Seq.
  destruct b as [|y b]; [congruence|]. inversion Hdb as [|? ? Hy Hdb']; subst.
  cbn [app]. rewrite rmatch_Chr_cons, Hy.
  apply rmatch_Star_Chr_backtrack; [exact Hdb'|reflexivity| | |].
  - eapply Forall_impl; [|exact Hid]. intros z Hz.
    now destruct (id_char_facts z Hz) as (_ & ? & _).
  - intros u w E. rewrite rmatch_slash.
    pose proof (id_no_slash id Hid) as Hns. rewrite E in Hns.
    apply Forall_app in Hns. destruct Hns as [_ Hw].
    destruct w as [|z w]; [reflexivity|]. now rewrite (no_slash_head z w Hw).
  - rewrite rmatch_slash, N.eqb_refl. exact Hk.
Qed.

(** X13. The nested path.  When the input has no letter y before a host
    [youtube.com/] written in any letter case, and after the host come
    a first path segment, a slash, any text without line terminator,
    slashes included, a slash and eleven identifier characters at the
    end of the input, these are returned: of several candidates the
    one after the last slash wins. *)
Theorem nested_path_resolves pre host a b id :
  no_y pre ->
  map ascii_upper host = map ascii_upper HOST_LONG ->
  a <> [] -> Forall (fun x => any_but [47] x = true) a ->
  b <> [] -> Forall (fun x => dot x = true) b ->
  id_ok id ->
  retrieveVideoId (pre ++ host ++ a ++ 47 :: b ++ 47 :: id) = Ok id.
Proof.
  intros Hpre Hh Ha Hna Hb Hdb Hid. pose proof Hid as [Hlen Hch].
  rewrite (retrieveVideoId_at pre (host ++ a ++ 47 :: b ++ 47 :: id)
             [(1%nat, id)] [] Hpre).
  - reflexivity.
  - rewrite !length_app.
    apply (f_equal (@List.length N)) in Hh. rewrite !length_map in Hh.
    rewrite Hh. simpl. lia.
  - unfold exec_at, RE_YOUTUBE.
    rewrite rmatch_Seq, rmatch_Alt, rmatch_Seq.
    rewrite rmatch_lit_i_any_case by exact Hh.
    unfold RE_PATH. rewrite rmatch_Alt.
    erewrite (RE_NESTED_path a b id _ _ _ Ha Hna Hb Hdb Hch); [reflexivity|].
    cbv beta. rewrite <- (app_nil_r id) at 1. now rewrite rmatch_RE_ID.
Qed.

Lemma nested_path_resolves_witness :
  retrieveVideoId
    (str "https://www.youtube.com/embed/AAAAAAAAAAA/x/" ++ sample_id)
  = Ok sample_id.
Proof.
  apply (nested_path_resolves (str "https://www.") (str "youtube.com/")
           (str "embed") (str "AAAAAAAAAAA/x") sample_id).
  - repeat constructor.
  - reflexivity.
  - discriminate.
  - repeat constructor.
  - discriminate.
  - repeat constructor.
  - split; [reflexivity|repeat constructor].
Defined.

(** ** A track that cannot be downloaded *)

(** X14. When the page gives captions with a track to fetch and the
    response for that track has a non-success status, the call fails
    with the transcript-not-available error after these two requests:
    the body of the response is not read and the InnerTube strategy is
    not tried. *)
Theorem track_status_not_ok videoId identifier config t log page_resp url resp :
  retrieveVideoId videoId = Ok identifier ->
  t log (watch_request identifier config) = Responded page_resp ->
  includes CAPTIONS_MARKER (body page_resp) = true ->
  transcriptURL (scraped_captions (split CAPTIONS_MARKER (body page_resp)))
    videoId config = Ok url ->
  t (watch_request identifier config :: log) (track_request url config)
  = Responded resp ->
  ok resp = false ->
  fetchTranscript videoId config t log =
  (Err (YoutubeTranscriptNotAvailableError videoId),
   [track_request url config; watch_request identifier config] ++ log).
Proof.
  intros Hid Hpage Hm Hu Hresp Hok.
  unfold fetchTranscript. rewrite HtmlScraping_unfold, Hid. cbv zeta.
  rewrite Hpage, (split_one_part _ _ CAPTIONS_MARKER_nonempty), Hm.
  cbn [negb]. rewrite processTranscript_unfold, Hu. cbv zeta.
  rewrite Hresp, Hok. reflexivity.
Qed.

Lemma track_status_not_ok_witness :
  fetchTranscript sample_id None
    (scripted [page sample_page;
               Responded {| ok := false; body := sample_xml |}]) []
  = (Err (YoutubeTranscriptNotAvailableError sample_id),
     [track_request (JStr (str "https://t/en")) None;
      watch_request sample_id None]).
Proof.
  refine (track_status_not_ok sample_id sample_id None
            (scripted [page sample_page;
                       Responded {| ok := false; body := sample_xml |}]) []
            {| ok := true; body := sample_page |} (JStr (str "https://t/en"))
            {| ok := false; body := sample_xml |} _ _ _ _ _ _);
    vm_compute; reflexivity.
Defined.
